(** * bd-races: the event reconciliation scripts

    A shallow embedding of the link-fixing script (fix_fblinks), of the
    link-verification script (verify_fblinks) and of the consistency
    checker (check_events.js), with the properties the specification states
    about them and further properties of the code.

    Strings are JavaScript strings: finite sequences of UTF-16 code units,
    here [list N].  Numbers that the scripts only ever use as array indices,
    lengths and counters are [nat]; the similarity score, a quotient of two
    such integers, is an exact rational [Q] (the source computes the
    correctly rounded double of the same quotient; the comparisons against
    0.7 agree with the rational ones for every name shorter than 2^26 code
    units). *)

From Stdlib Require Import String Ascii.
From Stdlib Require Import List NArith ZArith QArith Lia Bool Arith.
From Stdlib Require Import Sorting Permutation.
From Stdlib Require Import DecimalString.
Import ListNotations.

Close Scope Q_scope.
Open Scope nat_scope.

Set Implicit Arguments.

(* ===================================================================== *)
(** ** JavaScript strings and the built-ins the scripts call *)
(* ===================================================================== *)

Module JS.

Definition jsstring : Type := list N.

(** An ASCII literal as a JavaScript string. *)
Definition js (s : string) : jsstring :=
  map N_of_ascii (list_ascii_of_string s).

Definition jsstring_eq_dec : forall a b : jsstring, {a = b} + {a <> b} :=
  list_eq_dec N.eq_dec.

Fixpoint jseqb (a b : jsstring) : bool :=
  match a, b with
  | [], [] => true
  | x :: a', y :: b' => (x =? y)%N && jseqb a' b'
  | _, _ => false
  end.

(** [!s] on a string: only the empty string is falsy. *)
Definition falsy (s : jsstring) : bool :=
  match s with [] => true | _ => false end.

Section CharClasses.
Local Open Scope N_scope.

(** [\d] of a regular expression without the u flag: the ten ASCII digits. *)
Definition isDigit (c : N) : bool := (48 <=? c) && (c <=? 57).

(** LineTerminator of ECMAScript: LF, CR, LS, PS. *)
Definition isLineTerminator (c : N) : bool :=
  (c =? 10) || (c =? 13) || (c =? 8232) || (c =? 8233).

(** [\s] and the characters [trim] removes: WhiteSpace and LineTerminator of
    ECMAScript (TAB, LF, VT, FF, CR, SP, NBSP, U+1680, U+2000..U+200A, LS, PS,
    U+202F, U+205F, U+3000 and the byte-order-mark U+FEFF). *)
Definition isWhiteSpace (c : N) : bool :=
  ((9 <=? c) && (c <=? 13)) || (c =? 32) || (c =? 160) || (c =? 5760)
  || ((8192 <=? c) && (c <=? 8202)) || (c =? 8232) || (c =? 8233)
  || (c =? 8239) || (c =? 8287) || (c =? 12288) || (c =? 65279).

(** [toLowerCase] on one code unit.  The mapping is exact on Basic Latin,
    and a string of code units below 128 is lowered exactly as the built-in
    lowers it.  Code units from 128 on are left as they are: that is what
    the built-in does for characters without case (Bengali, punctuation),
    but it lowers the cased ones, some of them by context or to more than
    one code unit (U+00C9, U+212A, U+0130, the pairs of surrogates of
    U+10400).  The properties below that depend on what [toLowerCase]
    returns therefore take it as they find it: they are stated on the
    normalized name and assume that [toLowerCase] leaves that name alone,
    and their proofs use nothing else of it. *)
Definition lowerUnit (c : N) : N :=
  if (65 <=? c) && (c <=? 90) then c + 32 else c.

(** Canonicalize of a regular expression with the i flag and without the u
    flag: upper-casing, except that a code unit from 128 on never folds to a
    Basic Latin one.  Against the Basic Latin letters of the patterns below,
    a code unit matches exactly when it is the letter in either case. *)
Definition canonicalize (c : N) : N :=
  if (97 <=? c) && (c <=? 122) then c - 32 else c.

End CharClasses.

Definition toLowerCase (s : jsstring) : jsstring := map lowerUnit s.

Fixpoint drop_while (p : N -> bool) (s : jsstring) : jsstring :=
  match s with
  | [] => []
  | c :: s' => if p c then drop_while p s' else s
  end.

Definition trimStart (s : jsstring) : jsstring := drop_while isWhiteSpace s.
Definition trimEnd (s : jsstring) : jsstring :=
  rev (drop_while isWhiteSpace (rev s)).
Definition trim (s : jsstring) : jsstring := trimEnd (trimStart s).

Fixpoint startsWith (s pat : jsstring) {struct pat} : bool :=
  match pat, s with
  | [], _ => true
  | p :: pat', c :: s' => (c =? p)%N && startsWith s' pat'
  | _ :: _, [] => false
  end.

(** *** Regular expressions

    An anchored matcher consumes a prefix of the rest of the subject and
    returns what is left after the match.  Every greedy repetition in the
    scripts' patterns is followed by an atom that the repeated class
    excludes (or by the end of the pattern), so giving back characters never
    turns a failed match into a successful one and no backtracking is
    modelled. *)

Definition rx : Type := jsstring -> option jsstring.

Definition rx_eps : rx := fun s => Some s.

Definition rx_seq (a b : rx) : rx :=
  fun s => match a s with Some r => b r | None => None end.

(** One character of a class. *)
Definition rx_class (p : N -> bool) : rx :=
  fun s => match s with
           | c :: r => if p c then Some r else None
           | [] => None
           end.

(** [p*] and [p+], greedy. *)
Definition rx_star (p : N -> bool) : rx := fun s => Some (drop_while p s).
Definition rx_plus (p : N -> bool) : rx := rx_seq (rx_class p) (rx_star p).

(** [p{n}]. *)
Fixpoint rx_count (n : nat) (p : N -> bool) : rx :=
  match n with
  | O => rx_eps
  | S k => rx_seq (rx_class p) (rx_count k p)
  end.

(** A literal, case-sensitive or under the i flag. *)
Fixpoint rx_lit (pat : jsstring) : rx :=
  match pat with
  | [] => rx_eps
  | p :: pat' => rx_seq (rx_class (N.eqb p)) (rx_lit pat')
  end.

Fixpoint rx_lit_i (pat : jsstring) : rx :=
  match pat with
  | [] => rx_eps
  | p :: pat' =>
      rx_seq (rx_class (fun c => (canonicalize c =? canonicalize p)%N))
             (rx_lit_i pat')
  end.

(** [.*]: the dot excludes the line terminators. *)
Definition rx_dot_star : rx := rx_star (fun c => negb (isLineTerminator c)).

(** [$] without the m flag: the end of the subject. *)
Definition rx_eoi : rx :=
  fun s => match s with [] => Some [] | _ :: _ => None end.

(** The length of the match that starts here, if the pattern matches here. *)
Definition match_len (r : rx) (s : jsstring) : option nat :=
  match r s with
  | Some rest => Some (length s - length rest)
  | None => None
  end.

(** [s.replace(/r/, repl)]: the leftmost match is replaced, [repl] holding
    no [$] pattern. *)
Fixpoint replace_first (r : rx) (repl s : jsstring) : jsstring :=
  match match_len r s with
  | Some n => repl ++ skipn n s
  | None =>
      match s with
      | [] => []
      | c :: s' => c :: replace_first r repl s'
      end
  end.

(** [s.replace(/r/g, repl)]: every match is replaced, the search resuming
    where the last match ended (one code unit further after an empty match).
    The replacement is a function of the matched text, for patterns such as
    [$1]; [skip] counts the code units of the current match still to be
    dropped. *)
Fixpoint replace_all_from (r : rx) (repl : jsstring -> jsstring) (skip : nat)
    (s : jsstring) : jsstring :=
  match skip with
  | S k =>
      match s with
      | [] => []
      | _ :: s' => replace_all_from r repl k s'
      end
  | O =>
      match match_len r s with
      | Some (S k) =>
          repl (firstn (S k) s)
          ++ match s with
             | [] => []
             | _ :: s' => replace_all_from r repl k s'
             end
      | Some O =>
          repl []
          ++ match s with
             | [] => []
             | c :: s' => c :: replace_all_from r repl 0 s'
             end
      | None =>
          match s with
          | [] => []
          | c :: s' => c :: replace_all_from r repl 0 s'
          end
      end
  end.

Definition replace_all_by (r : rx) (repl : jsstring -> jsstring)
    (s : jsstring) : jsstring :=
  replace_all_from r repl 0 s.

Definition replace_all (r : rx) (repl s : jsstring) : jsstring :=
  replace_all_by r (fun _ => repl) s.

(** [s.match(/r/)?.[1]] for a pattern whose only group is its last atom: the
    group's text at the leftmost match.  [pre] is the pattern before the
    group and [grp] the group. *)
Fixpoint match_group (pre grp : rx) (s : jsstring) : option jsstring :=
  let here :=
    match pre s with
    | Some r =>
        match grp r with
        | Some rest => Some (firstn (length r - length rest) r)
        | None => None
        end
    | None => None
    end in
  match here with
  | Some g => Some g
  | None =>
      match s with
      | [] => None
      | _ :: s' => match_group pre grp s'
      end
  end.

End JS.

Import JS.

(* ===================================================================== *)
(** ** JSON values and [JSON.parse] *)
(* ===================================================================== *)

Module Json.

(** A parsed JSON value.  A number is kept as the decimal [m * 10^e] of
    its literal; the scripts only ever test a number for truthiness, which
    reads it as the double [JSON.parse] returns (see [readsAsZero]).  An
    object keeps its members in source order, a repeated key being read at
    its last occurrence. *)
#[local] Unset Elimination Schemes.
Inductive json : Type :=
| JNull
| JBool (b : bool)
| JNum (m e : Z)
| JStr (s : jsstring)
| JArr (items : list json)
| JObj (members : list (jsstring * json)).
#[local] Set Elimination Schemes.

(** [o.key] on a parsed value: [None] is [undefined]. *)
Fixpoint members_get (ms : list (jsstring * json)) (key : jsstring)
    : option json :=
  match ms with
  | [] => None
  | (k, v) :: rest =>
      match members_get rest key with
      | Some v' => Some v'
      | None => if jseqb key k then Some v else None
      end
  end.

Definition get (v : json) (key : jsstring) : option json :=
  match v with
  | JObj ms => members_get ms key
  | _ => None
  end.

(** The double nearest to [m * 10^e] (ties to even) is 0: the literal is 0,
    or its magnitude is at most 2^-1075, half the least positive double. *)
Definition readsAsZero (m e : Z) : bool :=
  (m =? 0)%Z
  || ((e <? 0)%Z && (Z.abs m * 2 ^ 1075 <=? 10 ^ (- e))%Z).

(** Truthiness of a parsed value. *)
Definition truthy (v : json) : bool :=
  match v with
  | JNull => false
  | JBool b => b
  | JNum m e => negb (readsAsZero m e)
  | JStr s => negb (falsy s)
  | JArr _ | JObj _ => true
  end.

Section Grammar.
Local Open Scope N_scope.

Definition isJsonSpace (c : N) : bool :=
  (c =? 32) || (c =? 9) || (c =? 10) || (c =? 13).

Definition skip_ws (s : jsstring) : jsstring := drop_while isJsonSpace s.

Definition hexVal (c : N) : option N :=
  if isDigit c then Some (c - 48)
  else if (97 <=? c) && (c <=? 102) then Some (c - 87)
  else if (65 <=? c) && (c <=? 70) then Some (c - 55)
  else None.

Definition hex4 (a b c d : N) : option N :=
  match hexVal a, hexVal b, hexVal c, hexVal d with
  | Some x, Some y, Some z, Some w => Some (((x * 16 + y) * 16 + z) * 16 + w)
  | _, _, _, _ => None
  end.

(** The text of a string after its opening quote. *)
Fixpoint parse_string (s acc : jsstring) : option (jsstring * jsstring) :=
  match s with
  | [] => None
  | c :: r =>
      if c =? 34 then Some (rev acc, r)
      else if c =? 92 then
        match r with
        | [] => None
        | e :: r' =>
            if e =? 34 then parse_string r' (34 :: acc)
            else if e =? 92 then parse_string r' (92 :: acc)
            else if e =? 47 then parse_string r' (47 :: acc)
            else if e =? 98 then parse_string r' (8 :: acc)
            else if e =? 102 then parse_string r' (12 :: acc)
            else if e =? 110 then parse_string r' (10 :: acc)
            else if e =? 114 then parse_string r' (13 :: acc)
            else if e =? 116 then parse_string r' (9 :: acc)
            else if e =? 117 then
              match r' with
              | h1 :: h2 :: h3 :: h4 :: r'' =>
                  match hex4 h1 h2 h3 h4 with
                  | Some u => parse_string r'' (u :: acc)
                  | None => None
                  end
              | _ => None
              end
            else None
        end
      else if c <? 32 then None
      else parse_string r (c :: acc)
  end.

(** A run of digits: its value after [acc], its length, and the rest. *)
Fixpoint read_digits (s : jsstring) (acc : Z) (n : Z) : Z * Z * jsstring :=
  match s with
  | c :: r =>
      if isDigit c then read_digits r (acc * 10 + Z.of_N (c - 48))%Z (n + 1)%Z
      else (acc, n, s)
  | [] => (acc, n, s)
  end.

Definition parse_exponent (s : jsstring) : option (Z * jsstring) :=
  match s with
  | c :: r =>
      if (c =? 101) || (c =? 69) then
        let '(sign, r1) :=
          match r with
          | d :: r' =>
              if d =? 45 then ((-1)%Z, r')
              else if d =? 43 then (1%Z, r')
              else (1%Z, r)
          | [] => (1%Z, r)
          end in
        let '(v, n, rest) := read_digits r1 0%Z 0%Z in
        if (n =? 0)%Z then None else Some ((sign * v)%Z, rest)
      else Some (0%Z, s)
  | [] => Some (0%Z, s)
  end.

Definition parse_fraction (s : jsstring) (int : Z) : option (Z * Z * jsstring) :=
  match s with
  | c :: r =>
      if c =? 46 then
        let '(v, n, rest) := read_digits r int 0%Z in
        if (n =? 0)%Z then None else Some (v, n, rest)
      else Some (int, 0%Z, s)
  | [] => Some (int, 0%Z, s)
  end.

Definition parse_number (s : jsstring) : option (json * jsstring) :=
  let '(sign, s1) :=
    match s with
    | c :: r => if c =? 45 then ((-1)%Z, r) else (1%Z, s)
    | [] => (1%Z, s)
    end in
  match s1 with
  | c :: r =>
      if isDigit c then
        let '(int, _, s2) :=
          if c =? 48 then (0%Z, 1%Z, r) else read_digits s1 0%Z 0%Z in
        match parse_fraction s2 int with
        | Some (m, fracLen, s3) =>
            match parse_exponent s3 with
            | Some (e, rest) => Some (JNum (sign * m) (e - fracLen), rest)
            | None => None
            end
        | None => None
        end
      else None
  | [] => None
  end.

Definition parse_literal (s : jsstring) : option (json * jsstring) :=
  if startsWith s (js "true") then Some (JBool true, skipn 4 s)
  else if startsWith s (js "false") then Some (JBool false, skipn 5 s)
  else if startsWith s (js "null") then Some (JNull, skipn 4 s)
  else parse_number s.

Fixpoint parse_value (fuel : nat) (s : jsstring) {struct fuel}
    : option (json * jsstring) :=
  match fuel with
  | O => None
  | S f =>
      match skip_ws s with
      | [] => None
      | c :: r =>
          if c =? 91 then
            match skip_ws r with
            | d :: r' =>
                if d =? 93 then Some (JArr [], r') else parse_elements f r []
            | [] => None
            end
          else if c =? 123 then
            match skip_ws r with
            | d :: r' =>
                if d =? 125 then Some (JObj [], r') else parse_members f r []
            | [] => None
            end
          else if c =? 34 then
            match parse_string r [] with
            | Some (str, rest) => Some (JStr str, rest)
            | None => None
            end
          else parse_literal (c :: r)
      end
  end

with parse_elements (fuel : nat) (s : jsstring) (acc : list json)
    {struct fuel} : option (json * jsstring) :=
  match fuel with
  | O => None
  | S f =>
      match parse_value f s with
      | Some (v, r) =>
          match skip_ws r with
          | d :: r' =>
              if d =? 44 then parse_elements f r' (v :: acc)
              else if d =? 93 then Some (JArr (rev (v :: acc)), r')
              else None
          | [] => None
          end
      | None => None
      end
  end

with parse_members (fuel : nat) (s : jsstring)
    (acc : list (jsstring * json)) {struct fuel} : option (json * jsstring) :=
  match fuel with
  | O => None
  | S f =>
      match skip_ws s with
      | q :: r =>
          if q =? 34 then
            match parse_string r [] with
            | Some (key, r1) =>
                match skip_ws r1 with
                | colon :: r2 =>
                    if colon =? 58 then
                      match parse_value f r2 with
                      | Some (v, r3) =>
                          match skip_ws r3 with
                          | d :: r4 =>
                              if d =? 44
                              then parse_members f r4 ((key, v) :: acc)
                              else if d =? 125
                              then Some (JObj (rev ((key, v) :: acc)), r4)
                              else None
                          | [] => None
                          end
                      | None => None
                      end
                    else None
                | [] => None
                end
            | None => None
            end
          else None
      | [] => None
      end
  end.

End Grammar.

(** [JSON.parse(text)]: one value, white space around it, nothing else;
    [None] is the SyntaxError.  The fuel bounds the nesting of the calls:
    within two levels a call has consumed a code unit of the text. *)
Definition parse (text : jsstring) : option json :=
  match parse_value (2 * length text + 3) text with
  | Some (v, rest) =>
      match skip_ws rest with
      | [] => Some v
      | _ :: _ => None
      end
  | None => None
  end.

End Json.

(** Left-to-right application, to write a method chain in source order. *)
Notation "s |> f" := (f s) (at level 45, left associativity, only parsing).

(* ===================================================================== *)
(** ** Reading the catalog: what the copies of [parseEventsJson] share *)
(* ===================================================================== *)

Module Catalog.

Import Json.

(** The three errors [parseEventsJson] throws. *)
Inductive parseError : Type :=
| EventsJsonNotFound
| FailedToParse
| RootNotArray.

(** [/,\s*([}\]])/g] and its replacement [$1], the closing bracket or brace,
    which is the last code unit of the match. *)
Definition trailingComma : rx :=
  rx_seq (rx_lit (js ","))
    (rx_seq (rx_star isWhiteSpace)
       (rx_class (fun c => (c =? 125)%N || (c =? 93)%N))).

Definition group1 (matched : jsstring) : jsstring :=
  skipn (length matched - 1) matched.

(** [.replace(/^\uFEFF/, '')]. *)
Definition stripBom (s : jsstring) : jsstring :=
  match s with
  | c :: r => if (c =? 65279)%N then r else s
  | [] => []
  end.

Definition cleanup (raw : jsstring) : jsstring :=
  raw |> replace_all_by trailingComma group1 |> stripBom.

End Catalog.

(* ===================================================================== *)
(** ** The link-fixing script *)
(* ===================================================================== *)

Module FixLinks.

Import Json Catalog.

(** [parseEventsJson].  [file] is the text of events.json as read, [None]
    when the file does not exist; [JSON_parse] is the host's [JSON.parse],
    [None] standing for its SyntaxError. *)
Section ParseEventsJson.
Variable JSON_parse : jsstring -> option json.

Definition parseEventsJson (file : option jsstring)
    : parseError + list json :=
  match file with
  | None => inl EventsJsonNotFound
  | Some content =>
      let raw := trim content in
      let raw :=
        if negb (startsWith raw (js "["))
        then if startsWith raw (js "{") then js "[" ++ raw ++ js "]" else raw
        else raw in
      let data :=
        match JSON_parse raw with
        | Some d => Some d
        | None => JSON_parse (cleanup raw)
        end in
      match data with
      | None => inl FailedToParse
      | Some (JArr items) => inr items
      | Some _ => inl RootNotArray
      end
  end.

End ParseEventsJson.

(** [normalizeEventName]: the chain of [replace] calls, in source order. *)
Definition normalizeEventName (name : jsstring) : jsstring :=
  if falsy name then []
  else
    toLowerCase name
    |> replace_all (rx_class (N.eqb 124)) []
    |> replace_all (rx_plus isWhiteSpace) (js " ")
    |> replace_first (rx_seq (rx_plus isDigit)
                        (rx_seq (rx_lit_i (js "k")) rx_eoi)) []
    |> replace_first (rx_seq (rx_plus isDigit)
                        (rx_seq (rx_lit_i (js "km")) rx_eoi)) []
    |> replace_first (rx_seq (rx_lit_i (js "edition"))
                        (rx_seq (rx_star isWhiteSpace) (rx_plus isDigit))) []
    |> replace_first (rx_seq (rx_lit_i (js "season"))
                        (rx_seq (rx_star isWhiteSpace) (rx_plus isDigit))) []
    |> replace_all (rx_count 4 isDigit) (js "2025")
    |> replace_first (rx_seq (rx_lit_i (js "powered by"))
                        (rx_seq rx_dot_star rx_eoi)) []
    |> replace_first (rx_seq (rx_lit_i (js "sponsored by"))
                        (rx_seq rx_dot_star rx_eoi)) []
    |> trim.

(** *** Arrays

    [a[i] = v]: the element is overwritten when [i] is in range and the array
    grows by one when [i] is its length.  The script fills its arrays index
    by index, so no write lands further out (where JavaScript would leave
    holes; the model appends there too). *)
Fixpoint array_set (A : Type) (a : list A) (i : nat) (v : A) : list A :=
  match a, i with
  | [], _ => [v]
  | _ :: a', O => v :: a'
  | x :: a', S k => x :: array_set a' k v
  end.

Definition matrix : Type := list (list nat).

Definition matrix_get (m : matrix) (i j : nat) : nat :=
  nth j (nth i m []) 0.

Definition matrix_set (m : matrix) (i j v : nat) : matrix :=
  array_set m i (array_set (nth i m []) j v).

(** [s.charAt(i)]: out of range it is the empty string, here [None]. *)
Definition charAt (s : jsstring) (i : nat) : option N := nth_error s i.

Definition charAt_eqb (a b : option N) : bool :=
  match a, b with
  | Some x, Some y => (x =? y)%N
  | None, None => true
  | _, _ => false
  end.

(** [levenshteinDistance]: the three loops over the matrix. *)
Definition init_rows (len2 : nat) (m : matrix) : matrix :=
  fold_left (fun m i => array_set m i [i]) (seq 0 (S len2)) m.

Definition init_cols (len1 : nat) (m : matrix) : matrix :=
  fold_left (fun m j => matrix_set m 0 j j) (seq 0 (S len1)) m.

Definition fill_cell (str1 str2 : jsstring) (m : matrix) (i j : nat) : matrix :=
  if charAt_eqb (charAt str2 (i - 1)) (charAt str1 (j - 1))
  then matrix_set m i j (matrix_get m (i - 1) (j - 1))
  else matrix_set m i j
         (Nat.min (matrix_get m (i - 1) (j - 1) + 1)
            (Nat.min (matrix_get m i (j - 1) + 1)
                     (matrix_get m (i - 1) j + 1))).

Definition fill_row (str1 str2 : jsstring) (m : matrix) (i : nat) : matrix :=
  fold_left (fun m j => fill_cell str1 str2 m i j) (seq 1 (length str1)) m.

Definition fill (str1 str2 : jsstring) (m : matrix) : matrix :=
  fold_left (fill_row str1 str2) (seq 1 (length str2)) m.

Definition levenshteinDistance (str1 str2 : jsstring) : nat :=
  matrix_get
    (fill str1 str2 (init_cols (length str1) (init_rows (length str2) [])))
    (length str2) (length str1).

(** [calculateSimilarity].  Both arguments are strings at every call site,
    so [!str] holds of the empty string only. *)
Definition calculateSimilarity (str1 str2 : jsstring) : Q :=
  if falsy str1 || falsy str2 then 0%Q
  else
    let longer := if length str2 <? length str1 then str1 else str2 in
    let shorter := if length str2 <? length str1 then str2 else str1 in
    if length longer =? 0 then 1%Q
    else
      let editDistance := levenshteinDistance longer shorter in
      ((inject_Z (Z.of_nat (length longer) - Z.of_nat editDistance))
       / inject_Z (Z.of_nat (length longer)))%Q.


(** *** The catalog and the index of raw events

    A catalog record, as far as the script reads it: [name] is a string and
    [fbLink] is a string or absent ([null], [undefined]).  The index is the
    object [buildRawEventIndex] returns, given by its entries in the order
    [Object.entries] lists them; the keys are the ids of the raw files. *)
Record event : Type := mkEvent {
  name : jsstring;
  fbLink : option jsstring
}.

Record rawEvent : Type := mkRawEvent {
  eventId : jsstring;
  eventName : jsstring;
  normalizedName : jsstring
}.

Definition index : Type := list (jsstring * rawEvent).

(** [rawEventIndex[id]]. *)
Fixpoint index_get (rawEventIndex : index) (id : jsstring) : option rawEvent :=
  match rawEventIndex with
  | [] => None
  | (k, v) :: rest => if jseqb id k then Some v else index_get rest id
  end.

Record bestMatch : Type := mkMatch {
  matchEventId : jsstring;
  matchEventName : jsstring;
  matchSimilarity : Q
}.

(** [a > b] and [a >= b] on the similarity scores. *)
Definition Qgtb (a b : Q) : bool := negb (Qle_bool a b).
Definition Qgeb (a b : Q) : bool := Qle_bool b a.

(** One round of the loop of [findCorrectEventId], on the pair
    [(bestMatch, bestSimilarity)]. *)
Definition findStep (normalizedTarget : jsstring)
    (best : option bestMatch * Q) (entry : jsstring * rawEvent)
    : option bestMatch * Q :=
  let '(bestM, bestSimilarity) := best in
  let '(eventId, rawEvent) := entry in
  let similarity :=
    calculateSimilarity normalizedTarget (normalizedName rawEvent) in
  if Qgtb similarity bestSimilarity && Qgtb similarity (7 # 10)
  then (Some (mkMatch eventId (eventName rawEvent) similarity), similarity)
  else (bestM, bestSimilarity).

Definition findCorrectEventId (eventName : jsstring) (rawEventIndex : index)
    : option bestMatch :=
  let normalizedTarget := normalizeEventName eventName in
  fst (fold_left (findStep normalizedTarget) rawEventIndex (None, 0%Q)).

(** An entry of the fixes report. *)
Record fixEntry : Type := mkFix {
  fixEventIndex : nat;
  fixEventName : jsstring;
  oldEventId : jsstring;
  oldEventName : jsstring;
  newEventId : jsstring;
  newEventName : jsstring;
  fixSimilarity : Q;
  oldLink : jsstring;
  newLink : jsstring
}.

(** The lines the loop prints, by kind, with the values they interpolate. *)
Inductive logLine : Type :=
| LogNoLink (eventNo : nat) (name : jsstring)
| LogRawNotFound (eventNo : nat) (name id : jsstring)
| LogFixed (eventNo : nat) (name oldId oldName newId newName : jsstring)
    (similarity : Q)
| LogNoGoodMatch (eventNo : nat) (name id rawName : jsstring).

Record loopState : Type := mkState {
  fixedCount : nat;
  fixes : list fixEntry;
  console : list logLine
}.

Definition say (l : logLine) (st : loopState) : loopState :=
  mkState (fixedCount st) (fixes st) (console st ++ [l]).

(** [event.fbLink ? event.fbLink.match(/events\/(\d+)/)?.[1] : null]. *)
Definition currentEventIdOf (e : event) : option jsstring :=
  match fbLink e with
  | Some link =>
      if falsy link then None
      else match_group (rx_lit (js "events/")) (rx_plus isDigit) link
  | None => None
  end.

Definition linkOf (id : jsstring) : jsstring :=
  js "https://www.facebook.com/events/" ++ id.

(** The body of the loop of [fixFacebookLinks] for [events[i]]: the record
    as the round leaves it, and the counters, report and console after it. *)
Definition reconcile (rawEventIndex : index) (i : nat) (e : event)
    (st : loopState) : event * loopState :=
  match currentEventIdOf e with
  | None => (e, say (LogNoLink (i + 1) (name e)) st)
  | Some currentEventId =>
      if falsy currentEventId
      then (e, say (LogNoLink (i + 1) (name e)) st)
      else
        match index_get rawEventIndex currentEventId with
        | None =>
            (e, say (LogRawNotFound (i + 1) (name e) currentEventId) st)
        | Some currentRawEvent =>
            let currentSimilarity :=
              calculateSimilarity (normalizeEventName (name e))
                (normalizedName currentRawEvent) in
            if Qgeb currentSimilarity (7 # 10) then (e, st)
            else
              let noMatch :=
                (e, say (LogNoGoodMatch (i + 1) (name e) currentEventId
                           (eventName currentRawEvent)) st) in
              match findCorrectEventId (name e) rawEventIndex with
              | Some correctMatch =>
                  if negb (jseqb (matchEventId correctMatch) currentEventId)
                  then
                    let oldLink :=
                      match fbLink e with Some l => l | None => [] end in
                    let newLink := linkOf (matchEventId correctMatch) in
                    (mkEvent (name e) (Some newLink),
                     say (LogFixed (i + 1) (name e) currentEventId
                            (eventName currentRawEvent)
                            (matchEventId correctMatch)
                            (matchEventName correctMatch)
                            (matchSimilarity correctMatch))
                       (mkState (fixedCount st + 1)
                          (fixes st ++
                           [mkFix (i + 1) (name e) currentEventId
                              (eventName currentRawEvent)
                              (matchEventId correctMatch)
                              (matchEventName correctMatch)
                              (matchSimilarity correctMatch)
                              oldLink newLink])
                          (console st)))
                  else noMatch
              | None => noMatch
              end
        end
  end.

(** The loop [for (let i = 0; i < events.length; i++)], from index [i] on. *)
Fixpoint fixLoop (rawEventIndex : index) (i : nat) (events : list event)
    (st : loopState) : list event * loopState :=
  match events with
  | [] => ([], st)
  | e :: rest =>
      let '(e', st') := reconcile rawEventIndex i e st in
      let '(rest', st'') := fixLoop rawEventIndex (S i) rest st' in
      (e' :: rest', st'')
  end.

(** What a run leaves behind: the value returned, the catalog in memory, the
    console, and the two files written when something was fixed (the catalog
    and the fixes report; the backup is a copy of the old file). *)
Record runResult : Type := mkResult {
  resFixedCount : nat;
  resFixes : list fixEntry;
  resEvents : list event;
  resConsole : list logLine;
  writtenCatalog : option (list event);
  writtenReport : option (list fixEntry)
}.

(** [fixFacebookLinks], from the parsed catalog and the index on. *)
Definition fixFacebookLinks (events : list event) (rawEventIndex : index)
    : runResult :=
  let '(events', st) := fixLoop rawEventIndex 0 events (mkState 0 [] []) in
  if 0 <? fixedCount st
  then mkResult (fixedCount st) (fixes st) events' (console st)
         (Some events') (Some (fixes st))
  else mkResult (fixedCount st) (fixes st) events' (console st) None None.


End FixLinks.

(* ===================================================================== *)
(** ** The link-verification script *)
(* ===================================================================== *)

Module VerifyLinks.

(** [normalizeEventName] of the verification script. *)
Definition normalizeEventName (name : jsstring) : jsstring :=
  if falsy name then []
  else
    toLowerCase name
    |> replace_all (rx_class (N.eqb 124)) []
    |> replace_all (rx_plus isWhiteSpace) (js " ")
    |> replace_first (rx_seq (rx_plus isDigit)
                        (rx_seq (rx_lit_i (js "k")) rx_eoi)) []
    |> replace_first (rx_seq (rx_plus isDigit)
                        (rx_seq (rx_lit_i (js "km")) rx_eoi)) []
    |> replace_first (rx_seq (rx_lit_i (js "edition"))
                        (rx_seq (rx_star isWhiteSpace) (rx_plus isDigit))) []
    |> trim.

End VerifyLinks.

(* ===================================================================== *)
(** ** The consistency checker (check_events.js) *)
(* ===================================================================== *)

Module CheckEvents.

Import Json Catalog.

(** A [Set] of strings, in insertion order. *)
Definition set_has (s : list jsstring) (x : jsstring) : bool :=
  existsb (jseqb x) s.

Definition set_add (s : list jsstring) (x : jsstring) : list jsstring :=
  if set_has s x then s else s ++ [x].

(** A [Map] from strings to counts, in insertion order. *)
Fixpoint map_get (m : list (jsstring * nat)) (k : jsstring) : option nat :=
  match m with
  | [] => None
  | (k', v) :: rest => if jseqb k k' then Some v else map_get rest k
  end.

Fixpoint map_set (m : list (jsstring * nat)) (k : jsstring) (v : nat)
    : list (jsstring * nat) :=
  match m with
  | [] => [(k, v)]
  | (k', v') :: rest =>
      if jseqb k k' then (k', v) :: rest else (k', v') :: map_set rest k v
  end.

(** [f.match(/^(\d+)\.txt$/)]: the id of a raw file, from its name. *)
Definition rawFileId (f : jsstring) : option jsstring :=
  match rx_plus isDigit f with
  | Some rest =>
      match rx_seq (rx_lit (js ".txt")) rx_eoi rest with
      | Some _ => Some (firstn (length f - length rest) f)
      | None => None
      end
  | None => None
  end.

(** [readRawEventIds], from the listing of the directory; [None] when the
    directory does not exist. *)
Inductive checkError : Type :=
| RawEventsDirNotFound
| CatalogError (e : parseError).

Definition readRawEventIds (dir : option (list jsstring))
    : checkError + list jsstring :=
  match dir with
  | None => inl RawEventsDirNotFound
  | Some files =>
      inr (fold_left
             (fun ids f =>
                match rawFileId f with
                | Some id => set_add ids id
                | None => ids
                end)
             files [])
  end.

(** [parseEventsJson], the same text as in the link-fixing script. *)
Section ParseEventsJson.
Variable JSON_parse : jsstring -> option json.

Definition parseEventsJson (file : option jsstring)
    : parseError + list json :=
  match file with
  | None => inl EventsJsonNotFound
  | Some content =>
      let raw := trim content in
      let raw :=
        if negb (startsWith raw (js "["))
        then if startsWith raw (js "{") then js "[" ++ raw ++ js "]" else raw
        else raw in
      let data :=
        match JSON_parse raw with
        | Some d => Some d
        | None => JSON_parse (cleanup raw)
        end in
      match data with
      | None => inl FailedToParse
      | Some (JArr items) => inr items
      | Some _ => inl RootNotArray
      end
  end.

End ParseEventsJson.

(** [a || b] on property reads, [None] being [undefined] or [null]. *)
Definition orElse (a b : option json) : option json :=
  match a with
  | Some v => if truthy v then a else b
  | None => b
  end.

Definition isObject (v : json) : bool :=
  match v with
  | JArr _ | JObj _ => true
  | _ => false
  end.

(** [/facebook\.com\/events\/(\d+)/i], group 1. *)
Definition idOfLink (fbLink : jsstring) : option jsstring :=
  match_group (rx_lit_i (js "facebook.com/events/")) (rx_plus isDigit) fbLink.

(** The callback of [events.forEach] in [extractIdsFromEvents], on the pair
    [(allIds, occurrences)]. *)
Definition extractStep (acc : list jsstring * list (jsstring * nat))
    (evt : json) : list jsstring * list (jsstring * nat) :=
  let '(allIds, occurrences) := acc in
  if negb (truthy evt) || negb (isObject evt) then acc
  else
    let fbLink :=
      orElse (get evt (js "fbLink"))
        (orElse (get evt (js "fblink"))
           (orElse (get evt (js "fb_link"))
              (orElse (get evt (js "fb-link"))
                 (orElse (get evt (js "fb")) None)))) in
    match fbLink with
    | Some (JStr link) =>
        match idOfLink link with
        | Some id =>
            (allIds ++ [id],
             map_set occurrences id
               (match map_get occurrences id with
                | Some n => if n =? 0 then 0 else n
                | None => 0
                end + 1))
        | None => acc
        end
    | _ => acc
    end.

Definition extractIdsFromEvents (events : list json)
    : list jsstring * list (jsstring * nat) :=
  fold_left extractStep events ([], []).

(** [Array.prototype.sort]: a stable sort by the comparison given, here an
    insertion sort.  The default comparison and, on the digit strings the
    ids are, [localeCompare] order strings code unit by code unit. *)
Fixpoint jsleb (a b : jsstring) : bool :=
  match a, b with
  | [], _ => true
  | _ :: _, [] => false
  | x :: a', y :: b' =>
      if (x <? y)%N then true
      else if (y <? x)%N then false
      else jsleb a' b'
  end.

Fixpoint insert_by (A : Type) (leb : A -> A -> bool) (x : A) (l : list A)
    : list A :=
  match l with
  | [] => [x]
  | y :: l' => if leb x y then x :: l else y :: insert_by leb x l'
  end.

Definition sort_by (A : Type) (leb : A -> A -> bool) (l : list A) : list A :=
  fold_right (insert_by leb) [] l.

Record summary : Type := mkSummary {
  totalRawFiles : nat;
  totalEventEntriesScanned : nat;
  uniqueEventIdsInJson : nat;
  missingInEventsJsonCount : nat;
  missingRawFilesCount : nat;
  duplicateIdCount : nat;
  mismatch : bool
}.

Record report : Type := mkReport {
  reportSummary : summary;
  missingInEventsJson : list jsstring;
  missingRawFiles : list jsstring;
  duplicates : list (jsstring * nat)
}.

(** [analyze], once the directory is listed and the catalog is parsed. *)
Definition analyzeIds (rawIds : list jsstring) (events : list json) : report :=
  let '(eventIds, occurrences) := extractIdsFromEvents events in
  let eventIdSet := fold_left set_add eventIds [] in
  let missingInEventsJson :=
    filter (fun id => negb (set_has eventIdSet id)) rawIds in
  let missingRawFiles :=
    filter (fun id => negb (set_has rawIds id)) eventIdSet in
  let duplicates := filter (fun kv => 1 <? snd kv) occurrences in
  let missingInEventsJson := sort_by jsleb missingInEventsJson in
  let missingRawFiles := sort_by jsleb missingRawFiles in
  let duplicates := sort_by (fun a b => jsleb (fst a) (fst b)) duplicates in
  mkReport
    (mkSummary (length rawIds) (length eventIds) (length eventIdSet)
       (length missingInEventsJson) (length missingRawFiles)
       (length duplicates)
       ((0 <? length missingInEventsJson)
        || (0 <? length missingRawFiles)
        || (0 <? length duplicates)))
    missingInEventsJson missingRawFiles duplicates.

(** [analyze]: the directory, then the catalog, then the comparison. *)
Definition analyze (JSON_parse : jsstring -> option json)
    (dir : option (list jsstring)) (file : option jsstring)
    : checkError + report :=
  match readRawEventIds dir with
  | inl e => inl e
  | inr rawIds =>
      match parseEventsJson JSON_parse file with
      | inl e => inl (CatalogError e)
      | inr events => inr (analyzeIds rawIds events)
      end
  end.

End CheckEvents.

(* ===================================================================== *)
(** ** The edit distance, as the specification words it *)
(* ===================================================================== *)

Module EditDistance.

(** One edit: a single code unit inserted, deleted or substituted, anywhere
    in the string. *)
Inductive edit1 : jsstring -> jsstring -> Prop :=
| edit_insert l c r : edit1 (l ++ r) (l ++ c :: r)
| edit_delete l c r : edit1 (l ++ c :: r) (l ++ r)
| edit_subst l c c' r : edit1 (l ++ c :: r) (l ++ c' :: r).

(** [edits n a b]: [b] is reached from [a] in [n] single edits. *)
Inductive edits : nat -> jsstring -> jsstring -> Prop :=
| edits_O a : edits 0 a a
| edits_S n a b c : edit1 a b -> edits n b c -> edits (S n) a c.

(** The classic Levenshtein distance: the least number of single edits. *)
Definition edit_distance (a b : jsstring) (d : nat) : Prop :=
  edits d a b /\ forall n, edits n a b -> d <= n.

(** The textbook recurrence, on the strings read from the front. *)
Fixpoint lev (a b : jsstring) : nat :=
  match a with
  | [] => length b
  | x :: a' =>
      (fix lev_a (b : jsstring) : nat :=
         match b with
         | [] => length a
         | y :: b' =>
             if (x =? y)%N then lev a' b'
             else S (Nat.min (lev a' b') (Nat.min (lev_a b') (lev a' b)))
         end) b
  end.

End EditDistance.

Import FixLinks EditDistance.

(** The matrix of [levenshteinDistance] while it is filled: rows above [i]
    are complete, row [i] holds its first [j] cells, the rows below still
    hold the one cell the first loop gave them.  A cell is the distance of
    the two prefixes it stands for. *)
Module Table.
Section Table.
Variables str1 str2 : jsstring.

Definition prefix_distance (i j : nat) : nat :=
  lev (rev (firstn i str2)) (rev (firstn j str1)).

Definition full_row (i : nat) : list nat :=
  map (prefix_distance i) (seq 0 (S (length str1))).

Definition table (i j : nat) : matrix :=
  map full_row (seq 0 i)
  ++ map (prefix_distance i) (seq 0 j)
     :: map (fun k => [k]) (seq (S i) (length str2 - i)).

End Table.
End Table.

Import Table.

(** The vocabulary of the statements about the reconciler. *)
Module Reconciliation.

Section Search.
Variable target : jsstring.

(** The score of an entry of the index against the normalized target, and
    the match [findCorrectEventId] builds from the entry. *)
Definition score (entry : jsstring * rawEvent) : Q :=
  calculateSimilarity target (normalizedName (snd entry)).

Definition candidate (entry : jsstring * rawEvent) : bestMatch :=
  mkMatch (fst entry) (eventName (snd entry)) (score entry).

(** What the pair [(bestMatch, bestSimilarity)] holds after the entries [p]. *)
Definition search_inv (p : index) (st : option bestMatch * Q) : Prop :=
  match fst st with
  | None =>
      snd st = 0%Q /\ forall e, In e p -> ~ (7 # 10 < score e)%Q
  | Some m =>
      exists k e,
        nth_error p k = Some e /\ m = candidate e /\ snd st = score e /\
        (7 # 10 < score e)%Q /\
        (forall e', In e' p -> (score e' <= score e)%Q) /\
        (forall k' e', k' < k -> nth_error p k' = Some e' ->
                       (score e' < score e)%Q)
  end.

End Search.

(** The round leaves the record as it is and adds nothing to the report. *)
Definition untouched (rawEventIndex : index) (i : nat) (e : event)
    (st : loopState) : Prop :=
  fst (reconcile rawEventIndex i e st) = e /\
  fixes (snd (reconcile rawEventIndex i e st)) = fixes st /\
  fixedCount (snd (reconcile rawEventIndex i e st)) = fixedCount st.

(** The round makes the record point at [m] and reports the fix. *)
Definition correctedTo (rawEventIndex : index) (i : nat) (e : event)
    (st : loopState) (cid : jsstring) (raw : rawEvent) (m : bestMatch) : Prop :=
  fst (reconcile rawEventIndex i e st)
    = mkEvent (name e) (Some (linkOf (matchEventId m))) /\
  fixes (snd (reconcile rawEventIndex i e st))
    = fixes st ++
      [mkFix (i + 1) (name e) cid (eventName raw) (matchEventId m)
         (matchEventName m) (matchSimilarity m)
         (match fbLink e with Some l => l | None => [] end)
         (linkOf (matchEventId m))] /\
  fixedCount (snd (reconcile rawEventIndex i e st)) = fixedCount st + 1.

(** The current reference of the record resolves in the index and scores
    below the acceptance threshold, so that the search runs. *)
Definition searched (rawEventIndex : index) (e : event) (cid : jsstring)
    (raw : rawEvent) : Prop :=
  currentEventIdOf e = Some cid /\
  index_get rawEventIndex cid = Some raw /\
  (calculateSimilarity (normalizeEventName (name e)) (normalizedName raw)
   < 7 # 10)%Q.

(** The keys of the index are the ids of the raw files: non-empty digit
    strings, each the key of one entry. *)
Definition wf_index (rawEventIndex : index) : Prop :=
  NoDup (map fst rawEventIndex) /\
  forall k v, In (k, v) rawEventIndex -> k <> [] /\ forallb isDigit k = true.

End Reconciliation.

Import Reconciliation.

(** Small inputs for the examples. *)
Module Examples.

Definition link (id : string) : jsstring :=
  js "https://www.facebook.com/events/" ++ js id.

Definition raw (id title : string) : jsstring * rawEvent :=
  (js id, mkRawEvent (js id) (js title) (normalizeEventName (js title))).

(** A small corpus: two city runs. *)
Definition corpus : index :=
  [raw "111" "Dhaka Half Marathon 2025"; raw "222" "Chittagong City Run"].

Definition catalog : list event :=
  [mkEvent (js "Chittagong City Run 10K") (Some (link "111"));
   mkEvent (js "Unknown thing") (Some (link "111"));
   mkEvent (js "Not linked") None].

(** Two raw events whose names differ by one letter. *)
Definition twins : index :=
  [raw "1" "Dhaka City Runs"; raw "2" "Dhaka City Run"].

(** A raw event and a record whose names both normalize to the empty
    string. *)
Definition sponsors : index := [raw "123" "Powered by Foo Bar"].

End Examples.

Import Examples.

(** The vocabulary of the statements about the normalizers. *)
Module Names.

(** A decimal digit occurs in the string. *)
Definition hasDigit (s : jsstring) : bool := existsb isDigit s.


(** [m] is the literal [pat] up to letter case. *)
Definition lit_match (pat m : jsstring) : Prop :=
  Forall2 (fun c p => canonicalize c = canonicalize p) m pat.

(** The pattern [r] matches at no position of the string. *)
Definition unmatched (r : rx) (s : jsstring) : Prop :=
  forall k, r (skipn k s) = None.

(** White space is collapsed: every white-space character is a space, and
    no two of them are adjacent. *)
Fixpoint ws_normal (s : jsstring) : Prop :=
  match s with
  | [] => True
  | c :: s' =>
      (isWhiteSpace c = true ->
       c = 32%N /\ match s' with
                   | [] => True
                   | d :: _ => isWhiteSpace d = false
                   end)
      /\ ws_normal s'
  end.

(** A name in lower case, without pipes or digits, its white space
    collapsed. *)
Definition tidy (s : jsstring) : Prop :=
  Forall (fun c => lowerUnit c = c /\ (124 =? c)%N = false
                   /\ isDigit c = false) s
  /\ ws_normal s.

(** The string up to the first occurrence of the literal [pat]. *)
Fixpoint cut_at (pat s : jsstring) : jsstring :=
  match rx_lit_i pat s with
  | Some _ => []
  | None =>
      match s with
      | [] => []
      | c :: s' => c :: cut_at pat s'
      end
  end.

End Names.

Import Names.

(** The vocabulary of the statements about [parseEventsJson]. *)
Module CatalogSpec.

Import Json Catalog.

(** The text [parseEventsJson] hands to [JSON.parse] first: the content
    trimmed, and put between brackets when it starts with a brace. *)
Definition prepared (content : jsstring) : jsstring :=
  let raw := trim content in
  if negb (startsWith raw (js "["))
  then if startsWith raw (js "{") then js "[" ++ raw ++ js "]" else raw
  else raw.

(** What [parseEventsJson] makes of the outcome of parsing. *)
Definition asCatalog (data : option json) : parseError + list json :=
  match data with
  | None => inl FailedToParse
  | Some (JArr items) => inr items
  | Some _ => inl RootNotArray
  end.

Definition quoted (s : string) : jsstring := [34%N] ++ js s ++ [34%N].

(** A catalog of one record whose name holds a comma, a space and a closing
    bracket, and the same text with a trailing comma after the record. *)
Definition bracketName : jsstring :=
  js "[{" ++ quoted "name" ++ js ":" ++ quoted "a, ]" ++ js "}]".

Definition bracketNameTrailing : jsstring :=
  js "[{" ++ quoted "name" ++ js ":" ++ quoted "a, ]" ++ js "},]".

(** A single record after a byte-order-mark, with a trailing comma. *)
Definition bomObjectTrailing : jsstring :=
  [65279%N] ++ js "  {" ++ quoted "name" ++ js ": " ++ quoted "a" ++ js ",} ".

End CatalogSpec.

Import CatalogSpec.

(** The vocabulary of the statements about the consistency checker. *)
Module CheckSpec.

Import CheckEvents.

(** The map of occurrences counts the ids collected so far. *)
Definition counts_of (allIds : list jsstring)
    (occurrences : list (jsstring * nat)) : Prop :=
  NoDup (map fst occurrences) /\
  forall id, map_get occurrences id
             = match count_occ jsstring_eq_dec allIds id with
               | 0 => None
               | S n => Some (S n)
               end.

End CheckSpec.

Import CheckSpec.

(** Catalogs for the examples of the consistency checker. *)
Module CheckExamples.

Import Json Catalog.

(** The text of a catalog record with a name and a link. *)
Definition recordText (name link : string) : jsstring :=
  js "{" ++ quoted "name" ++ js ":" ++ quoted name ++ js ","
  ++ quoted "fbLink" ++ js ":" ++ quoted link ++ js "}".

Definition catalog123 : jsstring :=
  js "[" ++ recordText "one" "https://www.facebook.com/events/1"
  ++ js "," ++ recordText "two" "https://www.facebook.com/events/2"
  ++ js "," ++ recordText "three" "https://www.facebook.com/events/3"
  ++ js "]".

Definition catalog555 : jsstring :=
  js "[" ++ recordText "one" "https://www.facebook.com/events/555"
  ++ js "," ++ recordText "again" "https://www.facebook.com/events/555/"
  ++ js "]".

End CheckExamples.

Import CheckExamples.

(* ===================================================================== *)
(** * The rest of the scripts

    ** More of the standard library of JavaScript *)

Module StringOps.

Import JS.

(** [s.includes(pat)]. *)
Fixpoint includes (s pat : jsstring) : bool :=
  if startsWith s pat then true
  else match s with
       | [] => false
       | _ :: s' => includes s' pat
       end.

(** [s.split(sep)] for a separator of one code unit: the pieces between the
    separators, one more than there are separators. *)
Fixpoint split (sep : N) (s : jsstring) : list jsstring :=
  match s with
  | [] => [[]]
  | c :: s' =>
      if (c =? sep)%N then [] :: split sep s'
      else match split sep s' with
           | piece :: pieces => (c :: piece) :: pieces
           | [] => [[c]]
           end
  end.

(** [a.join(sep)]. *)
Fixpoint join (sep : jsstring) (a : list jsstring) : jsstring :=
  match a with
  | [] => []
  | [x] => x
  | x :: rest => x ++ sep ++ join sep rest
  end.

(** A count in a template literal: its decimal digits. *)
Definition decimal (n : nat) : jsstring :=
  js (NilZero.string_of_uint (Nat.to_uint n)).

(** [s.match(/r/)] as a condition: the pattern matches somewhere. *)
Fixpoint matches (r : rx) (s : jsstring) : bool :=
  match r s with
  | Some _ => true
  | None =>
      match s with
      | [] => false
      | _ :: s' => matches r s'
      end
  end.

(** [a?] and [(w1|w2|...)] under the i flag, for words none of which is a
    prefix of another. *)
Definition rx_opt (a : rx) : rx :=
  fun s => match a s with Some r => Some r | None => Some s end.

Fixpoint rx_words_i (words : list jsstring) : rx :=
  match words with
  | [] => fun _ => None
  | w :: rest =>
      fun s => match rx_lit_i w s with
               | Some r => Some r
               | None => rx_words_i rest s
               end
  end.

End StringOps.

(** ** The link-fixing script: from the directory to the index *)

Module FixIndex.

Import JS StringOps FixLinks.

(** An entry of [getAllRawEventFiles]; the path of the file is its name
    under the directory of raw events. *)
Record rawFile : Type := mkRawFile {
  fileEventId : jsstring;
  fileName : jsstring
}.

(** [getAllRawEventFiles], from the listing of the directory; [None] when
    [readdirSync] throws. *)
Definition getAllRawEventFiles (dir : option (list jsstring))
    : option (list rawFile) :=
  match dir with
  | None => None
  | Some files =>
      Some (fold_left
              (fun eventFiles file =>
                 match CheckEvents.rawFileId file with
                 | Some id => eventFiles ++ [mkRawFile id file]
                 | None => eventFiles
                 end)
              files [])
  end.

(** [line.match(/^\d+$/)]. *)
Definition allDigits (line : jsstring) : bool :=
  match rx_seq (rx_plus isDigit) rx_eoi line with
  | Some _ => true
  | None => false
  end.

(** The three conditions of the loop of [extractEventNameFromRaw]: the
    lines skipped, the lines that may be a title, and the lines that look
    like a location. *)
Definition isNavigation (line : jsstring) : bool :=
  includes line (js "Log in") || includes line (js "Forgotten account")
  || includes line (js "Events") || includes line (js "Home")
  || includes line (js "Categories") || jseqb line []
  || allDigits line
  || includes line (js "at ") && includes line (js "+06")
  || (length line <? 5).

Definition mayBeTitle (line : jsstring) : bool :=
  (10 <? length line) && (length line <? 200)
  && negb (includes line (js "facebook.com"))
  && negb (includes line (js "Privacy"))
  && negb (includes line (js "Terms"))
  && negb (includes line (js "Advertising"))
  && negb (includes line (js "people responded"))
  && negb (includes line (js "Event by"))
  && negb (includes line (js "Public"))
  && negb (includes line (js "Anyone on or off Facebook"))
  && negb (includes line (js "Invite"))
  && negb (includes line (js "Details"))
  && negb (includes line (js "Duration")).

Definition looksLikeLocation (nextLine : jsstring) : bool :=
  includes nextLine (js ",")
  || includes nextLine (js "Online event")
  || includes nextLine (js "Division")
  || includes nextLine (js "Bangladesh")
  || jseqb nextLine (js "Invite")
  || jseqb nextLine (js "Details").

(** The loop over the lines, from [lines[i]] on: [lines] holds the lines
    from index [i], so that [lines.slice(i + 1, i + 4)] is the first three
    lines of its tail. *)
Fixpoint scanLines (lines : list jsstring) : option jsstring :=
  match lines with
  | [] => None
  | l :: rest =>
      let line := trim l in
      if isNavigation line then scanLines rest
      else if mayBeTitle line
              && existsb looksLikeLocation (map trim (firstn 3 rest))
      then Some line
      else scanLines rest
  end.

Definition extractEventNameFromRaw (rawContent : jsstring)
    : option jsstring :=
  if falsy rawContent then None
  else if includes rawContent (js "You must log in to continue")
          || includes rawContent (js "Log in to Facebook")
  then None
  else scanLines (split 10 rawContent).

(** The object [index] while it is built: its properties in the order of
    their creation.  [obj_set] is [index[k] = v]. *)
Fixpoint obj_set (o : index) (k : jsstring) (v : rawEvent) : index :=
  match o with
  | [] => [(k, v)]
  | (k', v') :: rest =>
      if jseqb k k' then (k', v) :: rest else (k', v') :: obj_set rest k v
  end.

(** The order of [Object.entries]: the keys that are array indices (the
    canonical decimal numerals below 2^32 - 1) in ascending numeric order,
    then the other keys in the order of their creation. *)
Definition numericValue (k : jsstring) : N :=
  fold_left (fun acc c => (acc * 10 + (c - 48))%N) k 0%N.

Definition isArrayIndex (k : jsstring) : bool :=
  match k with
  | [] => false
  | c :: rest =>
      forallb isDigit k && (negb (c =? 48)%N || falsy rest)
      && (numericValue k <? 4294967295)%N
  end.

Definition ownEntries (o : index) : index :=
  CheckEvents.sort_by
    (fun a b => (numericValue (fst a) <=? numericValue (fst b))%N)
    (filter (fun kv => isArrayIndex (fst kv)) o)
  ++ filter (fun kv => negb (isArrayIndex (fst kv))) o.

(** The lines [buildRawEventIndex] prints, by kind. *)
Inductive indexLine : Type :=
| LogIndexed (id name : jsstring)
| LogNoName (id : jsstring)
| LogReadError (id : jsstring).

Section BuildRawEventIndex.

(** [fs.readFileSync] on a file of the directory, by its name; [None] when
    it throws. *)
Variable readFileSync : jsstring -> option jsstring.

(** The body of the loop of [buildRawEventIndex]. *)
Definition indexStep (acc : index * list indexLine) (rawFile : rawFile)
    : index * list indexLine :=
  let '(index, console) := acc in
  match readFileSync (fileName rawFile) with
  | Some content =>
      match extractEventNameFromRaw content with
      | Some eventName =>
          if falsy eventName
          then (index, console ++ [LogNoName (fileEventId rawFile)])
          else
            (obj_set index (fileEventId rawFile)
               (mkRawEvent (fileEventId rawFile) eventName
                  (normalizeEventName eventName)),
             console ++ [LogIndexed (fileEventId rawFile) eventName])
      | None => (index, console ++ [LogNoName (fileEventId rawFile)])
      end
  | None => (index, console ++ [LogReadError (fileEventId rawFile)])
  end.

(** [buildRawEventIndex]: the index as [Object.entries] lists it, and the
    console. *)
Definition buildRawEventIndex (dir : option (list jsstring))
    : option (index * list indexLine) :=
  match getAllRawEventFiles dir with
  | None => None
  | Some rawFiles =>
      let '(index, console) := fold_left indexStep rawFiles ([], []) in
      Some (ownEntries index, console)
  end.

End BuildRawEventIndex.

End FixIndex.

(** ** The consistency check: the report and the exit code *)

Module CheckReport.

Import JS StringOps CheckEvents.

(** The three signs of the report: U+2705, U+274C, and U+26A0 with the
    variation selector U+FE0F. *)
Definition okSign : jsstring := [9989%N].
Definition failSign : jsstring := [10060%N].
Definition warnSign : jsstring := [9888%N; 65039%N].

Definition formatHuman (result : report) : jsstring :=
  let summary := reportSummary result in
  let lines :=
    [js "Event ID Consistency Report";
     js "===========================";
     js "Raw event files (unique IDs):      "
       ++ decimal (totalRawFiles summary);
     js "Events.json fbLink references:     "
       ++ decimal (totalEventEntriesScanned summary);
     js "Unique fbLink IDs in events.json:  "
       ++ decimal (uniqueEventIdsInJson summary);
     []] in
  let lines :=
    if length (missingInEventsJson result) =? 0
    then lines
         ++ [okSign ++ js " All raw_events IDs are present in events.json."]
    else lines
         ++ [failSign
             ++ js " Raw event files not represented in events.json:";
             js "   " ++ join (js ", ") (missingInEventsJson result)] in
  let lines :=
    if length (missingRawFiles result) =? 0
    then lines
         ++ [okSign
             ++ js " All events.json IDs have corresponding raw .txt files."]
    else lines
         ++ [[];
             failSign ++ js " IDs in events.json missing raw .txt files:";
             js "   " ++ join (js ", ") (missingRawFiles result)] in
  let lines :=
    if length (duplicates result) =? 0
    then lines
         ++ [[]; okSign ++ js " No duplicate fbLink IDs in events.json."]
    else lines
         ++ [[]; warnSign ++ js " Duplicate fbLink IDs (ID -> count):"]
         ++ map (fun d => js "   " ++ fst d ++ js " -> " ++ decimal (snd d)
                          ++ js " occurrences")
              (duplicates result) in
  let lines :=
    lines
    ++ [[];
        if mismatch summary then js "RESULT: INCONSISTENCIES FOUND"
        else js "RESULT: OK"] in
  join [10%N] lines.

(** What [main] prints: the report on the standard output, or the error on
    the standard error, as JSON or after [Fatal error:]. *)
Inductive printed : Type :=
| Stdout (text : jsstring)
| StderrJson (err : checkError)
| StderrFatal (err : checkError).

Section Main.

Variable JSON_parse : jsstring -> option Json.json.
(** [JSON.stringify(res, null, 2)]. *)
Variable JSON_stringify : report -> jsstring.

(** [main]: what is printed and the exit code, from the arguments of the
    command line, the listing of the directory and the catalog file. *)
Definition main (argv : list jsstring) (dir : option (list jsstring))
    (file : option jsstring) : printed * nat :=
  let jsonOutput := existsb (jseqb (js "--json")) argv in
  match analyze JSON_parse dir file with
  | inr res =>
      (Stdout (if jsonOutput then JSON_stringify res else formatHuman res),
       if mismatch (reportSummary res) then 1 else 0)
  | inl err =>
      (if jsonOutput then StderrJson err else StderrFatal err, 1)
  end.

End Main.

End CheckReport.

(** ** The link-verification script *)

Module VerifyRun.

Import JS StringOps.

(** A record of the catalog, as far as the script reads it. *)
Record catalogEvent : Type := mkCatalogEvent {
  name : jsstring;
  fbLink : option jsstring;
  date : option jsstring
}.

Definition extractEventIdFromFbLink (fbLink : option jsstring)
    : option jsstring :=
  match fbLink with
  | None => None
  | Some link => if falsy link then None else CheckEvents.idOfLink link
  end.

(** The conditions of the loop of [extractEventNameFromRaw], which differ
    from those of the link-fixing script: short lines are not skipped,
    fewer phrases are denied, and only the next line is looked at. *)
Definition isNavigation (line : jsstring) : bool :=
  includes line (js "Log in") || includes line (js "Forgotten account")
  || includes line (js "Events") || includes line (js "Home")
  || includes line (js "Categories") || jseqb line []
  || FixIndex.allDigits line
  || includes line (js "at ") && includes line (js "+06").

Definition mayBeTitle (line : jsstring) : bool :=
  (10 <? length line) && (length line <? 200)
  && negb (includes line (js "facebook.com"))
  && negb (includes line (js "Privacy"))
  && negb (includes line (js "Terms"))
  && negb (includes line (js "Advertising"))
  && negb (includes line (js "people responded"))
  && negb (includes line (js "Event by"))
  && negb (includes line (js "Public"))
  && negb (includes line (js "Anyone on or off Facebook")).

Definition looksLikeLocation (nextLine : jsstring) : bool :=
  includes nextLine (js ",") || includes nextLine (js "Online event")
  || jseqb nextLine (js "Invite") || jseqb nextLine (js "Details")
  || includes nextLine (js "Division") || includes nextLine (js "Bangladesh").

Fixpoint scanLines (lines : list jsstring) : option jsstring :=
  match lines with
  | [] => None
  | l :: rest =>
      let line := trim l in
      if isNavigation line then scanLines rest
      else
        let nextLine :=
          match rest with
          | next :: _ => trim next
          | [] => []
          end in
        if mayBeTitle line && looksLikeLocation nextLine then Some line
        else scanLines rest
  end.

Definition extractEventNameFromRaw (rawContent : jsstring)
    : option jsstring :=
  if falsy rawContent then None else scanLines (split 10 rawContent).

(** The two date patterns,
    [/\d{1,2}\s+(Jan|...|Dec)\s+\d{4}/i] and
    [/(Monday|...|Sunday)\s+\d{1,2}\s+(January|...|December)\s+\d{4}/i]. *)
Definition dayOfMonth : rx :=
  rx_seq (rx_class isDigit) (rx_opt (rx_class isDigit)).

Definition shortDate : rx :=
  rx_seq dayOfMonth
    (rx_seq (rx_plus isWhiteSpace)
       (rx_seq (rx_words_i
                  (map js ["Jan"; "Feb"; "Mar"; "Apr"; "May"; "Jun"; "Jul";
                           "Aug"; "Sep"; "Oct"; "Nov"; "Dec"]%string))
          (rx_seq (rx_plus isWhiteSpace) (rx_count 4 isDigit)))).

Definition longDate : rx :=
  rx_seq (rx_words_i
            (map js ["Monday"; "Tuesday"; "Wednesday"; "Thursday"; "Friday";
                     "Saturday"; "Sunday"]%string))
    (rx_seq (rx_plus isWhiteSpace)
       (rx_seq dayOfMonth
          (rx_seq (rx_plus isWhiteSpace)
             (rx_seq (rx_words_i
                        (map js ["January"; "February"; "March"; "April";
                                 "May"; "June"; "July"; "August";
                                 "September"; "October"; "November";
                                 "December"]%string))
                (rx_seq (rx_plus isWhiteSpace) (rx_count 4 isDigit)))))).

Definition extractEventDateFromRaw (rawContent : jsstring)
    : option jsstring :=
  if falsy rawContent then None
  else
    match find (fun line => matches shortDate line || matches longDate line)
               (split 10 rawContent) with
    | Some line => Some (trim line)
    | None => None
    end.

(** The entries of the three lists of [verifyFacebookLinks]. *)
Record errorEntry : Type := mkError {
  errIndex : nat;
  errEvent : jsstring;
  issue : jsstring;
  errEventId : option jsstring;
  errFbLink : option jsstring
}.

Record mismatchEntry : Type := mkMismatch {
  misIndex : nat;
  jsonEvent : jsstring;
  rawEvent : jsstring;
  jsonDate : option jsstring;
  rawDate : option jsstring;
  misEventId : jsstring;
  misSimilarity : jsstring
}.

Record matchEntry : Type := mkMatched {
  matIndex : nat;
  matEvent : jsstring;
  matEventId : jsstring;
  matSimilarity : jsstring
}.

Record verification : Type := mkVerification {
  mismatches : list mismatchEntry;
  matches : list matchEntry;
  errors : list errorEntry
}.

Section Verify.

(** The raw file [<eventId>.txt], by its name; [None] when it does not
    exist. *)
Variable rawFiles : jsstring -> option jsstring.
(** [similarity.toFixed(2)]. *)
Variable toFixed2 : Q -> jsstring.

Definition readRawEventFile (eventId : jsstring) : option jsstring :=
  rawFiles (eventId ++ js ".txt").

(** The body of the loop of [verifyFacebookLinks] for [events[i]]. *)
Definition verifyStep (i : nat) (event : catalogEvent) (acc : verification)
    : verification :=
  let error issue eventId fbLink :=
    mkVerification (mismatches acc) (matches acc)
      (errors acc ++ [mkError i (name event) (js issue) eventId fbLink]) in
  match extractEventIdFromFbLink (fbLink event) with
  | None => error "Invalid or missing Facebook link"%string None (fbLink event)
  | Some eventId =>
      if falsy eventId
      then error "Invalid or missing Facebook link"%string None (fbLink event)
      else
        match readRawEventFile eventId with
        | None => error "Raw event file not found"%string (Some eventId) None
        | Some rawContent =>
            if falsy rawContent
            then error "Raw event file not found"%string (Some eventId) None
            else if includes rawContent (js "You must log in to continue")
                    || includes rawContent (js "Log in to Facebook")
            then error
                   "Facebook event requires login (private or deleted)"%string
                   (Some eventId) None
            else
              let rawEventDate := extractEventDateFromRaw rawContent in
              match extractEventNameFromRaw rawContent with
              | None =>
                  error
                    "Could not extract event name from raw content"%string
                    (Some eventId) None
              | Some rawEventName =>
                  if falsy rawEventName
                  then error
                         "Could not extract event name from raw content"%string
                         (Some eventId) None
                  else
                    let normalizedJsonName :=
                      VerifyLinks.normalizeEventName (name event) in
                    let normalizedRawName :=
                      VerifyLinks.normalizeEventName rawEventName in
                    let similarity :=
                      FixLinks.calculateSimilarity normalizedJsonName
                        normalizedRawName in
                    if FixLinks.Qgtb (6 # 10) similarity
                    then
                      mkVerification
                        (mismatches acc
                         ++ [mkMismatch i (name event) rawEventName
                               (date event) rawEventDate eventId
                               (toFixed2 similarity)])
                        (matches acc) (errors acc)
                    else
                      mkVerification (mismatches acc)
                        (matches acc
                         ++ [mkMatched i (name event) eventId
                               (toFixed2 similarity)])
                        (errors acc)
              end
        end
  end.

(** The loop, from index [i] on. *)
Fixpoint verifyLoop (i : nat) (events : list catalogEvent)
    (acc : verification) : verification :=
  match events with
  | [] => acc
  | event :: rest => verifyLoop (S i) rest (verifyStep i event acc)
  end.

(** [verifyFacebookLinks], from the parsed catalog on. *)
Definition verifyFacebookLinks (events : list catalogEvent) : verification :=
  verifyLoop 0 events (mkVerification [] [] []).

End Verify.

End VerifyRun.

(** ** What the further properties speak of *)

Module RunSpec.

Import JS FixLinks.

(** What the report says of a correction, against the catalog and the
    index the run started from and the catalog it left. *)
Definition justified (idx : index) (events events' : list event)
    (f : fixEntry) : Prop :=
  exists e old new,
    1 <= fixEventIndex f /\
    nth_error events (fixEventIndex f - 1) = Some e /\
    fixEventName f = name e /\
    fbLink e = Some (oldLink f) /\
    currentEventIdOf e = Some (oldEventId f) /\
    index_get idx (oldEventId f) = Some old /\
    oldEventName f = eventName old /\
    (calculateSimilarity (normalizeEventName (name e)) (normalizedName old)
     < 7 # 10)%Q /\
    In (newEventId f, new) idx /\
    newEventName f = eventName new /\
    fixSimilarity f
      = calculateSimilarity (normalizeEventName (name e)) (normalizedName new) /\
    (7 # 10 < fixSimilarity f)%Q /\
    newEventId f <> oldEventId f /\
    newLink f = linkOf (newEventId f) /\
    nth_error events' (fixEventIndex f - 1)
      = Some (mkEvent (name e) (Some (newLink f))).

End RunSpec.

Module ReportSpec.

Import JS CheckEvents.


End ReportSpec.

Module Titles.

Import JS StringOps FixLinks FixIndex.

(** The phrases a line returned by [extractEventNameFromRaw] never
    holds. *)
Definition denied : list jsstring :=
  map js ["Log in"; "Forgotten account"; "Events"; "Home"; "Categories";
          "facebook.com"; "Privacy"; "Terms"; "Advertising";
          "people responded"; "Event by"; "Public";
          "Anyone on or off Facebook"; "Invite"; "Details"; "Duration"]%string.

(** The line [lines[i]] is taken for the title: it is not skipped, may be
    a title, and one of the three lines after it looks like a location. *)
Definition titleAt (lines : list jsstring) (i : nat) : bool :=
  match nth_error lines i with
  | Some l =>
      negb (isNavigation (trim l)) && mayBeTitle (trim l)
      && existsb looksLikeLocation
           (map trim (firstn 3 (skipn (S i) lines)))
  | None => false
  end.

(** What the index holds for the id [id], given the files: the title
    extracted from the file [id.txt], if it can be read and has one. *)
Definition entryOf (readFileSync : jsstring -> option jsstring)
    (id : jsstring) : option rawEvent :=
  match readFileSync (id ++ js ".txt") with
  | Some content =>
      match extractEventNameFromRaw content with
      | Some eventName =>
          Some (mkRawEvent id eventName (normalizeEventName eventName))
      | None => None
      end
  | None => None
  end.

End Titles.

Module DiskExamples.

Import JS StringOps FixLinks FixIndex Examples.

(** A raw page: a date line, the title, a location. *)
Definition page (title location : string) : jsstring :=
  js "Saturday 20 December 2025 at 06:00 UTC+06" ++ [10%N]
  ++ js title ++ [10%N] ++ js location.

Definition listing : list jsstring :=
  [js "222.txt"; js "notes.md"; js "111.txt"; js "333.txt"].

(** The files of the directory: two pages, and a login wall. *)
Definition disk (fileName : jsstring) : option jsstring :=
  if jseqb fileName (js "111.txt")
  then Some (page "Dhaka Half Marathon 2025" "Hatirjheel, Dhaka")
  else if jseqb fileName (js "222.txt")
  then Some (page "Chittagong City Run" "Chittagong, Bangladesh")
  else if jseqb fileName (js "333.txt")
  then Some (js "Log in to Facebook")
  else None.

Definition diskConsole : list indexLine :=
  [LogIndexed (js "222") (js "Chittagong City Run");
   LogIndexed (js "111") (js "Dhaka Half Marathon 2025");
   LogNoName (js "333")].

End DiskExamples.

Module VerifySpec.

Import JS StringOps VerifyRun.

Section Verdicts.
Variable rawFiles : jsstring -> option jsstring.

(** The record resolves to a raw page with a title: its link holds an id,
    the file of that id exists and is not empty, shows no login wall, and a
    title is extracted from it. *)
Definition resolves (e : catalogEvent) (id rawName : jsstring) : Prop :=
  extractEventIdFromFbLink (fbLink e) = Some id /\
  exists content,
    rawFiles (id ++ js ".txt") = Some content /\ content <> [] /\
    includes content (js "You must log in to continue") = false /\
    includes content (js "Log in to Facebook") = false /\
    extractEventNameFromRaw content = Some rawName.

(** The score of the record against that title. *)
Definition scoreOf (e : catalogEvent) (rawName : jsstring) : Q :=
  FixLinks.calculateSimilarity (VerifyLinks.normalizeEventName (name e))
    (VerifyLinks.normalizeEventName rawName).

(** The three verdicts of a record: its title scores at least 0.6, scores
    less, or there is no title to compare with. *)
Definition matching (e : catalogEvent) : Prop :=
  exists id rawName,
    resolves e id rawName /\ (6 # 10 <= scoreOf e rawName)%Q.
Definition mismatching (e : catalogEvent) : Prop :=
  exists id rawName,
    resolves e id rawName /\ (scoreOf e rawName < 6 # 10)%Q.
Definition unresolved (e : catalogEvent) : Prop :=
  forall id rawName, ~ resolves e id rawName.

End Verdicts.

End VerifySpec.

Module Shape.

Import JS.

(** A code unit a normalized name may hold: not an upper-case letter that
    [toLowerCase] would change, not a pipe, and no white space but the
    space. *)
Definition plain (c : N) : Prop :=
  lowerUnit c = c /\ (124 =? c)%N = false /\
  (isWhiteSpace c = true -> c = 32%N).

End Shape.

Module Steps.

Import JS.

(** The patterns of the digit-driven steps of [normalizeEventName]:
    [/\d+k$/i], [/\d+km$/i], [/edition\s*\d+/i], [/season\s*\d+/i] and
    [/\d{4}/]. *)
Definition kSuffix : rx :=
  rx_seq (rx_plus isDigit) (rx_seq (rx_lit_i (js "k")) rx_eoi).
Definition kmSuffix : rx :=
  rx_seq (rx_plus isDigit) (rx_seq (rx_lit_i (js "km")) rx_eoi).
Definition editionNumber : rx :=
  rx_seq (rx_lit_i (js "edition"))
    (rx_seq (rx_star isWhiteSpace) (rx_plus isDigit)).
Definition seasonNumber : rx :=
  rx_seq (rx_lit_i (js "season"))
    (rx_seq (rx_star isWhiteSpace) (rx_plus isDigit)).
Definition fourDigits : rx := rx_count 4 isDigit.

(** Every group of four digits the year step would replace already reads
    2025: read from the left, the string is made of such groups and of
    characters at which no four digits start. *)
Inductive years2025 : jsstring -> Prop :=
| years_nil : years2025 []
| years_group s : years2025 s -> years2025 (js "2025" ++ s)
| years_other c s :
    fourDigits (c :: s) = None -> years2025 s -> years2025 (c :: s).

(** The steps of the two normalizers after [toLowerCase], on what it
    returned. *)
Definition fixSteps (lowered : jsstring) : jsstring :=
  lowered
  |> replace_all (rx_class (N.eqb 124)) []
  |> replace_all (rx_plus isWhiteSpace) (js " ")
  |> replace_first kSuffix []
  |> replace_first kmSuffix []
  |> replace_first editionNumber []
  |> replace_first seasonNumber []
  |> replace_all fourDigits (js "2025")
  |> replace_first (rx_seq (rx_lit_i (js "powered by"))
                      (rx_seq rx_dot_star rx_eoi)) []
  |> replace_first (rx_seq (rx_lit_i (js "sponsored by"))
                      (rx_seq rx_dot_star rx_eoi)) []
  |> trim.

Definition verifySteps (lowered : jsstring) : jsstring :=
  lowered
  |> replace_all (rx_class (N.eqb 124)) []
  |> replace_all (rx_plus isWhiteSpace) (js " ")
  |> replace_first kSuffix []
  |> replace_first kmSuffix []
  |> replace_first editionNumber []
  |> trim.

(** What a name keeps of the first two steps, whatever [toLowerCase]
    returned: no pipe, and no white space but the space. *)
Definition piped_out (c : N) : Prop :=
  (124 =? c)%N = false /\ (isWhiteSpace c = true -> c = 32%N).

End Steps.

(* ===================================================================== *)
(** * Properties *)
(* ===================================================================== *)

(** ** The recurrence computes the edit distance *)

Lemma lev_nil_r a : lev a [] = length a.
Proof. destruct a; reflexivity. Qed.

Lemma lev_cons_cons x a y b :
  lev (x :: a) (y :: b) =
  if (x =? y)%N then lev a b
  else S (Nat.min (lev a b) (Nat.min (lev (x :: a) b) (lev a (y :: b)))).
Proof. reflexivity. Qed.

Lemma lev_refl a : lev a a = 0.
Proof.
  induction a as [|x a IH]; [reflexivity|].
  rewrite lev_cons_cons, N.eqb_refl. exact IH.
Qed.

(** The four one-character bounds, by induction on the total length. *)
Lemma lev_lipschitz n :
  forall a b, length a + length b <= n ->
    (forall x, lev (x :: a) b <= S (lev a b)) /\
    (forall y, lev a (y :: b) <= S (lev a b)) /\
    (forall x, lev a b <= S (lev (x :: a) b)) /\
    (forall y, lev a b <= S (lev a (y :: b))).
Proof.
  induction n as [|n IH]; intros a b Hlen.
  - destruct a, b; simpl in Hlen; try lia.
    repeat split; intros; simpl; lia.
  - assert (U1 : forall x, lev (x :: a) b <= S (lev a b)).
    { intros x. destruct b as [|y b'].
      - rewrite !lev_nil_r. simpl. lia.
      - rewrite lev_cons_cons. destruct (x =? y)%N.
        + apply (IH a b'). simpl in Hlen. lia.
        + lia. }
    assert (U2 : forall y, lev a (y :: b) <= S (lev a b)).
    { intros y. destruct a as [|x a'].
      - simpl. lia.
      - rewrite lev_cons_cons. destruct (x =? y)%N.
        + apply (IH a' b). simpl in Hlen. lia.
        + lia. }
    assert (L1 : forall x, lev a b <= S (lev (x :: a) b)).
    { intros x. destruct b as [|y b'].
      - rewrite !lev_nil_r. simpl. lia.
      - assert (Hs : length a + length b' <= n) by (simpl in Hlen; lia).
        destruct (IH a b' Hs) as (_ & I2 & I3 & _).
        rewrite (lev_cons_cons x a y b'). destruct (x =? y)%N.
        + apply I2.
        + specialize (I2 y). specialize (I3 x). lia. }
    assert (L2 : forall y, lev a b <= S (lev a (y :: b))).
    { intros y. destruct a as [|x a'].
      - simpl. lia.
      - assert (Hs : length a' + length b <= n) by (simpl in Hlen; lia).
        destruct (IH a' b Hs) as (I1 & _ & _ & I4).
        rewrite (lev_cons_cons x a' y b). destruct (x =? y)%N.
        + apply I1.
        + specialize (I1 x). specialize (I4 y). lia. }
    auto.
Qed.

Lemma lev_cons_l_le x a b : lev (x :: a) b <= S (lev a b).
Proof. apply (@lev_lipschitz (length a + length b) a b (le_n _)). Qed.
Lemma lev_cons_r_le y a b : lev a (y :: b) <= S (lev a b).
Proof. apply (@lev_lipschitz (length a + length b) a b (le_n _)). Qed.
Lemma lev_le_cons_l x a b : lev a b <= S (lev (x :: a) b).
Proof. apply (@lev_lipschitz (length a + length b) a b (le_n _)). Qed.
Lemma lev_le_cons_r y a b : lev a b <= S (lev a (y :: b)).
Proof. apply (@lev_lipschitz (length a + length b) a b (le_n _)). Qed.

Lemma lev_subst_head c c' r b : lev (c :: r) b <= S (lev (c' :: r) b).
Proof.
  destruct b as [|y b]; [rewrite !lev_nil_r; simpl; lia|].
  assert (H1 : lev (c :: r) (y :: b) <= S (lev r b)).
  { rewrite lev_cons_cons. destruct (c =? y)%N; lia. }
  assert (H2 : lev r b <= lev (c' :: r) (y :: b)).
  { rewrite lev_cons_cons. destruct (c' =? y)%N; [lia|].
    pose proof (lev_le_cons_l c' r b). pose proof (lev_le_cons_r y r b). lia. }
  lia.
Qed.

Lemma lev_cons_congr x a a1 :
  (forall b, lev a b <= S (lev a1 b)) ->
  forall b, lev (x :: a) b <= S (lev (x :: a1) b).
Proof.
  intros H b. induction b as [|y b IHb].
  - rewrite !lev_nil_r. specialize (H []). rewrite !lev_nil_r in H. simpl. lia.
  - rewrite !lev_cons_cons. destruct (x =? y)%N.
    + apply H.
    + pose proof (H b). pose proof (H (y :: b)). lia.
Qed.

Lemma lev_edit1 a a1 : edit1 a a1 -> forall b, lev a b <= S (lev a1 b).
Proof.
  intros H. destruct H as [l c r|l c r|l c c' r];
    induction l as [|x l IH]; simpl;
    try (apply lev_cons_congr; exact IH); intros b.
  - apply lev_le_cons_l.
  - apply lev_cons_l_le.
  - apply lev_subst_head.
Qed.

Lemma lev_lower_bound n a b : edits n a b -> lev a b <= n.
Proof.
  induction 1 as [a|n a b c H1 _ IH].
  - rewrite lev_refl. lia.
  - pose proof (lev_edit1 H1 c). lia.
Qed.

Lemma edit1_cons x a b : edit1 a b -> edit1 (x :: a) (x :: b).
Proof.
  intros [l c r|l c r|l c c' r].
  - apply (edit_insert (x :: l)).
  - apply (edit_delete (x :: l)).
  - apply (edit_subst (x :: l)).
Qed.

Lemma edits_cons x n a b : edits n a b -> edits n (x :: a) (x :: b).
Proof.
  induction 1; econstructor; eauto using edit1_cons.
Qed.

Lemma edits_insert_all b : edits (length b) [] b.
Proof.
  induction b as [|y b IH]; [constructor|].
  simpl. apply edits_S with (b := [y]).
  - apply (edit_insert [] y []).
  - apply edits_cons, IH.
Qed.

Lemma edits_delete_all a : edits (length a) a [].
Proof.
  induction a as [|x a IH]; [constructor|].
  simpl. apply edits_S with (b := a); [apply (edit_delete [] x a)|exact IH].
Qed.

Lemma lev_reached a : forall b, edits (lev a b) a b.
Proof.
  induction a as [|x a IHa]; intros b.
  - apply edits_insert_all.
  - induction b as [|y b IHb].
    + rewrite lev_nil_r. apply edits_delete_all.
    + rewrite lev_cons_cons. destruct (x =? y)%N eqn:E.
      * apply N.eqb_eq in E. subst y. apply edits_cons, IHa.
      * destruct (Nat.min_spec (lev a b) (Nat.min (lev (x :: a) b) (lev a (y :: b))))
          as [[_ ->]|[_ ->]].
        -- apply edits_S with (b := y :: a).
           ++ apply (edit_subst [] x y a).
           ++ apply edits_cons, IHa.
        -- destruct (Nat.min_spec (lev (x :: a) b) (lev a (y :: b)))
             as [[_ ->]|[_ ->]].
           ++ apply edits_S with (b := y :: x :: a).
              ** apply (edit_insert [] y (x :: a)).
              ** apply edits_cons, IHb.
           ++ apply edits_S with (b := a).
              ** apply (edit_delete [] x a).
              ** apply IHa.
Qed.

Lemma lev_edit_distance a b : edit_distance a b (lev a b).
Proof. split; [apply lev_reached|intros n; apply lev_lower_bound]. Qed.

Lemma edit1_sym a b : edit1 a b -> edit1 b a.
Proof. intros [l c r|l c r|l c c' r]; constructor. Qed.

Lemma edit1_rev a b : edit1 a b -> edit1 (rev a) (rev b).
Proof.
  intros [l c r|l c r|l c c' r]; rewrite !rev_app_distr; simpl;
    rewrite <- !app_assoc; simpl; constructor.
Qed.

Lemma edits_snoc n a b c : edits n a b -> edit1 b c -> edits (S n) a c.
Proof.
  induction 1 as [a|n a b' b H1 _ IH]; intros Hc.
  - econstructor; [exact Hc|constructor].
  - econstructor; [exact H1|apply IH, Hc].
Qed.

Lemma edits_sym n a b : edits n a b -> edits n b a.
Proof.
  induction 1 as [a|n a b c H1 _ IH]; [constructor|].
  eapply edits_snoc; [exact IH|apply edit1_sym, H1].
Qed.

Lemma edits_rev n a b : edits n a b -> edits n (rev a) (rev b).
Proof. induction 1; econstructor; eauto using edit1_rev. Qed.

Lemma edit_distance_rev_sym a b d :
  edit_distance (rev b) (rev a) d -> edit_distance a b d.
Proof.
  intros [H1 H2]. split.
  - apply edits_sym in H1. apply edits_rev in H1.
    rewrite !rev_involutive in H1. exact H1.
  - intros n Hn. apply H2. apply edits_sym, edits_rev, Hn.
Qed.

(** ** The matrix of [levenshteinDistance] *)

Lemma array_set_end (A : Type) (l : list A) n v :
  n = length l -> array_set l n v = l ++ [v].
Proof.
  intros ->. induction l as [|x l IH]; simpl; [reflexivity|now rewrite IH].
Qed.

Lemma array_set_middle (A : Type) (l1 : list A) x l2 n v :
  n = length l1 -> array_set (l1 ++ x :: l2) n v = l1 ++ v :: l2.
Proof.
  intros ->. induction l1 as [|y l1 IH]; simpl; [reflexivity|now rewrite IH].
Qed.

Lemma nth_middle_at (A : Type) (l1 : list A) x l2 n d :
  n = length l1 -> nth n (l1 ++ x :: l2) d = x.
Proof. intros ->. apply nth_middle. Qed.

Ltac len_seq := now rewrite ?length_map, ?length_seq.

Lemma nth_map_seq (A : Type) (f : nat -> A) n k d :
  k < n -> nth k (map f (seq 0 n)) d = f k.
Proof.
  intros H. rewrite (nth_indep _ d (f 0)) by (now rewrite length_map, length_seq).
  rewrite map_nth, seq_nth by assumption. reflexivity.
Qed.

Lemma rev_firstn_S (s : jsstring) i c :
  nth_error s i = Some c -> rev (firstn (S i) s) = c :: rev (firstn i s).
Proof.
  revert i. induction s as [|x s IH]; intros [|i] H; simpl in *; try discriminate.
  - now inversion H.
  - rewrite (IH i H). simpl. reflexivity.
Qed.

Section TableProofs.
Variables str1 str2 : jsstring.

Local Abbreviation D := (prefix_distance str1 str2).
Local Abbreviation full_row := (full_row str1 str2).
Local Abbreviation table := (table str1 str2).

Lemma D_0_r i : i <= length str2 -> D i 0 = i.
Proof.
  intros H. unfold prefix_distance. simpl. rewrite lev_nil_r, length_rev, length_firstn. lia.
Qed.

Lemma D_0_l j : j <= length str1 -> D 0 j = j.
Proof.
  intros H. unfold prefix_distance. simpl. rewrite length_rev, length_firstn. lia.
Qed.

Lemma D_step i j :
  i < length str2 -> j < length str1 ->
  D (S i) (S j) =
  if charAt_eqb (charAt str2 i) (charAt str1 j) then D i j
  else Nat.min (D i j + 1) (Nat.min (D (S i) j + 1) (D i (S j) + 1)).
Proof.
  intros Hi Hj. unfold charAt.
  destruct (nth_error str2 i) as [x|] eqn:Ex;
    [|apply nth_error_None in Ex; lia].
  destruct (nth_error str1 j) as [y|] eqn:Ey;
    [|apply nth_error_None in Ey; lia].
  unfold prefix_distance. rewrite (@rev_firstn_S _ _ _ Ex), (@rev_firstn_S _ _ _ Ey), lev_cons_cons.
  simpl. destruct (x =? y)%N; [reflexivity|lia].
Qed.

Lemma init_rows_spec n :
  init_rows n [] = map (fun k => [k]) (seq 0 (S n)).
Proof.
  unfold init_rows.
  assert (G : forall m k, fold_left (fun m i => array_set m i [i]) (seq k m)
                      (map (fun k => [k]) (seq 0 k))
                    = map (fun k => [k]) (seq 0 (k + m))).
  { induction m as [|m IH]; intros k.
    - now rewrite Nat.add_0_r.
    - cbn [seq fold_left].
      replace (array_set (map (fun k0 => [k0]) (seq 0 k)) k [k])
        with (map (fun k0 => [k0]) (seq 0 (S k))).
      + rewrite IH. f_equal. f_equal. lia.
      + rewrite seq_S, map_app. simpl.
        symmetry. apply array_set_end. len_seq. }
  apply (G (S n) 0).
Qed.

Lemma init_cols_spec n rest :
  init_cols n ([0] :: rest) = seq 0 (S n) :: rest.
Proof.
  unfold init_cols.
  assert (G : forall m k, fold_left (fun m j => matrix_set m 0 j j) (seq (S k) m)
                      (seq 0 (S k) :: rest)
                    = seq 0 (S k + m) :: rest).
  { induction m as [|m IH]; intros k.
    - now rewrite Nat.add_0_r.
    - change (seq (S k) (S m)) with (S k :: seq (S (S k)) m).
      cbn [fold_left].
      replace (matrix_set (seq 0 (S k) :: rest) 0 (S k) (S k))
        with (seq 0 (S (S k)) :: rest).
      + rewrite IH. f_equal. f_equal. lia.
      + unfold matrix_set. cbn [nth array_set].
        rewrite (seq_S (S k)). f_equal.
        symmetry. apply array_set_end. len_seq. }
  cbn [seq fold_left]. apply (G n 0).
Qed.

Lemma table_init :
  init_cols (length str1) (init_rows (length str2) []) = table 0 (S (length str1)).
Proof.
  rewrite init_rows_spec. cbn [seq map]. rewrite init_cols_spec.
  unfold Table.table. rewrite Nat.sub_0_r. cbn [seq map app]. f_equal.
  change (0 :: seq 1 (length str1)) with (seq 0 (S (length str1))).
  change (D 0 0 :: map (D 0) (seq 1 (length str1)))
    with (map (D 0) (seq 0 (S (length str1)))).
  rewrite <- (map_id (seq 0 (S (length str1)))) at 1.
  apply map_ext_in. intros j Hj. apply in_seq in Hj. symmetry. apply D_0_l. lia.
Qed.

Lemma table_next_row i :
  i < length str2 -> table i (S (length str1)) = table (S i) 1.
Proof.
  intros Hi. unfold Table.table.
  rewrite (seq_S i 0), map_app. cbn [map seq]. rewrite <- app_assoc. cbn [app].
  f_equal. fold (full_row i). f_equal.
  replace (length str2 - i) with (S (length str2 - S i)) by lia.
  cbn [seq map]. rewrite D_0_r by lia. reflexivity.
Qed.

Lemma table_get_prev i j k :
  k <= length str1 -> matrix_get (table (S i) j) i k = D i k.
Proof.
  intros Hk. unfold matrix_get, Table.table.
  rewrite (seq_S i 0), map_app. cbn [map]. rewrite <- app_assoc. cbn [app].
  rewrite nth_middle_at by len_seq. unfold Table.full_row. apply nth_map_seq. lia.
Qed.

Lemma table_get_cur i j k :
  k < j -> matrix_get (table i j) i k = D i k.
Proof.
  intros Hk. unfold matrix_get, Table.table.
  rewrite nth_middle_at by len_seq. now apply nth_map_seq.
Qed.

Lemma table_set_cur i j :
  matrix_set (table i j) i j (D i j) = table i (S j).
Proof.
  unfold matrix_set, Table.table.
  rewrite nth_middle_at by len_seq. rewrite array_set_middle by len_seq.
  f_equal. f_equal.
  rewrite (seq_S j 0), map_app. cbn [map]. apply array_set_end. len_seq.
Qed.

Lemma fill_cell_table i j :
  i < length str2 -> j < length str1 ->
  fill_cell str1 str2 (table (S i) (S j)) (S i) (S j) = table (S i) (S (S j)).
Proof.
  intros Hi Hj. unfold fill_cell.
  replace (S i - 1) with i by lia. replace (S j - 1) with j by lia.
  rewrite !table_get_prev by lia. rewrite table_get_cur by lia.
  rewrite <- (table_set_cur (S i) (S j)). rewrite (D_step Hi Hj).
  destruct (charAt_eqb (charAt str2 i) (charAt str1 j)); reflexivity.
Qed.

Lemma fill_row_table i :
  i < length str2 ->
  fill_row str1 str2 (table (S i) 1) (S i) = table (S i) (S (length str1)).
Proof.
  intros Hi. unfold fill_row.
  assert (G : forall m j, j + m = length str1 ->
            fold_left (fun m j => fill_cell str1 str2 m (S i) j) (seq (S j) m)
              (table (S i) (S j)) = table (S i) (S (length str1))).
  { induction m as [|m IH]; intros j Hm.
    - simpl. f_equal. f_equal. lia.
    - cbn [seq fold_left]. rewrite fill_cell_table by lia. apply IH. lia. }
  apply (G (length str1) 0). reflexivity.
Qed.

Lemma fill_table :
  fill str1 str2 (table 0 (S (length str1)))
  = table (length str2) (S (length str1)).
Proof.
  unfold fill.
  assert (G : forall m i, i + m = length str2 ->
            fold_left (fill_row str1 str2) (seq (S i) m)
              (table i (S (length str1))) = table (length str2) (S (length str1))).
  { induction m as [|m IH]; intros i Hm.
    - simpl. f_equal. lia.
    - cbn [seq fold_left]. rewrite table_next_row by lia.
      rewrite fill_row_table by lia. apply IH. lia. }
  apply (G (length str2) 0). reflexivity.
Qed.

Lemma levenshteinDistance_lev :
  levenshteinDistance str1 str2 = lev (rev str2) (rev str1).
Proof.
  unfold levenshteinDistance. rewrite table_init, fill_table.
  rewrite table_get_cur by lia. unfold prefix_distance. now rewrite !firstn_all.
Qed.

End TableProofs.

(** ** The similarity score *)

(** *** Quotients of a length *)

Lemma ratio_nonneg (n d : nat) :
  0 < n -> d <= n ->
  (0 <= inject_Z (Z.of_nat n - Z.of_nat d) / inject_Z (Z.of_nat n))%Q.
Proof.
  intros Hn Hd. apply Qle_shift_div_l.
  - change 0%Q with (inject_Z 0). rewrite <- Zlt_Qlt. lia.
  - rewrite Qmult_0_l. change 0%Q with (inject_Z 0). rewrite <- Zle_Qle. lia.
Qed.

Lemma ratio_lt_1 (n d : nat) :
  0 < n -> 0 < d ->
  (inject_Z (Z.of_nat n - Z.of_nat d) / inject_Z (Z.of_nat n) < 1)%Q.
Proof.
  intros Hn Hd. apply Qlt_shift_div_r.
  - change 0%Q with (inject_Z 0). rewrite <- Zlt_Qlt. lia.
  - rewrite Qmult_1_l. rewrite <- Zlt_Qlt. lia.
Qed.

Lemma ratio_eq_1 (n : nat) :
  0 < n ->
  (inject_Z (Z.of_nat n - Z.of_nat 0) / inject_Z (Z.of_nat n) == 1)%Q.
Proof.
  intros Hn. rewrite Z.sub_0_r. apply Qmult_inv_r.
  change 0%Q with (inject_Z 0). rewrite inject_Z_injective. lia.
Qed.

Lemma ratio_eq_0 (n : nat) :
  (inject_Z (Z.of_nat n - Z.of_nat n) / inject_Z (Z.of_nat n) == 0)%Q.
Proof. rewrite Z.sub_diag. unfold Qdiv. apply Qmult_0_l. Qed.

(** *** The distance [levenshteinDistance] returns *)

Lemma edit_distance_unique a b d d' :
  edit_distance a b d -> edit_distance a b d' -> d = d'.
Proof.
  intros [H1 H2] [H1' H2']. apply Nat.le_antisymm; auto.
Qed.

Lemma edit_distance_sym a b d : edit_distance a b d -> edit_distance b a d.
Proof.
  intros [H1 H2]. split; [now apply edits_sym|].
  intros n Hn. apply H2. now apply edits_sym.
Qed.

Lemma levenshteinDistance_edit_distance a b :
  edit_distance a b (levenshteinDistance a b).
Proof.
  rewrite levenshteinDistance_lev. apply edit_distance_rev_sym.
  apply lev_edit_distance.
Qed.

Lemma levenshteinDistance_sym a b :
  levenshteinDistance a b = levenshteinDistance b a.
Proof.
  apply (@edit_distance_unique a b).
  - apply levenshteinDistance_edit_distance.
  - apply edit_distance_sym, levenshteinDistance_edit_distance.
Qed.

Lemma lev_le_max a : forall b, lev a b <= Nat.max (length a) (length b).
Proof.
  induction a as [|x a IH]; intros b; [simpl; lia|].
  destruct b as [|y b]; [rewrite lev_nil_r; simpl; lia|].
  rewrite lev_cons_cons. specialize (IH b). cbn [length].
  destruct (x =? y)%N; lia.
Qed.

Lemma levenshteinDistance_le_max a b :
  levenshteinDistance a b <= Nat.max (length a) (length b).
Proof.
  rewrite levenshteinDistance_lev.
  pose proof (lev_le_max (rev b) (rev a)) as H.
  rewrite !length_rev in H. lia.
Qed.

Lemma levenshteinDistance_refl a : levenshteinDistance a a = 0.
Proof. rewrite levenshteinDistance_lev. apply lev_refl. Qed.

Lemma levenshteinDistance_0 a b : levenshteinDistance a b = 0 -> a = b.
Proof.
  intros H. destruct (levenshteinDistance_edit_distance a b) as [He _].
  rewrite H in He. now inversion He.
Qed.

Lemma levenshteinDistance_nil_r a : levenshteinDistance a [] = length a.
Proof.
  rewrite levenshteinDistance_lev. simpl. apply length_rev.
Qed.

Lemma levenshteinDistance_nil_l b : levenshteinDistance [] b = length b.
Proof. rewrite levenshteinDistance_sym. apply levenshteinDistance_nil_r. Qed.

(** *** [calculateSimilarity] on two non-empty strings *)

Lemma calculateSimilarity_nonempty a b :
  a <> [] -> b <> [] ->
  calculateSimilarity a b =
  (inject_Z (Z.of_nat (Nat.max (length a) (length b))
             - Z.of_nat (levenshteinDistance a b))
   / inject_Z (Z.of_nat (Nat.max (length a) (length b))))%Q.
Proof.
  intros Ha Hb. unfold calculateSimilarity.
  assert (Fa : falsy a = false) by (destruct a; [congruence|reflexivity]).
  assert (Fb : falsy b = false) by (destruct b; [congruence|reflexivity]).
  assert (La : 0 < length a) by (destruct a; [congruence|simpl; lia]).
  assert (Lb : 0 < length b) by (destruct b; [congruence|simpl; lia]).
  rewrite Fa, Fb. cbn [orb].
  destruct (length b <? length a) eqn:E.
  - apply Nat.ltb_lt in E.
    replace (length a =? 0) with false by (symmetry; apply Nat.eqb_neq; lia).
    replace (Nat.max (length a) (length b)) with (length a) by lia.
    reflexivity.
  - apply Nat.ltb_ge in E.
    replace (length b =? 0) with false by (symmetry; apply Nat.eqb_neq; lia).
    replace (Nat.max (length a) (length b)) with (length b) by lia.
    rewrite (levenshteinDistance_sym b a). reflexivity.
Qed.

Lemma calculateSimilarity_empty_l b : calculateSimilarity [] b = 0%Q.
Proof. reflexivity. Qed.

Lemma calculateSimilarity_empty_r a : calculateSimilarity a [] = 0%Q.
Proof. unfold calculateSimilarity. destruct a; reflexivity. Qed.

Lemma calculateSimilarity_same a :
  a <> [] -> (calculateSimilarity a a == 1)%Q.
Proof.
  intros Ha. rewrite calculateSimilarity_nonempty by assumption.
  rewrite levenshteinDistance_refl. apply ratio_eq_1.
  destruct a; [congruence|simpl; lia].
Qed.

Lemma calculateSimilarity_range a b :
  (0 <= calculateSimilarity a b)%Q /\ (calculateSimilarity a b <= 1)%Q.
Proof.
  destruct a as [|x a]; [rewrite calculateSimilarity_empty_l; split; discriminate|].
  destruct b as [|y b]; [rewrite calculateSimilarity_empty_r; split; discriminate|].
  rewrite calculateSimilarity_nonempty by discriminate.
  pose proof (levenshteinDistance_le_max (x :: a) (y :: b)) as Hd.
  assert (Hn : 0 < Nat.max (length (x :: a)) (length (y :: b))) by (simpl; lia).
  split; [now apply ratio_nonneg|].
  destruct (levenshteinDistance (x :: a) (y :: b)) as [|d] eqn:E.
  - rewrite ratio_eq_1 by assumption. apply Qle_refl.
  - apply Qlt_le_weak, ratio_lt_1; [exact Hn|apply Nat.lt_0_succ].
Qed.

Lemma calculateSimilarity_distinct a b :
  a <> [] -> b <> [] -> a <> b ->
  (0 <= calculateSimilarity a b)%Q /\ (calculateSimilarity a b < 1)%Q.
Proof.
  intros Ha Hb Hab. split; [apply calculateSimilarity_range|].
  rewrite calculateSimilarity_nonempty by assumption.
  apply ratio_lt_1.
  - destruct a; [congruence|cbn [length]; lia].
  - destruct (levenshteinDistance a b) eqn:E; [|lia].
    apply levenshteinDistance_0 in E. congruence.
Qed.

(** ** The reconciler *)

(** *** Comparisons of scores *)

Lemma Qgtb_true a b : Qgtb a b = true <-> (b < a)%Q.
Proof.
  unfold Qgtb. rewrite negb_true_iff. split; intros H.
  - apply Qnot_le_lt. intros Hle. apply Qle_bool_iff in Hle. congruence.
  - destruct (Qle_bool a b) eqn:E; [|reflexivity].
    apply Qle_bool_iff in E. exfalso. exact (Qlt_not_le _ _ H E).
Qed.

Lemma Qgtb_false a b : Qgtb a b = false <-> (a <= b)%Q.
Proof.
  unfold Qgtb. rewrite negb_false_iff. apply Qle_bool_iff.
Qed.

Lemma Qgeb_true a b : Qgeb a b = true <-> (b <= a)%Q.
Proof. apply Qle_bool_iff. Qed.

Lemma Qgeb_false a b : Qgeb a b = false <-> (a < b)%Q.
Proof.
  unfold Qgeb. split; intros H.
  - apply Qnot_le_lt. intros Hle. apply Qle_bool_iff in Hle. congruence.
  - destruct (Qle_bool b a) eqn:E; [|reflexivity].
    apply Qle_bool_iff in E. exfalso. exact (Qlt_not_le _ _ H E).
Qed.

Lemma jseqb_eq a b : jseqb a b = true <-> a = b.
Proof.
  revert b. induction a as [|x a IH]; intros [|y b]; simpl;
    try (split; [discriminate|congruence]); [tauto|].
  rewrite andb_true_iff, N.eqb_eq, IH. split.
  - intros [-> ->]. reflexivity.
  - intros H. inversion H. auto.
Qed.

Lemma jseqb_refl a : jseqb a a = true.
Proof. now apply jseqb_eq. Qed.

Lemma jseqb_neq a b : jseqb a b = false <-> a <> b.
Proof.
  rewrite <- jseqb_eq. destruct (jseqb a b); split; congruence.
Qed.

(** *** The search of [findCorrectEventId] *)

Section Search.
Variable target : jsstring.

Local Abbreviation score := (score target).
Local Abbreviation candidate := (candidate target).
Local Abbreviation search_inv := (search_inv target).

Lemma findStep_inv p st x :
  search_inv p st -> search_inv (p ++ [x]) (findStep target st x).
Proof.
  destruct st as [bm bs]. destruct x as [id raw]. unfold findStep.
  change (calculateSimilarity target (normalizedName raw))
    with (score (id, raw)).
  intros Inv.
  destruct (Qgtb (score (id, raw)) bs && Qgtb (score (id, raw)) (7 # 10)) eqn:C.
  - apply andb_true_iff in C. destruct C as [C1 C2].
    apply Qgtb_true in C1, C2. unfold Reconciliation.search_inv. cbn [fst snd].
    exists (length p), (id, raw). repeat split; auto.
    + rewrite nth_error_app2 by lia. now rewrite Nat.sub_diag.
    + intros e' He'. apply in_app_iff in He'. destruct He' as [He'|[<-|[]]];
        [|apply Qle_refl].
      unfold Reconciliation.search_inv in Inv. cbn [fst snd] in Inv. destruct bm as [m|].
      * destruct Inv as (k & e & _ & _ & Hbs & _ & Hmax & _).
        subst bs. apply Qlt_le_weak. eapply Qle_lt_trans; [apply Hmax, He'|exact C1].
      * destruct Inv as [_ Hno]. apply Qlt_le_weak.
        eapply Qle_lt_trans; [|exact C2]. apply Qnot_lt_le, Hno, He'.
    + intros k' e' Hk' He'. rewrite nth_error_app1 in He' by assumption.
      apply nth_error_In in He'.
      unfold Reconciliation.search_inv in Inv. cbn [fst snd] in Inv. destruct bm as [m|].
      * destruct Inv as (k & e & _ & _ & Hbs & _ & Hmax & _).
        subst bs. eapply Qle_lt_trans; [apply Hmax, He'|exact C1].
      * destruct Inv as [_ Hno].
        eapply Qle_lt_trans; [|exact C2]. apply Qnot_lt_le, Hno, He'.
  - apply andb_false_iff in C.
    unfold Reconciliation.search_inv in *. cbn [fst snd] in *. destruct bm as [m|].
    + destruct Inv as (k & e & Hk & Hm & Hbs & Hfloor & Hmax & Hfirst).
      exists k, e. repeat split; auto.
      * rewrite nth_error_app1; [assumption|]. apply nth_error_Some. congruence.
      * intros e' He'. apply in_app_iff in He'. destruct He' as [He'|[<-|[]]];
          [now apply Hmax|].
        destruct C as [C|C]; apply Qgtb_false in C.
        -- now rewrite <- Hbs.
        -- eapply Qle_trans; [exact C|]. now apply Qlt_le_weak.
      * intros k' e' Hk' He'. apply (Hfirst k' e' Hk').
        rewrite nth_error_app1 in He'; [assumption|].
        apply Nat.lt_trans with k; [assumption|].
        apply nth_error_Some. congruence.
    + destruct Inv as [Hbs Hno]. split; [assumption|].
      intros e He. apply in_app_iff in He. destruct He as [He|[<-|[]]];
        [now apply Hno|].
      intros Hlt. subst bs. destruct C as [C|C]; apply Qgtb_false in C.
      * apply (Qlt_not_le _ _ Hlt). eapply Qle_trans; [exact C|]. discriminate.
      * exact (Qlt_not_le _ _ Hlt C).
Qed.

Lemma search_fold l : forall p st,
  search_inv p st -> search_inv (p ++ l) (fold_left (findStep target) l st).
Proof.
  induction l as [|x l IH]; intros p st Inv; simpl.
  - now rewrite app_nil_r.
  - replace (p ++ x :: l) with ((p ++ [x]) ++ l)
      by (now rewrite <- app_assoc).
    apply IH, findStep_inv, Inv.
Qed.

Lemma search_result (rawEventIndex : index) :
  search_inv rawEventIndex
    (fold_left (findStep target) rawEventIndex (None, 0%Q)).
Proof.
  apply (search_fold rawEventIndex []). split; [reflexivity|intros e []].
Qed.

End Search.

Lemma findCorrectEventId_cases (eventName : jsstring) (rawEventIndex : index) :
  let target := normalizeEventName eventName in
  match findCorrectEventId eventName rawEventIndex with
  | None => forall e, In e rawEventIndex -> ~ (7 # 10 < score target e)%Q
  | Some m =>
      exists k e,
        nth_error rawEventIndex k = Some e /\ m = candidate target e /\
        (7 # 10 < score target e)%Q /\
        (forall e', In e' rawEventIndex -> (score target e' <= score target e)%Q) /\
        (forall k' e', k' < k -> nth_error rawEventIndex k' = Some e' ->
                       (score target e' < score target e)%Q)
  end.
Proof.
  intros target. unfold findCorrectEventId. fold target.
  pose proof (search_result target rawEventIndex) as H.
  unfold Reconciliation.search_inv in H.
  destruct (fst (fold_left (findStep target) rawEventIndex (None, 0%Q)))
    as [m|].
  - destruct H as (k & e & H1 & H2 & _ & H3 & H4 & H5). exists k, e. auto.
  - apply H.
Qed.

(** *** One round of the loop *)

Lemma drop_while_length p s : length (drop_while p s) <= length s.
Proof.
  induction s as [|c s IH]; simpl; [lia|]. destruct (p c); simpl; lia.
Qed.

Lemma rx_plus_consumes p r rest :
  rx_plus p r = Some rest -> length rest < length r.
Proof.
  unfold rx_plus, rx_seq, rx_class, rx_star.
  destruct r as [|d r]; [discriminate|]. destruct (p d); [|discriminate].
  intros H. injection H as <-. pose proof (drop_while_length p r).
  cbn [length]. lia.
Qed.

Lemma firstn_pos_nonempty (A : Type) n (l : list A) :
  0 < n -> l <> [] -> firstn n l <> [].
Proof. destruct n, l; simpl; try lia; congruence. Qed.

Lemma match_group_plus_nonempty pre p s g :
  match_group pre (rx_plus p) s = Some g -> g <> [].
Proof.
  assert (Here : forall s g,
    match pre s with
    | Some r =>
        match rx_plus p r with
        | Some rest => Some (firstn (length r - length rest) r)
        | None => None
        end
    | None => None
    end = Some g -> g <> []).
  { clear. intros s g. destruct (pre s) as [r|]; [|discriminate].
    destruct (rx_plus p r) as [rest|] eqn:E; [|discriminate].
    apply rx_plus_consumes in E. intros H. injection H as <-.
    apply firstn_pos_nonempty; [lia|]. destruct r; [simpl in E; lia|discriminate]. }
  induction s as [|c s IH]; cbn [match_group].
  - specialize (Here [] g). destruct (pre []) as [r|]; [|discriminate].
    destruct (rx_plus p r); [exact Here|discriminate].
  - specialize (Here (c :: s) g). destruct (pre (c :: s)) as [r|]; [|exact IH].
    destruct (rx_plus p r); [exact Here|exact IH].
Qed.

Lemma currentEventIdOf_nonempty e cid :
  currentEventIdOf e = Some cid -> falsy cid = false.
Proof.
  unfold currentEventIdOf. destruct (fbLink e) as [l|]; [|discriminate].
  destruct (falsy l); [discriminate|]. intros H.
  apply match_group_plus_nonempty in H. destruct cid; [congruence|reflexivity].
Qed.

Lemma reconcile_searched idx i e st cid raw :
  searched idx e cid raw ->
  match findCorrectEventId (name e) idx with
  | Some m =>
      if jseqb (matchEventId m) cid then untouched idx i e st
      else correctedTo idx i e st cid raw m
  | None => untouched idx i e st
  end.
Proof.
  intros (Hc & Hg & Hs). apply Qgeb_false in Hs.
  pose proof (currentEventIdOf_nonempty _ Hc) as Hf.
  unfold untouched, correctedTo, reconcile. rewrite Hc, Hf, Hg, Hs.
  destruct (findCorrectEventId (name e) idx) as [m|]; [|cbn; auto].
  destruct (jseqb (matchEventId m) cid); cbn; auto.
Qed.

Lemma reconcile_not_searched idx i e st :
  (forall cid raw, ~ searched idx e cid raw) -> untouched idx i e st.
Proof.
  intros H. unfold untouched, reconcile.
  destruct (currentEventIdOf e) as [cid|] eqn:Hc; [|cbn; auto].
  destruct (falsy cid); [cbn; auto|].
  destruct (index_get idx cid) as [raw|] eqn:Hg; [|cbn; auto].
  destruct (Qgeb _ _) eqn:Hs; [cbn; auto|].
  exfalso. apply (H cid raw). repeat split; auto. now apply Qgeb_false.
Qed.

(** *** A second run *)

Lemma drop_while_all p s : forallb p s = true -> drop_while p s = [].
Proof.
  induction s as [|c s IH]; simpl; [reflexivity|].
  destruct (p c); [exact IH|discriminate].
Qed.

Lemma currentEventIdOf_linkOf n id :
  id <> [] -> forallb isDigit id = true ->
  currentEventIdOf (mkEvent n (Some (linkOf id))) = Some id.
Proof.
  intros Hne Hd. unfold currentEventIdOf, linkOf. cbn [fbLink].
  destruct id as [|c id]; [congruence|].
  cbn [forallb] in Hd. apply andb_true_iff in Hd. destruct Hd as [Hc Hd].
  cbn. unfold rx_plus, rx_seq, rx_class, rx_star. rewrite Hc.
  rewrite (drop_while_all _ _ Hd). cbn [length firstn].
  now rewrite firstn_all.
Qed.

Lemma index_get_In idx k v :
  NoDup (map fst idx) -> In (k, v) idx -> index_get idx k = Some v.
Proof.
  induction idx as [|[k' v'] idx IH]; intros Hnd Hin; [destruct Hin|].
  cbn [map fst] in Hnd. inversion Hnd as [|? ? Hnotin Hnd']; subst.
  cbn [index_get]. destruct Hin as [Heq|Hin].
  - injection Heq as -> ->. now rewrite jseqb_refl.
  - destruct (jseqb k k') eqn:E.
    + apply jseqb_eq in E. subst k'. exfalso. apply Hnotin.
      apply (in_map fst) in Hin. exact Hin.
    + now apply IH.
Qed.

Lemma untouched_indep idx i e st i' st' :
  untouched idx i e st -> untouched idx i' e st'.
Proof.
  unfold untouched, reconcile.
  destruct (currentEventIdOf e) as [cid|]; [|cbn; auto].
  destruct (falsy cid); [cbn; auto|].
  destruct (index_get idx cid) as [raw|]; [|cbn; auto].
  destruct (Qgeb _ _); [cbn; auto|].
  destruct (findCorrectEventId (name e) idx) as [m|]; [|cbn; auto].
  destruct (negb (jseqb (matchEventId m) cid)); [|cbn; auto].
  cbn. intros (_ & H & _). exfalso.
  apply (f_equal (@length _)) in H. rewrite length_app in H. simpl in H. lia.
Qed.

Lemma reconcile_stable idx i e st i' st' :
  wf_index idx ->
  untouched idx i' (fst (reconcile idx i e st)) st'.
Proof.
  intros [Hnd Hkeys].
  destruct (currentEventIdOf e) as [cid|] eqn:Hc.
  2:{ assert (U : untouched idx i e st)
        by (unfold untouched, reconcile; rewrite Hc; cbn; auto).
      destruct U as (-> & _). unfold untouched, reconcile. rewrite Hc. cbn; auto. }
  pose proof (currentEventIdOf_nonempty _ Hc) as Hf.
  destruct (index_get idx cid) as [raw|] eqn:Hg.
  2:{ assert (U : untouched idx i e st)
        by (unfold untouched, reconcile; rewrite Hc, Hf, Hg; cbn; auto).
      destruct U as (-> & _). unfold untouched, reconcile.
      rewrite Hc, Hf, Hg. cbn; auto. }
  destruct (Qgeb (calculateSimilarity (normalizeEventName (name e))
                    (normalizedName raw)) (7 # 10)) eqn:Hs.
  { assert (U : untouched idx i e st)
      by (unfold untouched, reconcile; rewrite Hc, Hf, Hg, Hs; cbn; auto).
    destruct U as (-> & _). unfold untouched, reconcile.
    rewrite Hc, Hf, Hg, Hs. cbn; auto. }
  assert (S : searched idx e cid raw)
    by (repeat split; auto; now apply Qgeb_false).
  pose proof (reconcile_searched i st S) as R.
  pose proof (findCorrectEventId_cases (name e) idx) as F. cbv zeta in F.
  destruct (findCorrectEventId (name e) idx) as [m|].
  2:{ pose proof R as U. destruct R as (-> & _).
      eapply untouched_indep, U. }
  destruct (jseqb (matchEventId m) cid) eqn:Hid.
  { pose proof R as U. destruct R as (-> & _).
    eapply untouched_indep, U. }
  destruct R as (-> & _).
  destruct F as (k & [key raw'] & Hk & -> & Hfloor & _).
  apply nth_error_In in Hk. destruct (Hkeys key raw' Hk) as [Hne Hdig].
  unfold untouched, reconcile. cbn [matchEventId candidate fst snd name].
  rewrite (currentEventIdOf_linkOf _ Hne Hdig).
  replace (falsy key) with false by (destruct key; [congruence|reflexivity]).
  rewrite (@index_get_In idx key raw' Hnd Hk).
  unfold score in Hfloor. cbn [snd] in Hfloor.
  replace (Qgeb _ _) with true
    by (symmetry; apply Qgeb_true, Qlt_le_weak, Hfloor).
  cbn; auto.
Qed.

Lemma fixLoop_stable idx events :
  wf_index idx ->
  forall i st i' st',
    fst (fixLoop idx i' (fst (fixLoop idx i events st)) st')
      = fst (fixLoop idx i events st) /\
    fixes (snd (fixLoop idx i' (fst (fixLoop idx i events st)) st'))
      = fixes st' /\
    fixedCount (snd (fixLoop idx i' (fst (fixLoop idx i events st)) st'))
      = fixedCount st'.
Proof.
  intros Hwf. induction events as [|e events IH]; intros i st i' st';
    [cbn; auto|].
  cbn [fixLoop].
  destruct (reconcile idx i e st) as [e1 st1] eqn:E1.
  destruct (fixLoop idx (S i) events st1) as [rest1 st2] eqn:E2.
  cbn [fst fixLoop].
  pose proof (@reconcile_stable idx i e st i' st' Hwf) as U.
  rewrite E1 in U. cbn [fst] in U. unfold untouched in U.
  destruct (reconcile idx i' e1 st') as [e2 st1'] eqn:E3.
  destruct U as (U1 & U2 & U3). cbn [fst snd] in U1, U2, U3.
  specialize (IH (S i) st1 (S i') st1'). rewrite E2 in IH. cbn [fst] in IH.
  destruct (fixLoop idx (S i') rest1 st1') as [rest2 st2'] eqn:E4.
  cbn [fst snd] in *. destruct IH as (I1 & I2 & I3).
  repeat split; congruence.
Qed.

(** *** Whole runs *)

Lemma reconcile_event_indep idx i e st i' st' :
  fst (reconcile idx i e st) = fst (reconcile idx i' e st').
Proof.
  unfold reconcile.
  destruct (currentEventIdOf e) as [cid|]; [|reflexivity].
  destruct (falsy cid); [reflexivity|].
  destruct (index_get idx cid) as [raw|]; [|reflexivity].
  destruct (Qgeb _ _); [reflexivity|].
  destruct (findCorrectEventId (name e) idx) as [m|]; [|reflexivity].
  destruct (negb (jseqb (matchEventId m) cid)); reflexivity.
Qed.

Lemma reconcile_no_candidate idx i e st cid raw :
  searched idx e cid raw -> findCorrectEventId (name e) idx = None ->
  reconcile idx i e st
  = (e, say (LogNoGoodMatch (i + 1) (name e) cid (eventName raw)) st).
Proof.
  intros (Hc & Hg & Hs) Hf. apply Qgeb_false in Hs.
  unfold reconcile.
  rewrite Hc, (currentEventIdOf_nonempty _ Hc), Hg, Hs, Hf. reflexivity.
Qed.

(** A round adds at most the entry of its own record to the report. *)
Lemma reconcile_fixes idx i e st :
  fixes (snd (reconcile idx i e st)) = fixes st \/
  exists f m, fixEventIndex f = i + 1 /\
              findCorrectEventId (name e) idx = Some m /\
              fixes (snd (reconcile idx i e st)) = fixes st ++ [f].
Proof.
  unfold reconcile.
  destruct (currentEventIdOf e) as [cid|] eqn:Hc; [|left; reflexivity].
  destruct (falsy cid); [left; reflexivity|].
  destruct (index_get idx cid) as [raw|]; [|left; reflexivity].
  destruct (Qgeb _ _); [left; reflexivity|].
  destruct (findCorrectEventId (name e) idx) as [m|]; [|left; reflexivity].
  destruct (negb (jseqb (matchEventId m) cid)); [|left; reflexivity].
  right. eexists. exists m. cbn.
  split; [|split]; [|reflexivity|reflexivity]. reflexivity.
Qed.

Lemma reconcile_console idx i e st l :
  In l (console st) -> In l (console (snd (reconcile idx i e st))).
Proof.
  intros H. unfold reconcile.
  destruct (currentEventIdOf e) as [cid|];
    [|cbn; apply in_or_app; now left].
  destruct (falsy cid); [cbn; apply in_or_app; now left|].
  destruct (index_get idx cid) as [raw|];
    [|cbn; apply in_or_app; now left].
  destruct (Qgeb _ _); [exact H|].
  destruct (findCorrectEventId (name e) idx) as [m|];
    [|cbn; apply in_or_app; now left].
  destruct (negb (jseqb (matchEventId m) cid));
    cbn; apply in_or_app; now left.
Qed.

Lemma fixLoop_console idx events : forall i st l,
  In l (console st) -> In l (console (snd (fixLoop idx i events st))).
Proof.
  induction events as [|e events IH]; intros i st l H; [exact H|].
  cbn [fixLoop].
  pose proof (reconcile_console idx i e st l H) as H1.
  destruct (reconcile idx i e st) as [e1 st1].
  specialize (IH (S i) st1 l H1).
  destruct (fixLoop idx (S i) events st1) as [rest st2]. exact IH.
Qed.

Lemma fixLoop_fixes idx events : forall i st f,
  In f (fixes (snd (fixLoop idx i events st))) ->
  In f (fixes st) \/
  exists k e m, nth_error events k = Some e /\
                fixEventIndex f = i + k + 1 /\
                findCorrectEventId (name e) idx = Some m.
Proof.
  induction events as [|e events IH]; intros i st f H; [now left|].
  cbn [fixLoop] in H.
  pose proof (reconcile_fixes idx i e st) as R.
  destruct (reconcile idx i e st) as [e1 st1].
  specialize (IH (S i) st1 f).
  destruct (fixLoop idx (S i) events st1) as [rest st2].
  cbn [snd] in *. destruct (IH H) as [Hin|(k & e' & m & Hk & Hi & Hm)].
  - destruct R as [R|(f0 & m & Hi & Hm & R)]; rewrite R in Hin; [now left|].
    apply in_app_iff in Hin. destruct Hin as [Hin|[<-|[]]]; [now left|].
    right. exists 0, e, m. repeat split; auto. lia.
  - right. exists (S k), e', m. repeat split; auto. lia.
Qed.

(** What the loop does to a record for which the search finds nothing. *)
Lemma fixLoop_no_candidate idx events : forall i st k e cid raw,
  nth_error events k = Some e ->
  searched idx e cid raw -> findCorrectEventId (name e) idx = None ->
  nth_error (fst (fixLoop idx i events st)) k = Some e /\
  In (LogNoGoodMatch (i + k + 1) (name e) cid (eventName raw))
     (console (snd (fixLoop idx i events st))).
Proof.
  induction events as [|e0 events IH]; intros i st k e cid raw Hk Hs Hf;
    [destruct k; discriminate|].
  cbn [fixLoop]. destruct k as [|k].
  - injection Hk as ->. rewrite (reconcile_no_candidate i st Hs Hf).
    destruct (fixLoop idx (S i) events _) as [rest st2] eqn:E.
    cbn [fst snd nth_error]. rewrite Nat.add_0_r. split; [reflexivity|].
    replace st2 with (snd (fixLoop idx (S i) events
      (say (LogNoGoodMatch (i + 1) (name e) cid (eventName raw)) st)))
      by (now rewrite E).
    apply fixLoop_console. cbn. apply in_or_app. right. now left.
  - cbn [nth_error] in Hk. destruct (reconcile idx i e0 st) as [e1 st1].
    specialize (IH (S i) st1 k e cid raw Hk Hs Hf).
    destruct (fixLoop idx (S i) events st1) as [rest st2].
    cbn [fst snd nth_error] in *.
    replace (i + S k + 1) with (S i + k + 1) by lia. exact IH.
Qed.

Lemma fixFacebookLinks_fields events idx :
  resEvents (fixFacebookLinks events idx)
    = fst (fixLoop idx 0 events (mkState 0 [] [])) /\
  resFixes (fixFacebookLinks events idx)
    = fixes (snd (fixLoop idx 0 events (mkState 0 [] []))) /\
  resFixedCount (fixFacebookLinks events idx)
    = fixedCount (snd (fixLoop idx 0 events (mkState 0 [] []))) /\
  resConsole (fixFacebookLinks events idx)
    = console (snd (fixLoop idx 0 events (mkState 0 [] []))) /\
  writtenReport (fixFacebookLinks events idx)
    = if 0 <? fixedCount (snd (fixLoop idx 0 events (mkState 0 [] [])))
      then Some (fixes (snd (fixLoop idx 0 events (mkState 0 [] []))))
      else None.
Proof.
  unfold fixFacebookLinks.
  destruct (fixLoop idx 0 events (mkState 0 [] [])) as [ev st].
  cbn [fst snd]. destruct (0 <? fixedCount st); cbn; auto.
Qed.

(** ** The Similarity Scorer of the specification *)

(** C2, as the specification states it, fails: two non-empty strings with no
    code unit in common score exactly 0, not a value strictly above 0. *)
Lemma calculateSimilarity_disjoint_is_zero :
  js "abc" <> [] /\ js "xyz" <> [] /\ js "abc" <> js "xyz" /\
  ~ (0 < calculateSimilarity (js "abc") (js "xyz"))%Q.
Proof.
  repeat split; try discriminate; vm_compute; discriminate.
Qed.

(** C2 (amended): [calculateSimilarity] is 1 on two identical non-empty
    strings, 0 when exactly one string is empty, and on two distinct
    non-empty strings a value from 0 (included) to 1 (excluded). *)
Theorem calculateSimilarity_contract (a b : jsstring) :
  (a = b -> a <> [] -> (calculateSimilarity a b == 1)%Q) /\
  ((a = [] /\ b <> []) \/ (a <> [] /\ b = []) ->
   (calculateSimilarity a b == 0)%Q) /\
  (a <> [] -> b <> [] -> a <> b ->
   (0 <= calculateSimilarity a b)%Q /\ (calculateSimilarity a b < 1)%Q).
Proof.
  split; [|split].
  - intros <- Ha. now apply calculateSimilarity_same.
  - intros [[-> _]|[_ ->]].
    + rewrite calculateSimilarity_empty_l. reflexivity.
    + rewrite calculateSimilarity_empty_r. reflexivity.
  - apply calculateSimilarity_distinct.
Qed.

(** C3: whenever one of the two strings is non-empty, [calculateSimilarity]
    is [(maxLen - d) / maxLen], where [maxLen] is the length of the longer
    string and [d], the value of [levenshteinDistance], is the least number
    of single-character insertions, deletions and substitutions that turn
    one string into the other; for "kitten" and "sitting" it is 4/7. *)
Theorem calculateSimilarity_formula (a b : jsstring) :
  let maxLen := Nat.max (length a) (length b) in
  let d := levenshteinDistance a b in
  0 < maxLen ->
  edit_distance a b d /\
  (calculateSimilarity a b
   == inject_Z (Z.of_nat maxLen - Z.of_nat d) / inject_Z (Z.of_nat maxLen))%Q /\
  (calculateSimilarity (js "kitten") (js "sitting") == 4 # 7)%Q.
Proof.
  intros maxLen d Hpos. split; [apply levenshteinDistance_edit_distance|].
  split; [|vm_compute; reflexivity].
  subst maxLen d. destruct a as [|x a].
  - rewrite calculateSimilarity_empty_l, levenshteinDistance_nil_l.
    cbn [length Nat.max]. now rewrite ratio_eq_0.
  - destruct b as [|y b].
    + rewrite calculateSimilarity_empty_r, levenshteinDistance_nil_r.
      rewrite Nat.max_0_r. now rewrite ratio_eq_0.
    + rewrite calculateSimilarity_nonempty by discriminate. reflexivity.
Qed.

(** The formula at "kitten" and "sitting": three edits over seven. *)
Lemma calculateSimilarity_formula_witness :
  edit_distance (js "kitten") (js "sitting") 3 /\
  (calculateSimilarity (js "kitten") (js "sitting")
   == inject_Z (7 - 3) / inject_Z 7)%Q /\
  (calculateSimilarity (js "kitten") (js "sitting") == 4 # 7)%Q.
Proof.
  apply (calculateSimilarity_formula (js "kitten") (js "sitting")).
  vm_compute. lia.
Defined.

(** ** The Reconciler and the Correction Applier of the specification *)

(** C5, at a failing input: the record "10K" and the raw event "Powered by
    Foo Bar" it refers to have the same normalized name, the empty string;
    the similarity computed is 0, not 1, and the round prints that no good
    match was found (it corrects nothing). *)
Theorem equal_empty_names_score_zero :
  let e := mkEvent (js "10K") (Some (link "123")) in
  currentEventIdOf e = Some (js "123") /\
  index_get sponsors (js "123") = Some (snd (raw "123" "Powered by Foo Bar")) /\
  normalizeEventName (name e)
    = normalizedName (snd (raw "123" "Powered by Foo Bar")) /\
  calculateSimilarity (normalizeEventName (name e))
    (normalizedName (snd (raw "123" "Powered by Foo Bar"))) = 0%Q /\
  fixFacebookLinks [e] sponsors
    = mkResult 0 [] [e]
        [LogNoGoodMatch 1 (js "10K") (js "123") (js "Powered by Foo Bar")]
        None None.
Proof. vm_compute. repeat split. Qed.

(** When the normalized names are equal the record is never corrected, and
    the similarity is 1 as soon as the common name is not empty. *)
Lemma equal_names_never_corrected idx i e st cid raw :
  currentEventIdOf e = Some cid -> index_get idx cid = Some raw ->
  normalizeEventName (name e) = normalizedName raw ->
  untouched idx i e st /\
  (normalizedName raw <> [] ->
   (calculateSimilarity (normalizeEventName (name e)) (normalizedName raw)
    == 1)%Q).
Proof.
  intros Hc Hg Heq. split.
  - destruct (normalizedName raw) as [|c t] eqn:En.
    + destruct (Qgeb (calculateSimilarity (normalizeEventName (name e)) [])
                  (7 # 10)) eqn:Hs.
      * unfold untouched, reconcile.
        rewrite Hc, (currentEventIdOf_nonempty _ Hc), Hg, En, Hs. cbn; auto.
      * assert (S : searched idx e cid raw).
        { repeat split; auto. rewrite En. now apply Qgeb_false. }
        pose proof (reconcile_searched i st S) as R.
        pose proof (findCorrectEventId_cases (name e) idx) as F.
        cbv zeta in F.
        destruct (findCorrectEventId (name e) idx) as [m|]; [|exact R].
        exfalso. destruct F as (k & x & _ & _ & Hfloor & _).
        unfold score in Hfloor. rewrite Heq in Hfloor.
        rewrite calculateSimilarity_empty_l in Hfloor. discriminate.
    + unfold untouched, reconcile.
      rewrite Hc, (currentEventIdOf_nonempty _ Hc), Hg, Heq, En.
      replace (Qgeb _ _) with true; [cbn; auto|].
      symmetry. apply Qgeb_true.
      rewrite calculateSimilarity_same by discriminate. discriminate.
  - intros Hne. rewrite Heq. now apply calculateSimilarity_same.
Qed.

(** The gate before the search: the record's current reference "1" scores
    14/15 and is accepted, so the search is not run and nothing is
    corrected, although the entry "2" scores 1. *)
Lemma accepted_reference_blocks_correction :
  let e := mkEvent (js "Dhaka City Run") (Some (link "1")) in
  currentEventIdOf e = Some (js "1") /\
  (exists m, findCorrectEventId (name e) twins = Some m /\
             matchEventId m = js "2" /\ matchEventId m <> js "1") /\
  fixFacebookLinks [e] twins = mkResult 0 [] [e] [] None None.
Proof.
  cbv zeta. split; [vm_compute; reflexivity|]. split.
  - eexists. split; [vm_compute; reflexivity|]. split; [reflexivity|discriminate].
  - vm_compute. reflexivity.
Qed.


(** C7, as the specification states it, fails: for the record "Unknown
    thing" no entry of the corpus passes the floor; the run leaves the
    record as it is, prints a line on the console, and writes no report at
    all, so that the record is absent from the audit log. *)
Lemma mismatch_absent_from_report :
  let e := mkEvent (js "Unknown thing") (Some (link "111")) in
  searched corpus e (js "111") (snd (raw "111" "Dhaka Half Marathon 2025")) /\
  findCorrectEventId (name e) corpus = None /\
  resFixes (fixFacebookLinks [e] corpus) = [] /\
  writtenReport (fixFacebookLinks [e] corpus) = None /\
  resEvents (fixFacebookLinks [e] corpus) = [e].
Proof. vm_compute. repeat split. Qed.

(** C7 (amended): for every catalog record for which the search finds no
    replacement above the floor, the run leaves the record's reference as it
    is (it is never cleared) and prints the "no good match" line on the
    console; the fixes report holds no entry for that record. *)
Theorem mismatch_left_and_printed
    (events : list event) (rawEventIndex : index)
    (k : nat) (e : event) (cid : jsstring) (raw : rawEvent) :
  nth_error events k = Some e ->
  searched rawEventIndex e cid raw ->
  findCorrectEventId (name e) rawEventIndex = None ->
  let run := fixFacebookLinks events rawEventIndex in
  nth_error (resEvents run) k = Some e /\
  In (LogNoGoodMatch (k + 1) (name e) cid (eventName raw)) (resConsole run) /\
  (forall f, In f (resFixes run) -> fixEventIndex f <> k + 1) /\
  (forall report f, writtenReport run = Some report -> In f report ->
                    fixEventIndex f <> k + 1).
Proof.
  intros Hk Hs Hf run.
  destruct (fixFacebookLinks_fields events rawEventIndex)
    as (Ev & Fx & _ & Co & Wr).
  fold run in Ev, Fx, Co, Wr.
  destruct (@fixLoop_no_candidate rawEventIndex events 0 (mkState 0 [] [])
              k e cid raw Hk Hs Hf) as (H1 & H2).
  assert (Hfix : forall f, In f (resFixes run) -> fixEventIndex f <> k + 1).
  { intros f Hin Hidx. rewrite Fx in Hin.
    apply fixLoop_fixes in Hin. destruct Hin as [[]|(k' & e' & m & Hk' & Hi & Hm)].
    assert (k' = k) by lia. subst k'.
    assert (e' = e) by congruence. subst e'. congruence. }
  rewrite Ev, Co. repeat split; auto.
  intros report f Hw Hin. apply Hfix. rewrite Wr in Hw.
  destruct (0 <? _); [|discriminate]. injection Hw as <-. now rewrite Fx.
Qed.

(** The amended C7 on the corpus of the examples: the second record. *)
Lemma mismatch_left_and_printed_witness :
  let run := fixFacebookLinks catalog corpus in
  let e := mkEvent (js "Unknown thing") (Some (link "111")) in
  nth_error (resEvents run) 1 = Some e /\
  In (LogNoGoodMatch 2 (name e) (js "111") (js "Dhaka Half Marathon 2025"))
     (resConsole run) /\
  (forall f, In f (resFixes run) -> fixEventIndex f <> 2) /\
  (forall report f, writtenReport run = Some report -> In f report ->
                    fixEventIndex f <> 2).
Proof.
  apply (@mismatch_left_and_printed catalog corpus 1
           (mkEvent (js "Unknown thing") (Some (link "111")))
           (js "111") (snd (raw "111" "Dhaka Half Marathon 2025"))).
  - reflexivity.
  - vm_compute. repeat split.
  - vm_compute. reflexivity.
Defined.

(** C9: a second run of [fixFacebookLinks], on the catalog the first run
    produced and with the same index of raw events, corrects nothing: its
    count is 0, its list of fixes is empty and the catalog stays as the
    first run left it. *)
Theorem second_run_fixes_nothing (events : list event) (rawEventIndex : index) :
  wf_index rawEventIndex ->
  let first := fixFacebookLinks events rawEventIndex in
  let second := fixFacebookLinks (resEvents first) rawEventIndex in
  resFixedCount second = 0 /\ resFixes second = [] /\
  resEvents second = resEvents first.
Proof.
  intros Hwf first second.
  destruct (fixFacebookLinks_fields events rawEventIndex) as (Ev & _).
  fold first in Ev.
  destruct (fixFacebookLinks_fields (resEvents first) rawEventIndex)
    as (Ev2 & Fx2 & Fc2 & _).
  fold second in Ev2, Fx2, Fc2. rewrite Ev2, Fx2, Fc2, Ev.
  destruct (@fixLoop_stable rawEventIndex events Hwf 0 (mkState 0 [] [])
              0 (mkState 0 [] [])) as (H1 & H2 & H3).
  auto.
Qed.

(** C9 on the catalog of the examples, whose first run fixes one link. *)
Lemma second_run_fixes_nothing_witness :
  resFixedCount (fixFacebookLinks catalog corpus) = 1 /\
  let first := fixFacebookLinks catalog corpus in
  let second := fixFacebookLinks (resEvents first) corpus in
  resFixedCount second = 0 /\ resFixes second = [] /\
  resEvents second = resEvents first.
Proof.
  split; [vm_compute; reflexivity|].
  apply (@second_run_fixes_nothing catalog corpus). split.
  - cbn. repeat constructor; cbn; intuition discriminate.
  - intros k v [H|[H|[]]]; injection H as <- <-; split;
      (discriminate || reflexivity).
Defined.

(** ** Reading the catalog *)

Import Json Catalog.

Lemma parseEventsJson_copies :
  FixLinks.parseEventsJson = CheckEvents.parseEventsJson.
Proof. reflexivity. Qed.

Lemma parseEventsJson_unfold JSON_parse content :
  CheckEvents.parseEventsJson JSON_parse (Some content)
  = asCatalog (match JSON_parse (prepared content) with
               | Some d => Some d
               | None => JSON_parse (cleanup (prepared content))
               end).
Proof. reflexivity. Qed.

Lemma trim_bom body : trim (65279%N :: body) = trim body.
Proof. reflexivity. Qed.

Lemma trimEnd_snoc s c : isWhiteSpace c = false -> trimEnd (s ++ [c]) = s ++ [c].
Proof.
  intros H. unfold trimEnd. rewrite rev_app_distr. cbn [rev app drop_while].
  rewrite H. cbn [rev]. now rewrite rev_involutive.
Qed.

Lemma trim_bracketed t : trim (js "[" ++ t ++ js "]") = js "[" ++ t ++ js "]".
Proof.
  unfold trim. change (trimStart (js "[" ++ t ++ js "]"))
    with (js "[" ++ t ++ js "]").
  rewrite app_assoc. now apply trimEnd_snoc.
Qed.

Lemma prepared_brace content :
  startsWith (trim content) (js "{") = true ->
  prepared content = js "[" ++ trim content ++ js "]" /\
  prepared (js "[" ++ trim content ++ js "]") = js "[" ++ trim content ++ js "]".
Proof.
  intros H. unfold prepared. rewrite trim_bracketed.
  destruct (trim content) as [|c t]; [discriminate|].
  cbn [startsWith js map list_ascii_of_string] in H.
  apply andb_true_iff in H. destruct H as [H _].
  apply N.eqb_eq in H. subst c. split; reflexivity.
Qed.

(** C8, at a failing input: a catalog that is valid but for one trailing
    comma, and in which a name holds a comma, a space and a closing bracket.
    Without the trailing comma the text parses to the record named "a, ]";
    with it the first parse fails, the repair removes the comma inside the
    name as well as the trailing one, and both copies of [parseEventsJson]
    return a record named "a]". *)
Theorem trailing_comma_repair_rewrites_names :
  Json.parse bracketName
    = Some (JArr [JObj [(js "name", JStr (js "a, ]"))]]) /\
  Json.parse bracketNameTrailing = None /\
  CheckEvents.parseEventsJson Json.parse (Some bracketNameTrailing)
    = inr [JObj [(js "name", JStr (js "a]"))]] /\
  FixLinks.parseEventsJson Json.parse (Some bracketNameTrailing)
    = inr [JObj [(js "name", JStr (js "a]"))]].
Proof. vm_compute. repeat split. Qed.

(** The two copies of [parseEventsJson] around [JSON.parse]: the text
    handed to it, the second attempt, and the three ways to fail.  A single
    record after a byte-order-mark and with a trailing comma is read as that
    record. *)
Lemma parseEventsJson_repairs (JSON_parse : jsstring -> option json) :
  FixLinks.parseEventsJson JSON_parse = CheckEvents.parseEventsJson JSON_parse /\
  (forall body,
     CheckEvents.parseEventsJson JSON_parse (Some (65279%N :: body))
     = CheckEvents.parseEventsJson JSON_parse (Some body)) /\
  (forall content,
     startsWith (trim content) (js "{") = true ->
     CheckEvents.parseEventsJson JSON_parse (Some content)
     = CheckEvents.parseEventsJson JSON_parse
         (Some (js "[" ++ trim content ++ js "]"))) /\
  (forall content,
     JSON_parse (prepared content) = None ->
     CheckEvents.parseEventsJson JSON_parse (Some content)
     = asCatalog (JSON_parse (cleanup (prepared content)))) /\
  (forall content d,
     JSON_parse (prepared content) = Some d ->
     CheckEvents.parseEventsJson JSON_parse (Some content)
     = asCatalog (Some d)) /\
  (forall file e,
     CheckEvents.parseEventsJson JSON_parse file = inl e <->
     (file = None /\ e = EventsJsonNotFound) \/
     (exists content,
        file = Some content /\
        ((e = FailedToParse /\ JSON_parse (prepared content) = None /\
          JSON_parse (cleanup (prepared content)) = None) \/
         (e = RootNotArray /\
          exists d, (JSON_parse (prepared content) = Some d \/
                     (JSON_parse (prepared content) = None /\
                      JSON_parse (cleanup (prepared content)) = Some d)) /\
                    forall items, d <> JArr items)))) /\
  CheckEvents.parseEventsJson Json.parse (Some bomObjectTrailing)
    = inr [JObj [(js "name", JStr (js "a"))]].
Proof.
  split; [reflexivity|].
  split; [intros body; rewrite !parseEventsJson_unfold; unfold prepared;
          now rewrite trim_bom|].
  split.
  { intros content H. rewrite !parseEventsJson_unfold.
    destruct (prepared_brace content H) as [-> ->]. reflexivity. }
  split; [intros content H; rewrite parseEventsJson_unfold; now rewrite H|].
  split; [intros content d H; rewrite parseEventsJson_unfold; now rewrite H|].
  split; [|vm_compute; reflexivity].
  intros file e. destruct file as [content|].
  2:{ cbn. split.
      - intros H. left. split; [reflexivity|congruence].
      - intros [[_ ->]|(c & Hc & _)]; [reflexivity|discriminate]. }
  rewrite parseEventsJson_unfold. split.
  - intros H. right. exists content. split; [reflexivity|].
    destruct (JSON_parse (prepared content)) as [d|] eqn:E1.
    + right. destruct d; cbn in H; try discriminate;
        (split; [congruence|]); eexists; (split; [left; reflexivity|]);
        intros items; discriminate.
    + destruct (JSON_parse (cleanup (prepared content))) as [d|] eqn:E2.
      * right. destruct d; cbn in H; try discriminate;
          (split; [congruence|]); eexists;
          (split; [right; split; reflexivity|]); intros items; discriminate.
      * left. cbn in H. split; [congruence|]. split; reflexivity.
  - intros [[Hc _]|(c & Hc & H)]; [discriminate|].
    injection Hc as <-.
    destruct H as [(-> & E1 & E2)|(-> & d & [E1|[E1 E2]] & Hd)].
    + now rewrite E1, E2.
    + rewrite E1. destruct d; try reflexivity. exfalso. now apply (Hd items).
    + rewrite E1, E2. destruct d; try reflexivity. exfalso. now apply (Hd items).
Qed.

Import CheckEvents.

(** ** The consistency checker *)

Lemma set_has_In s x : set_has s x = true <-> In x s.
Proof.
  unfold set_has. rewrite existsb_exists. split.
  - intros (y & Hy & E). apply jseqb_eq in E. now subst.
  - intros H. exists x. split; [assumption|apply jseqb_refl].
Qed.

Lemma set_add_In s x y : In y (set_add s x) <-> In y s \/ y = x.
Proof.
  unfold set_add. destruct (set_has s x) eqn:E.
  - apply set_has_In in E. split; [now left|]. intros [H| ->]; assumption.
  - rewrite in_app_iff. cbn. intuition.
Qed.

Lemma set_add_NoDup s x : NoDup s -> NoDup (set_add s x).
Proof.
  intros H. unfold set_add. destruct (set_has s x) eqn:E; [assumption|].
  apply NoDup_app; [assumption|repeat constructor; intros []|].
  intros y Hy [<-|[]]. apply set_has_In in Hy. congruence.
Qed.

Lemma fold_set_add_In l : forall s y,
  In y (fold_left set_add l s) <-> In y s \/ In y l.
Proof.
  induction l as [|x l IH]; intros s y; cbn [fold_left].
  - cbn. tauto.
  - rewrite IH, set_add_In. cbn. intuition.
Qed.

Lemma fold_set_add_NoDup l : forall s, NoDup s -> NoDup (fold_left set_add l s).
Proof.
  induction l as [|x l IH]; intros s H; cbn [fold_left]; [assumption|].
  apply IH, set_add_NoDup, H.
Qed.

(** The sort is a permutation. *)
Lemma insert_by_perm (A : Type) (leb : A -> A -> bool) x l :
  Permutation (insert_by leb x l) (x :: l).
Proof.
  induction l as [|y l IH]; cbn [insert_by]; [reflexivity|].
  destruct (leb x y); [reflexivity|].
  rewrite IH. apply perm_swap.
Qed.

Lemma sort_by_perm (A : Type) (leb : A -> A -> bool) l :
  Permutation (sort_by leb l) l.
Proof.
  induction l as [|x l IH]; cbn; [reflexivity|].
  rewrite insert_by_perm. now constructor.
Qed.

Lemma sort_by_In (A : Type) (leb : A -> A -> bool) l x :
  In x (sort_by leb l) <-> In x l.
Proof.
  split; apply Permutation_in; [|symmetry]; apply sort_by_perm.
Qed.

Lemma map_get_set m k v k' :
  map_get (map_set m k v) k' = if jseqb k' k then Some v else map_get m k'.
Proof.
  induction m as [|[k0 v0] m IH]; cbn [map_set map_get].
  - reflexivity.
  - destruct (jseqb k k0) eqn:E.
    + apply jseqb_eq in E. subst k0. cbn [map_get].
      destruct (jseqb k' k); reflexivity.
    + cbn [map_get]. rewrite IH. destruct (jseqb k' k0) eqn:E0; [|reflexivity].
      apply jseqb_eq in E0. subst k0.
      destruct (jseqb k' k) eqn:E1; [|reflexivity].
      apply jseqb_eq in E1. subst k'. rewrite jseqb_refl in E. discriminate.
Qed.

Lemma map_get_None_keys m k : map_get m k = None <-> ~ In k (map fst m).
Proof.
  induction m as [|[k0 v0] m IH]; cbn [map_get map fst]; [cbn; tauto|].
  destruct (jseqb k k0) eqn:E.
  - apply jseqb_eq in E. subst. split; [discriminate|]. intros H. exfalso.
    apply H. now left.
  - apply jseqb_neq in E. rewrite IH. cbn. intuition congruence.
Qed.

Lemma map_set_keys m k v :
  map fst (map_set m k v)
  = match map_get m k with
    | Some _ => map fst m
    | None => map fst m ++ [k]
    end.
Proof.
  induction m as [|[k0 v0] m IH]; cbn [map_set map_get map fst app];
    [reflexivity|].
  destruct (jseqb k k0) eqn:E; [reflexivity|].
  cbn [map fst]. rewrite IH. destruct (map_get m k); reflexivity.
Qed.

Lemma map_get_In m k v :
  NoDup (map fst m) -> (In (k, v) m <-> map_get m k = Some v).
Proof.
  induction m as [|[k0 v0] m IH]; intros Hnd; cbn [map_get];
    [split; [intros []|discriminate]|].
  cbn [map fst] in Hnd. inversion Hnd as [|? ? Hnotin Hnd']; subst.
  destruct (jseqb k k0) eqn:E.
  - apply jseqb_eq in E. subst k0. split.
    + intros [H|H]; [congruence|].
      exfalso. apply Hnotin. apply (in_map fst) in H. exact H.
    + intros H. left. congruence.
  - apply jseqb_neq in E. rewrite <- (IH Hnd'). cbn. intuition congruence.
Qed.

Lemma count_occ_snoc l (id x : jsstring) :
  count_occ jsstring_eq_dec (l ++ [id]) x
  = count_occ jsstring_eq_dec l x + (if jseqb x id then 1 else 0).
Proof.
  rewrite count_occ_app. cbn [count_occ].
  destruct (jsstring_eq_dec id x) as [->|Hne].
  - now rewrite jseqb_refl.
  - replace (jseqb x id) with false; [reflexivity|].
    symmetry. apply jseqb_neq. congruence.
Qed.

Lemma extractStep_counts acc evt :
  counts_of (fst acc) (snd acc) ->
  counts_of (fst (extractStep acc evt)) (snd (extractStep acc evt)).
Proof.
  destruct acc as [allIds occ]. intros Inv. unfold extractStep.
  destruct (negb (truthy evt) || negb (isObject evt)); [exact Inv|].
  destruct (orElse _ _) as [[| | |link| |]|]; try exact Inv.
  destruct (idOfLink link) as [id|]; [|exact Inv].
  destruct Inv as [Hnd Hget]. cbn [fst snd] in *. split.
  - rewrite map_set_keys. destruct (map_get occ id) eqn:E; [assumption|].
    apply NoDup_app; [assumption|repeat constructor; intros []|].
    intros y Hy [<-|[]]. apply map_get_None_keys in E. contradiction.
  - intros x. rewrite map_get_set, count_occ_snoc.
    destruct (jseqb x id) eqn:E.
    + apply jseqb_eq in E. subst x. rewrite (Hget id).
      destruct (count_occ jsstring_eq_dec allIds id) as [|n]; cbn;
        [reflexivity|]. now rewrite Nat.add_1_r.
    + rewrite Nat.add_0_r. apply Hget.
Qed.

Lemma extractIdsFromEvents_counts events :
  counts_of (fst (extractIdsFromEvents events))
            (snd (extractIdsFromEvents events)).
Proof.
  unfold extractIdsFromEvents.
  assert (G : forall acc, counts_of (fst acc) (snd acc) ->
            counts_of (fst (fold_left extractStep events acc))
                      (snd (fold_left extractStep events acc))).
  { induction events as [|evt events IH]; intros acc Inv; [exact Inv|].
    cbn [fold_left]. apply IH, extractStep_counts, Inv. }
  apply G. split; [constructor|]. intros id. reflexivity.
Qed.

Lemma NoDup_map_fst_filter (A B : Type) (f : A * B -> bool) l :
  NoDup (map fst l) -> NoDup (map fst (filter f l)).
Proof.
  induction l as [|x l IH]; intros H; cbn [filter map]; [constructor|].
  cbn [map] in H. inversion H as [|? ? Hnotin Hnd]; subst.
  destruct (f x); [|now apply IH].
  cbn [map]. constructor; [|now apply IH].
  intros Hin. apply Hnotin. apply in_map_iff in Hin.
  destruct Hin as (y & Hy & Hin). apply filter_In in Hin.
  apply in_map_iff. exists y. tauto.
Qed.



(** C4: [analyze] computes [missingInEventsJson] as exactly the ids of the
    raw corpus that are absent from the ids extracted from the catalog,
    [missingRawFiles] as exactly the extracted ids absent from the raw
    corpus, and [duplicates] as exactly the ids that more than one catalog
    record refers to, each once and with its number of occurrences.  On
    catalog ids 1, 2, 3 and raw files 2, 3, 4 the two lists are [4] and [1];
    two records that refer to 555 give the one duplicate (555, 2). *)
Theorem analyze_sets :
  (forall (JSON_parse : jsstring -> option json)
          (dir : option (list jsstring)) (file : option jsstring)
          (rawIds : list jsstring) (events : list json),
     readRawEventIds dir = inr rawIds ->
     parseEventsJson JSON_parse file = inr events ->
     let eventIds := fst (extractIdsFromEvents events) in
     exists r,
       analyze JSON_parse dir file = inr r /\
       (forall id, In id (missingInEventsJson r)
                   <-> In id rawIds /\ ~ In id eventIds) /\
       (forall id, In id (missingRawFiles r)
                   <-> In id eventIds /\ ~ In id rawIds) /\
       (forall id c, In (id, c) (duplicates r)
                     <-> c = count_occ jsstring_eq_dec eventIds id /\ 1 < c) /\
       NoDup (map fst (duplicates r))) /\
  (exists r,
     analyze Json.parse (Some [js "2.txt"; js "3.txt"; js "4.txt"])
       (Some catalog123) = inr r /\
     missingInEventsJson r = [js "4"] /\ missingRawFiles r = [js "1"] /\
     duplicates r = []) /\
  (exists r,
     analyze Json.parse (Some [js "555.txt"]) (Some catalog555) = inr r /\
     duplicates r = [(js "555", 2)]).
Proof.
  split; [|split; eexists; (split; [vm_compute; reflexivity|]);
            repeat split].
  intros JSON_parse dir file rawIds events Hraw Hparse eventIds.
  unfold analyze. rewrite Hraw, Hparse. eexists. split; [reflexivity|].
  unfold analyzeIds.
  pose proof (extractIdsFromEvents_counts events) as [Hnd Hget].
  subst eventIds.
  destruct (extractIdsFromEvents events) as [eventIds occ].
  cbn [fst snd missingInEventsJson missingRawFiles duplicates] in *.
  assert (Hset : forall id, set_has (fold_left set_add eventIds []) id = true
                            <-> In id eventIds).
  { intros id. rewrite set_has_In, fold_set_add_In. cbn. tauto. }
  split; [|split; [|split]].
  - intros id. rewrite sort_by_In, filter_In, negb_true_iff.
    rewrite <- Hset. destruct (set_has _ id); intuition congruence.
  - intros id. rewrite sort_by_In, filter_In, negb_true_iff.
    rewrite fold_set_add_In, <- (set_has_In rawIds id). cbn.
    destruct (set_has rawIds id); intuition congruence.
  - intros id c. rewrite sort_by_In, filter_In. cbn [snd].
    rewrite (@map_get_In occ id c Hnd), Hget, Nat.ltb_lt.
    destruct (count_occ jsstring_eq_dec eventIds id);
      intuition (try congruence; try lia).
  - eapply Permutation_NoDup.
    + apply Permutation_map. symmetry. apply sort_by_perm.
    + now apply NoDup_map_fst_filter.
Qed.

Unset Implicit Arguments.

(** ** Replacing matches *)

Lemma drop_while_split p s : exists m, s = m ++ drop_while p s.
Proof.
  induction s as [|c s [m IH]]; cbn [drop_while]; [now exists []|].
  destruct (p c); [|now exists []].
  exists (c :: m). cbn. now rewrite <- IH.
Qed.

Lemma skipn_sub_drop_while p s :
  skipn (length s - length (drop_while p s)) s = drop_while p s.
Proof.
  induction s as [|c s IH]; cbn [drop_while]; [reflexivity|].
  destruct (p c).
  - pose proof (drop_while_length p s).
    replace (length (c :: s) - length (drop_while p s))
      with (S (length s - length (drop_while p s))) by (cbn [length]; lia).
    exact IH.
  - now rewrite Nat.sub_diag.
Qed.

Lemma unmatched_tail r c s : unmatched r (c :: s) -> unmatched r s.
Proof. intros H k. exact (H (S k)). Qed.

Lemma unmatched_head r s : unmatched r s -> r s = None.
Proof. intros H. exact (H 0). Qed.

Lemma replace_first_unmatched r repl s :
  unmatched r s -> replace_first r repl s = s.
Proof.
  induction s as [|c s IH]; intros H; cbn [replace_first]; unfold match_len;
    rewrite (unmatched_head _ _ H); [reflexivity|].
  f_equal. apply IH. eapply unmatched_tail, H.
Qed.

Lemma replace_all_unmatched r repl s :
  unmatched r s -> replace_all_by r repl s = s.
Proof.
  unfold replace_all_by.
  induction s as [|c s IH]; intros H; cbn [replace_all_from]; unfold match_len;
    rewrite (unmatched_head _ _ H); [reflexivity|].
  f_equal. apply IH. eapply unmatched_tail, H.
Qed.

Lemma replace_all_from_skip r repl k : forall s,
  k <= length s ->
  replace_all_from r repl k s = replace_all_from r repl 0 (skipn k s).
Proof.
  induction k as [|k IH]; intros s Hk; [reflexivity|].
  destruct s as [|c s]; [cbn in Hk; lia|].
  cbn [replace_all_from skipn]. apply IH. cbn in Hk. lia.
Qed.

Lemma match_len_class p c s :
  match_len (rx_class p) (c :: s) = if p c then Some 1 else None.
Proof.
  unfold match_len, rx_class. destruct (p c); [|reflexivity].
  f_equal. cbn [length]. lia.
Qed.

Lemma match_len_plus p c s :
  match_len (rx_plus p) (c :: s)
  = if p c then Some (S (length s - length (drop_while p s))) else None.
Proof.
  unfold match_len, rx_plus, rx_seq, rx_class, rx_star.
  destruct (p c); [|reflexivity].
  pose proof (drop_while_length p s). f_equal. cbn [length]. lia.
Qed.

(** [/[|]/g]: the characters of the class are filtered out. *)
Lemma replace_all_class p s :
  replace_all (rx_class p) [] s = filter (fun c => negb (p c)) s.
Proof.
  unfold replace_all, replace_all_by.
  induction s as [|c s IH]; [reflexivity|].
  cbn [replace_all_from filter]. rewrite match_len_class.
  destruct (p c); cbn [negb app]; [exact IH|now rewrite IH].
Qed.

(** [/\s+/g]: an unfolding of the replacement, run by run. *)
Lemma replace_all_plus_cons p repl c s :
  replace_all (rx_plus p) repl (c :: s)
  = if p c then repl ++ replace_all (rx_plus p) repl (drop_while p s)
    else c :: replace_all (rx_plus p) repl s.
Proof.
  unfold replace_all, replace_all_by. cbn [replace_all_from].
  rewrite match_len_plus. destruct (p c); [|reflexivity].
  pose proof (drop_while_length p s).
  f_equal. rewrite replace_all_from_skip by lia.
  now rewrite skipn_sub_drop_while.
Qed.

Lemma replace_all_plus_nil p repl : replace_all (rx_plus p) repl [] = [].
Proof. reflexivity. Qed.

Lemma drop_while_head p s d t : drop_while p s = d :: t -> p d = false.
Proof.
  induction s as [|c s IH]; cbn [drop_while]; [discriminate|].
  destruct (p c) eqn:E; [exact IH|]. intros H. injection H as <- _. exact E.
Qed.

Lemma drop_while_id p s :
  match s with [] => True | d :: _ => p d = false end -> drop_while p s = s.
Proof. destruct s as [|d s]; cbn; [reflexivity|]. now intros ->. Qed.

Lemma drop_while_Forall (Q : N -> Prop) p s :
  Forall Q s -> Forall Q (drop_while p s).
Proof.
  destruct (drop_while_split p s) as [m Hm]. intros H.
  rewrite Hm in H. now apply Forall_app in H.
Qed.

(** *** White space collapsed *)

Section Collapse.

Local Abbreviation collapse := (replace_all (rx_plus isWhiteSpace) (js " ")).

Lemma collapse_Forall (Q : N -> Prop) n : forall s,
  length s <= n -> Q 32%N -> Forall Q s -> Forall Q (collapse s).
Proof.
  induction n as [|n IH]; intros s Hn Hsp Hs.
  - destruct s; [constructor|cbn in Hn; lia].
  - destruct s as [|c s]; [constructor|]. rewrite replace_all_plus_cons.
    inversion Hs as [|? ? Hc Hs']; subst. cbn [length] in Hn.
    destruct (isWhiteSpace c).
    + cbn [js map list_ascii_of_string app]. constructor; [exact Hsp|].
      apply IH; [|assumption|now apply drop_while_Forall].
      pose proof (drop_while_length isWhiteSpace s). lia.
    + constructor; [assumption|]. apply IH; [lia|assumption|assumption].
Qed.

Lemma collapse_ws_normal n : forall s, length s <= n -> ws_normal (collapse s).
Proof.
  induction n as [|n IH]; intros s Hn.
  - destruct s; [exact I|cbn in Hn; lia].
  - destruct s as [|c s]; [exact I|]. rewrite replace_all_plus_cons.
    cbn [length] in Hn. destruct (isWhiteSpace c) eqn:Ec.
    + cbn [js map list_ascii_of_string app ws_normal]. split.
      * intros _. split; [reflexivity|].
        destruct (drop_while isWhiteSpace s) as [|d t] eqn:Ed; [exact I|].
        assert (Hd : isWhiteSpace d = false)
          by (eapply drop_while_head; exact Ed).
        rewrite replace_all_plus_cons, Hd. exact Hd.
      * apply IH. pose proof (drop_while_length isWhiteSpace s). lia.
    + cbn [ws_normal]. split; [congruence|]. apply IH. lia.
Qed.

Lemma collapse_fixed s : ws_normal s -> collapse s = s.
Proof.
  induction s as [|c s IH]; intros H; [reflexivity|].
  rewrite replace_all_plus_cons. cbn [ws_normal] in H. destruct H as [Hc Hs].
  destruct (isWhiteSpace c).
  - destruct (Hc eq_refl) as [-> Hd]. rewrite (drop_while_id _ _ Hd).
    cbn [js map list_ascii_of_string app]. f_equal. now apply IH.
  - f_equal. now apply IH.
Qed.

End Collapse.

(** *** Substrings *)

Lemma ws_normal_suffix m s : ws_normal (m ++ s) -> ws_normal s.
Proof.
  induction m as [|c m IH]; [trivial|]. intros H.
  change (ws_normal (c :: (m ++ s))) in H. apply IH. exact (proj2 H).
Qed.

Lemma ws_normal_prefix s t : ws_normal (s ++ t) -> ws_normal s.
Proof.
  induction s as [|c s IH]; [intros _; exact I|]. intros H.
  change (ws_normal (c :: (s ++ t))) in H. destruct H as [Hc H].
  split; [|now apply IH].
  intros E. destruct (Hc E) as [-> Hd]. split; [reflexivity|].
  destruct s; [exact I|exact Hd].
Qed.

Lemma ws_normal_no_terminator s :
  ws_normal s -> Forall (fun c => isLineTerminator c = false) s.
Proof.
  induction s as [|c s IH]; intros H; [constructor|].
  cbn [ws_normal] in H. destruct H as [Hc Hs]. constructor; [|now apply IH].
  destruct (isWhiteSpace c) eqn:E.
  - now destruct (Hc eq_refl) as [-> _].
  - unfold isLineTerminator. unfold isWhiteSpace in E.
    repeat (apply orb_false_iff in E; destruct E as [E ?]).
    apply andb_false_iff in E.
    destruct (c =? 10)%N eqn:E10;
      [apply N.eqb_eq in E10; subst; destruct E as [E|E]; discriminate|].
    destruct (c =? 13)%N eqn:E13;
      [apply N.eqb_eq in E13; subst; destruct E as [E|E]; discriminate|].
    cbn [orb]. apply orb_false_iff. split; assumption.
Qed.

(** *** Literals *)

Lemma hasDigit_false s :
  hasDigit s = false <-> Forall (fun c => isDigit c = false) s.
Proof.
  unfold hasDigit. induction s as [|c s IH]; cbn [existsb].
  - split; [constructor|reflexivity].
  - rewrite orb_false_iff, IH. split.
    + intros [H1 H2]. now constructor.
    + intros H. inversion H. auto.
Qed.


Lemma rx_lit_i_match pat : forall s r,
  rx_lit_i pat s = Some r <-> exists m, s = m ++ r /\ lit_match pat m.
Proof.
  unfold lit_match.
  induction pat as [|p pat IH]; intros s r; cbn [rx_lit_i].
  - unfold rx_eps. split.
    + intros H. injection H as <-. exists []. split; [reflexivity|constructor].
    + intros (m & -> & Hm). inversion Hm. reflexivity.
  - unfold rx_seq, rx_class. destruct s as [|c s].
    + split; [discriminate|]. intros (m & Hs & Hm).
      inversion Hm; subst. discriminate.
    + destruct (canonicalize c =? canonicalize p)%N eqn:E.
      * apply N.eqb_eq in E. rewrite IH. split.
        -- intros (m & -> & Hm). exists (c :: m). split; [reflexivity|].
           now constructor.
        -- intros (m & Hs & Hm). inversion Hm as [|c' ? m' ? Hc Hm']; subst.
           injection Hs as <- ->. now exists m'.
      * apply N.eqb_neq in E. split; [discriminate|].
        intros (m & Hs & Hm). inversion Hm as [|c' ? m' ? Hc Hm']; subst.
        injection Hs as <- ->. contradiction.
Qed.

Lemma rx_lit_i_app pat s r t :
  rx_lit_i pat s = Some r -> rx_lit_i pat (s ++ t) = Some (r ++ t).
Proof.
  rewrite !rx_lit_i_match. intros (m & -> & Hm). exists m.
  now rewrite app_assoc.
Qed.

Lemma rx_lit_i_Forall (Q : N -> Prop) pat s r :
  rx_lit_i pat s = Some r -> Forall Q s -> Forall Q r.
Proof.
  rewrite rx_lit_i_match. intros (m & -> & _) H. now apply Forall_app in H.
Qed.

Lemma unmatched_suffix r m s : unmatched r (m ++ s) -> unmatched r s.
Proof.
  intros H k. specialize (H (length m + k)).
  rewrite skipn_app in H.
  rewrite skipn_all2 in H by lia.
  replace (length m + k - length m) with k in H by lia. exact H.
Qed.

Lemma unmatched_lit_prefix pat s t :
  pat <> [] ->
  unmatched (rx_lit_i pat) (s ++ t) -> unmatched (rx_lit_i pat) s.
Proof.
  intros Hp H k. destruct (rx_lit_i pat (skipn k s)) as [r|] eqn:E;
    [|reflexivity].
  exfalso. destruct (Nat.le_gt_cases (length s) k) as [Hk|Hk].
  - rewrite skipn_all2 in E by assumption.
    destruct pat; [congruence|]. discriminate.
  - specialize (H k). rewrite skipn_app in H.
    replace (k - length s) with 0 in H by lia. cbn [skipn] in H.
    rewrite (rx_lit_i_app _ _ _ t E) in H. discriminate.
Qed.

(** *** Cutting at a phrase *)

Lemma cut_at_prefix pat s : exists t, s = cut_at pat s ++ t.
Proof.
  induction s as [|c s [t IH]]; cbn [cut_at].
  - exists []. now destruct (rx_lit_i pat []).
  - destruct (rx_lit_i pat (c :: s)); [now exists (c :: s)|].
    exists t. cbn. now rewrite <- IH.
Qed.

Lemma cut_at_unmatched pat s :
  pat <> [] -> unmatched (rx_lit_i pat) (cut_at pat s).
Proof.
  intros Hp. induction s as [|c s IH]; cbn [cut_at].
  - assert (E : rx_lit_i pat [] = None)
      by (destruct pat; [congruence|reflexivity]).
    rewrite E. intros k. now destruct k.
  - destruct (rx_lit_i pat (c :: s)) eqn:E.
    + intros k. destruct k; cbn [skipn];
        (destruct pat; [congruence|reflexivity]).
    + intros [|k]; [|exact (IH k)]. cbn [skipn].
      destruct (rx_lit_i pat (c :: cut_at pat s)) as [r|] eqn:E'; [|reflexivity].
      exfalso. destruct (cut_at_prefix pat s) as [t Ht].
      apply (rx_lit_i_app _ _ _ t) in E'. cbn [app] in E'.
      rewrite <- Ht in E'. congruence.
Qed.

Lemma cut_at_fixed pat s : unmatched (rx_lit_i pat) s -> cut_at pat s = s.
Proof.
  induction s as [|c s IH]; intros H; cbn [cut_at];
    rewrite (unmatched_head _ _ H); [reflexivity|].
  f_equal. apply IH. eapply unmatched_tail, H.
Qed.

(** [/phrase.*$/i] replaced by nothing: the string is cut at the phrase. *)
Lemma replace_first_phrase pat s :
  Forall (fun c => isLineTerminator c = false) s ->
  replace_first (rx_seq (rx_lit_i pat) (rx_seq rx_dot_star rx_eoi)) [] s
  = cut_at pat s.
Proof.
  induction s as [|c s IH]; intros H; cbn [replace_first cut_at];
    unfold match_len, rx_seq at 1.
  - destruct (rx_lit_i pat []) as [r|] eqn:E; [|reflexivity].
    apply rx_lit_i_match in E. destruct E as (m & Hm & _).
    symmetry in Hm. apply app_eq_nil in Hm. destruct Hm as [_ ->].
    reflexivity.
  - destruct (rx_lit_i pat (c :: s)) as [r|] eqn:E.
    + assert (Hr : Forall (fun c => isLineTerminator c = false) r)
        by (eapply rx_lit_i_Forall; eassumption).
      unfold rx_seq, rx_dot_star, rx_star.
      rewrite drop_while_all; [cbn [rx_eoi length]|].
      * rewrite Nat.sub_0_r. cbn [app]. apply skipn_all.
      * apply forallb_forall. intros x Hx.
        rewrite Forall_forall in Hr. now rewrite (Hr x Hx).
    + f_equal. apply IH. now inversion H.
Qed.

(** *** Trimming *)

Lemma drop_while_idem p s : drop_while p (drop_while p s) = drop_while p s.
Proof.
  induction s as [|c s IH]; cbn [drop_while]; [reflexivity|].
  destruct (p c) eqn:E; [exact IH|]. cbn [drop_while]. now rewrite E.
Qed.

Lemma drop_while_keep p l c t :
  p c = false -> exists l', drop_while p (l ++ c :: t) = l' ++ c :: t.
Proof.
  intros Hc. induction l as [|a l [l' IH]]; cbn [app drop_while].
  - exists []. now rewrite Hc.
  - destruct (p a); [now exists l'|now exists (a :: l)].
Qed.

Lemma trimEnd_keep a c r :
  isWhiteSpace c = false -> exists r', trimEnd (a ++ c :: r) = a ++ c :: r'.
Proof.
  intros Hc. unfold trimEnd. rewrite rev_app_distr. cbn [rev].
  rewrite <- app_assoc. cbn [app].
  destruct (drop_while_keep isWhiteSpace (rev r) c (rev a) Hc) as [l' ->].
  exists (rev l'). rewrite rev_app_distr. cbn [rev].
  rewrite rev_involutive, <- app_assoc. reflexivity.
Qed.

Lemma trimEnd_prefix s : exists t, s = trimEnd s ++ t.
Proof.
  unfold trimEnd. destruct (drop_while_split isWhiteSpace (rev s)) as [m Hm].
  exists (rev m). rewrite <- rev_app_distr, <- Hm. now rewrite rev_involutive.
Qed.

Lemma trimEnd_idem s : trimEnd (trimEnd s) = trimEnd s.
Proof. unfold trimEnd. now rewrite rev_involutive, drop_while_idem. Qed.

Lemma trimStart_trimEnd s :
  trimStart s = s -> trimStart (trimEnd s) = trimEnd s.
Proof.
  intros H. destruct s as [|c s]; [reflexivity|].
  unfold trimStart in H. cbn [drop_while] in H.
  destruct (isWhiteSpace c) eqn:E.
  - exfalso. pose proof (drop_while_length isWhiteSpace s) as L.
    rewrite H in L. cbn in L. lia.
  - destruct (trimEnd_keep [] c s E) as [r' Hr]. cbn [app] in Hr.
    rewrite Hr. unfold trimStart. cbn [drop_while]. now rewrite E.
Qed.

Lemma trim_idem s : trim (trim s) = trim s.
Proof.
  unfold trim. rewrite trimStart_trimEnd.
  - apply trimEnd_idem.
  - apply drop_while_idem.
Qed.

Lemma trim_substring s : exists a b, s = a ++ trim s ++ b.
Proof.
  unfold trim. destruct (drop_while_split isWhiteSpace s) as [a Ha].
  destruct (trimEnd_prefix (trimStart s)) as [b Hb].
  exists a, b. unfold trimStart in *. now rewrite <- Hb.
Qed.



(** *** Lower case and digits *)

Lemma lowerUnit_idem c : lowerUnit (lowerUnit c) = lowerUnit c.
Proof.
  unfold lowerUnit.
  destruct ((65 <=? c) && (c <=? 90))%N eqn:E.
  - apply andb_true_iff in E. destruct E as [E1 E2].
    apply N.leb_le in E1, E2.
    replace ((65 <=? c + 32) && (c + 32 <=? 90))%N with false; [reflexivity|].
    symmetry. apply andb_false_iff. right. apply N.leb_gt. lia.
  - now rewrite E.
Qed.

Lemma lowerUnit_digit c : isDigit (lowerUnit c) = isDigit c.
Proof.
  unfold lowerUnit, isDigit.
  destruct ((65 <=? c) && (c <=? 90))%N eqn:E; [|reflexivity].
  apply andb_true_iff in E. destruct E as [E1 E2]. apply N.leb_le in E1, E2.
  replace (c + 32 <=? 57)%N with false by (symmetry; apply N.leb_gt; lia).
  replace (c <=? 57)%N with false by (symmetry; apply N.leb_gt; lia).
  now rewrite !andb_false_r.
Qed.

Lemma toLowerCase_fixed s :
  Forall (fun c => lowerUnit c = c) s -> toLowerCase s = s.
Proof.
  unfold toLowerCase. induction 1 as [|c s Hc _ IH]; cbn [map];
    [reflexivity|]. now rewrite Hc, IH.
Qed.

Lemma Forall_skipn (Q : N -> Prop) k (s : jsstring) :
  Forall Q s -> Forall Q (skipn k s).
Proof.
  intros H. rewrite <- (firstn_skipn k s) in H. now apply Forall_app in H.
Qed.

Lemma rx_plus_digit_free s :
  Forall (fun c => isDigit c = false) s -> rx_plus isDigit s = None.
Proof.
  intros H. unfold rx_plus, rx_seq, rx_class. destruct s as [|c s];
    [reflexivity|]. inversion H as [|? ? Hc _]; subst. now rewrite Hc.
Qed.

(** The patterns that need a digit match nowhere in a string without one. *)
Lemma unmatched_digits_first s (rest : rx) :
  Forall (fun c => isDigit c = false) s ->
  unmatched (rx_seq (rx_plus isDigit) rest) s.
Proof.
  intros H k. unfold rx_seq at 1.
  now rewrite (rx_plus_digit_free _ (Forall_skipn _ k s H)).
Qed.

Lemma unmatched_word_digits pat s :
  Forall (fun c => isDigit c = false) s ->
  unmatched (rx_seq (rx_lit_i pat)
               (rx_seq (rx_star isWhiteSpace) (rx_plus isDigit))) s.
Proof.
  intros H k. unfold rx_seq at 1.
  destruct (rx_lit_i pat (skipn k s)) as [r|] eqn:E; [|reflexivity].
  unfold rx_seq, rx_star. apply rx_plus_digit_free.
  apply drop_while_Forall. eapply rx_lit_i_Forall; [exact E|].
  now apply Forall_skipn.
Qed.

Lemma unmatched_four_digits s :
  Forall (fun c => isDigit c = false) s -> unmatched (rx_count 4 isDigit) s.
Proof.
  intros H k. pose proof (Forall_skipn _ k s H) as Hk.
  cbn [rx_count]. unfold rx_seq at 1. unfold rx_class at 1.
  destruct (skipn k s) as [|c t]; [reflexivity|].
  inversion Hk as [|? ? Hc _]; subst. now rewrite Hc.
Qed.

(** *** The two normalizers on a name without digits *)

Lemma tidy_parts s :
  tidy s ->
  Forall (fun c => lowerUnit c = c) s /\
  Forall (fun c => (124 =? c)%N = false) s /\
  Forall (fun c => isDigit c = false) s /\
  Forall (fun c => isLineTerminator c = false) s /\
  ws_normal s.
Proof.
  intros [H W]. repeat split; try assumption;
    try (eapply Forall_impl; [|exact H]; cbn; tauto).
  now apply ws_normal_no_terminator.
Qed.

Lemma tidy_prefix s t : tidy (s ++ t) -> tidy s.
Proof.
  intros [H W]. split; [now apply Forall_app in H|].
  eapply ws_normal_prefix, W.
Qed.

Lemma tidy_suffix m s : tidy (m ++ s) -> tidy s.
Proof.
  intros [H W]. split; [now apply Forall_app in H|].
  eapply ws_normal_suffix, W.
Qed.

Lemma tidy_cut pat s : tidy s -> tidy (cut_at pat s).
Proof.
  intros H. destruct (cut_at_prefix pat s) as [t Ht]. rewrite Ht in H.
  eapply tidy_prefix, H.
Qed.

Lemma tidy_trim s : tidy s -> tidy (trim s).
Proof.
  intros H. destruct (trim_substring s) as (a & b & Hs). rewrite Hs in H.
  eapply tidy_prefix, tidy_suffix, H.
Qed.

Lemma unmatched_lit_trim pat s :
  pat <> [] ->
  unmatched (rx_lit_i pat) s -> unmatched (rx_lit_i pat) (trim s).
Proof.
  intros Hp H. destruct (trim_substring s) as (a & b & Hs). rewrite Hs in H.
  eapply unmatched_lit_prefix; [exact Hp|]. eapply unmatched_suffix, H.
Qed.

Lemma unmatched_lit_cut pat pat' s :
  pat <> [] ->
  unmatched (rx_lit_i pat) s -> unmatched (rx_lit_i pat) (cut_at pat' s).
Proof.
  intros Hp H. destruct (cut_at_prefix pat' s) as [t Ht]. rewrite Ht in H.
  eapply unmatched_lit_prefix; [exact Hp|exact H].
Qed.

Lemma filter_pipe_fixed s :
  Forall (fun c => (124 =? c)%N = false) s ->
  filter (fun c => negb (124 =? c)%N) s = s.
Proof.
  induction 1 as [|c s Hc _ IH]; cbn [filter]; [reflexivity|].
  now rewrite Hc, IH.
Qed.

(** The steps of [normalizeEventName] on a tidy string: only the two
    phrases and the trimming are left to act. *)
Lemma normalize_steps s :
  tidy s ->
  (s |> replace_first (rx_seq (rx_plus isDigit)
                         (rx_seq (rx_lit_i (js "k")) rx_eoi)) []
     |> replace_first (rx_seq (rx_plus isDigit)
                         (rx_seq (rx_lit_i (js "km")) rx_eoi)) []
     |> replace_first (rx_seq (rx_lit_i (js "edition"))
                         (rx_seq (rx_star isWhiteSpace) (rx_plus isDigit))) [])
  = s /\
  (s |> replace_first (rx_seq (rx_lit_i (js "season"))
                         (rx_seq (rx_star isWhiteSpace) (rx_plus isDigit))) []
     |> replace_all (rx_count 4 isDigit) (js "2025")
     |> replace_first (rx_seq (rx_lit_i (js "powered by"))
                         (rx_seq rx_dot_star rx_eoi)) []
     |> replace_first (rx_seq (rx_lit_i (js "sponsored by"))
                         (rx_seq rx_dot_star rx_eoi)) [])
  = cut_at (js "sponsored by") (cut_at (js "powered by") s).
Proof.
  intros T. pose proof (tidy_parts s T) as (_ & _ & Hd & Hl & _).
  split.
  - rewrite (replace_first_unmatched _ _ s)
      by now apply unmatched_digits_first.
    rewrite (replace_first_unmatched _ _ s)
      by now apply unmatched_digits_first.
    apply replace_first_unmatched. now apply unmatched_word_digits.
  - rewrite (replace_first_unmatched _ _ s)
      by now apply unmatched_word_digits.
    unfold replace_all.
    rewrite replace_all_unmatched by now apply unmatched_four_digits.
    rewrite (replace_first_phrase _ s Hl).
    apply replace_first_phrase.
    apply (tidy_parts _ (tidy_cut (js "powered by") s T)).
Qed.

Lemma normalize_digit_free x :
  hasDigit x = false ->
  exists s,
    tidy s /\
    FixLinks.normalizeEventName x
      = trim (cut_at (js "sponsored by") (cut_at (js "powered by") s)) /\
    VerifyLinks.normalizeEventName x = trim s.
Proof.
  intros Hx. apply hasDigit_false in Hx.
  destruct x as [|c x]; [exists []; repeat split; constructor|].
  set (s := replace_all (rx_plus isWhiteSpace) (js " ")
              (replace_all (rx_class (N.eqb 124)) []
                 (toLowerCase (c :: x)))).
  assert (T : tidy s).
  { subst s. rewrite replace_all_class. split.
    - apply (collapse_Forall _ _ _ (le_n _)); [repeat split|].
      apply Forall_forall. intros d Hd. apply filter_In in Hd.
      destruct Hd as [Hd Hp]. apply negb_true_iff in Hp.
      unfold toLowerCase in Hd. apply in_map_iff in Hd.
      destruct Hd as (d0 & <- & Hd0). rewrite Forall_forall in Hx.
      repeat split; [apply lowerUnit_idem|exact Hp|].
      rewrite lowerUnit_digit. now apply Hx.
    - apply (collapse_ws_normal _ _ (le_n _)). }
  exists s. split; [exact T|].
  destruct (normalize_steps s T) as [E1 E2].
  unfold FixLinks.normalizeEventName, VerifyLinks.normalizeEventName.
  cbn [falsy]. fold s. split.
  - rewrite E1. now rewrite E2.
  - now rewrite E1.
Qed.

Lemma normalize_tidy y :
  tidy y ->
  unmatched (rx_lit_i (js "powered by")) y ->
  unmatched (rx_lit_i (js "sponsored by")) y ->
  trim y = y ->
  FixLinks.normalizeEventName y = y.
Proof.
  intros T HP HS Ht. destruct y as [|c y]; [reflexivity|].
  pose proof (tidy_parts _ T) as (Hl & Hp & _ & _ & Hw).
  destruct (normalize_steps _ T) as [E1 E2].
  unfold FixLinks.normalizeEventName. cbn [falsy].
  rewrite (toLowerCase_fixed _ Hl), replace_all_class.
  rewrite (filter_pipe_fixed _ Hp), (collapse_fixed _ Hw).
  rewrite E1, E2. rewrite (cut_at_fixed _ _ HP), (cut_at_fixed _ _ HS).
  exact Ht.
Qed.

Lemma phrase_nonempty_powered : js "powered by" <> [].
Proof. discriminate. Qed.

Lemma phrase_nonempty_sponsored : js "sponsored by" <> [].
Proof. discriminate. Qed.

(** ** The Name Normalizer of the specification *)

(** C1, as the specification states it, fails: of two distance tokens at
    the end of a name the first application strips the last one, the second
    application the next. *)
Lemma normalizeEventName_not_idempotent :
  FixLinks.normalizeEventName (js "Dhaka Run 10K 5K") = js "dhaka run 10k" /\
  FixLinks.normalizeEventName
    (FixLinks.normalizeEventName (js "Dhaka Run 10K 5K")) = js "dhaka run" /\
  FixLinks.normalizeEventName
    (FixLinks.normalizeEventName (js "Dhaka Run 10K 5K"))
  <> FixLinks.normalizeEventName (js "Dhaka Run 10K 5K").
Proof. vm_compute. repeat split. discriminate. Qed.


(* ===================================================================== *)
(** * Further properties of the scripts *)
(* ===================================================================== *)

Import StringOps FixIndex CheckReport RunSpec ReportSpec Titles DiskExamples
  Shape.

(** ** More on the distance and the score *)

Lemma edits_trans n a b : edits n a b -> forall m c, edits m b c -> edits (n + m) a c.
Proof.
  induction 1 as [a|n a b b' H1 _ IH]; intros m c H2; [exact H2|].
  cbn [Nat.add]. econstructor; [exact H1|]. now apply IH.
Qed.

Lemma edit1_length a b : edit1 a b -> length a <= S (length b) /\ length b <= S (length a).
Proof.
  intros [l c r|l c r|l c c' r]; rewrite !length_app; cbn [length]; lia.
Qed.

Lemma edits_length n a b :
  edits n a b -> length a <= length b + n /\ length b <= length a + n.
Proof.
  induction 1 as [a|n a b c H1 _ IH]; [lia|].
  apply edit1_length in H1. lia.
Qed.

(** X1: [levenshteinDistance] is a metric on strings: it is 0 exactly on
    equal strings, symmetric, and satisfies the triangle inequality. *)
Theorem levenshteinDistance_metric (a b c : jsstring) :
  (levenshteinDistance a b = 0 <-> a = b) /\
  levenshteinDistance a b = levenshteinDistance b a /\
  levenshteinDistance a c <= levenshteinDistance a b + levenshteinDistance b c.
Proof.
  split; [|split].
  - split; [apply levenshteinDistance_0|].
    intros <-. apply levenshteinDistance_refl.
  - apply levenshteinDistance_sym.
  - destruct (levenshteinDistance_edit_distance a b) as [Hab _].
    destruct (levenshteinDistance_edit_distance b c) as [Hbc _].
    destruct (levenshteinDistance_edit_distance a c) as [_ Hac].
    apply Hac. eapply edits_trans; eassumption.
Qed.

(** X2: the distance is at least the difference of the two lengths and at
    most the length of the longer string. *)
Theorem levenshteinDistance_bounds (a b : jsstring) :
  length a - length b <= levenshteinDistance a b /\
  length b - length a <= levenshteinDistance a b /\
  levenshteinDistance a b <= Nat.max (length a) (length b).
Proof.
  destruct (levenshteinDistance_edit_distance a b) as [H _].
  apply edits_length in H. pose proof (levenshteinDistance_le_max a b). lia.
Qed.

(** X3: [calculateSimilarity] does not depend on the order of its two
    arguments, and its value lies between 0 and 1. *)
Theorem calculateSimilarity_symmetric_bounded (a b : jsstring) :
  calculateSimilarity a b = calculateSimilarity b a /\
  (0 <= calculateSimilarity a b)%Q /\ (calculateSimilarity a b <= 1)%Q.
Proof.
  split; [|apply calculateSimilarity_range].
  destruct a as [|x a].
  - now rewrite calculateSimilarity_empty_l, calculateSimilarity_empty_r.
  - destruct b as [|y b].
    + now rewrite calculateSimilarity_empty_l, calculateSimilarity_empty_r.
    + rewrite !calculateSimilarity_nonempty by discriminate.
      now rewrite (Nat.max_comm (length (y :: b))),
        (levenshteinDistance_sym (y :: b)).
Qed.

(** X4: the score is 1 exactly when the two strings are equal and not
    empty. *)
Theorem calculateSimilarity_one_iff (a b : jsstring) :
  (calculateSimilarity a b == 1)%Q <-> a = b /\ a <> [].
Proof.
  split.
  - intros H. destruct a as [|x a].
    + rewrite calculateSimilarity_empty_l in H. discriminate.
    + destruct b as [|y b].
      * rewrite calculateSimilarity_empty_r in H. discriminate.
      * split; [|discriminate].
        destruct (jsstring_eq_dec (x :: a) (y :: b)) as [E|E]; [exact E|].
        exfalso.
        assert (Hlt : (calculateSimilarity (x :: a) (y :: b) < 1)%Q)
          by (apply calculateSimilarity_distinct; [discriminate|discriminate|exact E]).
        rewrite H in Hlt. discriminate.
  - intros [<- Ha]. now apply calculateSimilarity_same.
Qed.

(** ** The run as a whole *)

(** Every round either leaves the record and the report alone, or corrects
    a searched record towards a candidate with another id. *)
Lemma reconcile_cases idx i e st :
  untouched idx i e st \/
  exists cid raw m,
    searched idx e cid raw /\
    findCorrectEventId (name e) idx = Some m /\
    matchEventId m <> cid /\
    correctedTo idx i e st cid raw m.
Proof.
  destruct (currentEventIdOf e) as [cid|] eqn:Hc.
  2:{ left. apply reconcile_not_searched. intros cid raw [H _]. congruence. }
  destruct (index_get idx cid) as [raw|] eqn:Hg.
  2:{ left. apply reconcile_not_searched. intros cid' raw [H1 [H2 _]].
      congruence. }
  destruct (Qlt_le_dec
              (calculateSimilarity (normalizeEventName (name e))
                 (normalizedName raw)) (7 # 10)) as [Hlt|Hge].
  - assert (Hs : searched idx e cid raw) by (repeat split; assumption).
    pose proof (@reconcile_searched idx i e st cid raw Hs) as H.
    destruct (findCorrectEventId (name e) idx) as [m|]; [|now left].
    destruct (jseqb (matchEventId m) cid) eqn:Hj; [now left|].
    right. exists cid, raw, m. repeat split; try assumption; try apply H.
    intros E. rewrite E, jseqb_refl in Hj. discriminate.
  - left. apply reconcile_not_searched. intros cid' raw' [H1 [H2 H3]].
    assert (cid' = cid) by congruence. subst cid'.
    assert (raw' = raw) by congruence. subst raw'.
    apply Qle_not_lt in Hge. contradiction.
Qed.

Lemma currentEventIdOf_Some e cid :
  currentEventIdOf e = Some cid -> exists l, fbLink e = Some l.
Proof.
  unfold currentEventIdOf. destruct (fbLink e) as [l|]; [eauto|discriminate].
Qed.

Lemma fixLoop_nil idx i st : fixLoop idx i [] st = ([], st).
Proof. reflexivity. Qed.

Lemma fixLoop_cons idx i e rest st :
  fixLoop idx i (e :: rest) st
  = (fst (reconcile idx i e st)
       :: fst (fixLoop idx (S i) rest (snd (reconcile idx i e st))),
     snd (fixLoop idx (S i) rest (snd (reconcile idx i e st)))).
Proof.
  cbn [fixLoop]. destruct (reconcile idx i e st) as [e' st'].
  cbn [fst snd]. now destruct (fixLoop idx (S i) rest st').
Qed.

(** The loop from index [i] on: the fixes it appends, each tied to the
    record it was made for. *)
Lemma fixLoop_audit idx events : forall i st,
  let r := fixLoop idx i events st in
  length (fst r) = length events /\
  map name (fst r) = map name events /\
  exists new,
    fixes (snd r) = fixes st ++ new /\
    fixedCount (snd r) = fixedCount st + length new /\
    StronglySorted lt (map fixEventIndex new) /\
    Forall (fun f => i < fixEventIndex f) new /\
    (forall k e, nth_error events k = Some e ->
       nth_error (fst r) k = Some e \/
       exists f, In f new /\ fixEventIndex f = i + k + 1) /\
    Forall (fun f =>
      exists k e old new,
        fixEventIndex f = i + k + 1 /\
        nth_error events k = Some e /\
        fixEventName f = name e /\
        fbLink e = Some (oldLink f) /\
        currentEventIdOf e = Some (oldEventId f) /\
        index_get idx (oldEventId f) = Some old /\
        oldEventName f = eventName old /\
        (calculateSimilarity (normalizeEventName (name e)) (normalizedName old)
         < 7 # 10)%Q /\
        In (newEventId f, new) idx /\
        newEventName f = eventName new /\
        fixSimilarity f
          = calculateSimilarity (normalizeEventName (name e))
              (normalizedName new) /\
        (7 # 10 < fixSimilarity f)%Q /\
        newEventId f <> oldEventId f /\
        newLink f = linkOf (newEventId f) /\
        nth_error (fst r) k = Some (mkEvent (name e) (Some (newLink f)))) new.
Proof.
  induction events as [|e rest IH]; intros i st r.
  - subst r. cbn [fixLoop fst snd length map].
    split; [reflexivity|]. split; [reflexivity|].
    exists []. rewrite app_nil_r. cbn [length map].
    split; [reflexivity|]. split; [lia|].
    split; [constructor|]. split; [constructor|].
    split; [|constructor].
    intros [|k] e H; discriminate.
  - subst r. rewrite fixLoop_cons. cbn [fst snd length map].
    set (st1 := snd (reconcile idx i e st)).
    destruct (IH (S i) st1) as (Hlen & Hnames & new & Hfx & Hcnt & Hsort & Hgt & Hcov & Hall).
    assert (Hshift : Forall (fun f : fixEntry =>
      exists k e0 old new0,
        fixEventIndex f = i + k + 1 /\
        nth_error (e :: rest) k = Some e0 /\
        fixEventName f = name e0 /\
        fbLink e0 = Some (oldLink f) /\
        currentEventIdOf e0 = Some (oldEventId f) /\
        index_get idx (oldEventId f) = Some old /\
        oldEventName f = eventName old /\
        (calculateSimilarity (normalizeEventName (name e0)) (normalizedName old)
         < 7 # 10)%Q /\
        In (newEventId f, new0) idx /\
        newEventName f = eventName new0 /\
        fixSimilarity f
          = calculateSimilarity (normalizeEventName (name e0))
              (normalizedName new0) /\
        (7 # 10 < fixSimilarity f)%Q /\
        newEventId f <> oldEventId f /\
        newLink f = linkOf (newEventId f) /\
        nth_error (fst (reconcile idx i e st)
                     :: fst (fixLoop idx (S i) rest st1)) k
          = Some (mkEvent (name e0) (Some (newLink f)))) new).
    { eapply Forall_impl; [|exact Hall].
      intros f (k & e0 & old & new0 & H1 & H).
      exists (S k), e0, old, new0. split; [lia|]. exact H. }
    destruct (reconcile_cases idx i e st)
      as [(U1 & U2 & U3)|(cid & raw & m & Hs & Hf & Hne & (K1 & K2 & K3))].
    + fold st1 in U2, U3. rewrite U1.
      split; [now rewrite Hlen|]. split; [now rewrite Hnames|].
      exists new. rewrite Hfx, Hcnt, U2, U3.
      repeat split; try assumption.
      * eapply Forall_impl; [|exact Hgt]. cbn. intros; lia.
      * intros [|k] e0 H; cbn in H.
        -- left. cbn. exact H.
        -- destruct (Hcov k e0 H) as [H'|(f & Hin & Hi)].
           ++ left. exact H'.
           ++ right. exists f. split; [assumption|lia].
      * rewrite U1 in Hshift. exact Hshift.
    + fold st1 in K2, K3. rewrite K1. cbn [name].
      split; [now rewrite Hlen|]. split; [now rewrite Hnames|].
      set (f0 := mkFix (i + 1) (name e) cid (eventName raw) (matchEventId m)
                   (matchEventName m) (matchSimilarity m)
                   (match fbLink e with Some l => l | None => [] end)
                   (linkOf (matchEventId m))) in *.
      exists (f0 :: new). rewrite Hfx, Hcnt, K2, K3, <- app_assoc.
      cbn [app length map].
      split; [reflexivity|]. split; [lia|].
      split.
      { constructor; [exact Hsort|]. apply Forall_map.
        eapply Forall_impl; [|exact Hgt]. cbn. intros; lia. }
      split.
      { constructor; [cbn; lia|]. eapply Forall_impl; [|exact Hgt].
        cbn. intros; lia. }
      split.
      { intros [|k] e0 H; cbn in H.
        - right. exists f0. split; [now left|]. cbn. lia.
        - destruct (Hcov k e0 H) as [H'|(f & Hin & Hi)].
          + left. exact H'.
          + right. exists f. split; [now right|lia]. }
      constructor.
      * destruct Hs as (Hc & Hg & Hlt).
        pose proof (findCorrectEventId_cases (name e) idx) as Hfc.
        cbv zeta in Hfc. rewrite Hf in Hfc.
        destruct Hfc as (k & x & Hk & -> & Hsc & _).
        destruct (currentEventIdOf_Some e cid Hc) as [l Hl].
        exists 0, e, raw, (snd x). subst f0. cbn [fixEventIndex fixEventName
          oldLink oldEventId oldEventName newEventId newEventName
          fixSimilarity newLink candidate matchEventId matchEventName
          matchSimilarity nth_error].
        rewrite Hl.
        repeat split; try assumption; try reflexivity; try lia.
        -- apply nth_error_In in Hk. now destruct x.
      * rewrite K1 in Hshift. exact Hshift.
Qed.

(** X5: the accounts of a run.  The count returned is the number of entries
    of the report; the catalog keeps its length and the names of its
    records; the report lists the corrections in the order of the catalog,
    at most one per record; a record either stays as it was or has an
    entry; and the catalog and the report are written exactly when the
    report is not empty -- when it is empty the catalog is unchanged. *)
Theorem fixFacebookLinks_accounts (events : list event) (rawEventIndex : index) :
  let run := fixFacebookLinks events rawEventIndex in
  resFixedCount run = length (resFixes run) /\
  length (resEvents run) = length events /\
  map name (resEvents run) = map name events /\
  StronglySorted lt (map fixEventIndex (resFixes run)) /\
  (forall k e, nth_error events k = Some e ->
     nth_error (resEvents run) k = Some e \/
     exists f, In f (resFixes run) /\ fixEventIndex f = k + 1) /\
  (resFixes run = [] ->
   resEvents run = events /\ writtenCatalog run = None /\
   writtenReport run = None) /\
  (resFixes run <> [] ->
   writtenCatalog run = Some (resEvents run) /\
   writtenReport run = Some (resFixes run)).
Proof.
  intros run.
  destruct (fixLoop_audit rawEventIndex events 0 (mkState 0 [] []))
    as (Hlen & Hnames & new & Hfx & Hcnt & Hsort & _ & Hcov & _).
  cbn [fixes fixedCount app Nat.add] in Hfx, Hcnt.
  subst run. unfold fixFacebookLinks.
  destruct (fixLoop rawEventIndex 0 events (mkState 0 [] [])) as [ev st].
  cbn [fst snd] in *.
  assert (Hfields :
    resFixedCount (if 0 <? fixedCount st
       then mkResult (fixedCount st) (fixes st) ev (console st)
              (Some ev) (Some (fixes st))
       else mkResult (fixedCount st) (fixes st) ev (console st) None None)
      = fixedCount st /\
    resFixes (if 0 <? fixedCount st
       then mkResult (fixedCount st) (fixes st) ev (console st)
              (Some ev) (Some (fixes st))
       else mkResult (fixedCount st) (fixes st) ev (console st) None None)
      = fixes st /\
    resEvents (if 0 <? fixedCount st
       then mkResult (fixedCount st) (fixes st) ev (console st)
              (Some ev) (Some (fixes st))
       else mkResult (fixedCount st) (fixes st) ev (console st) None None)
      = ev).
  { destruct (0 <? fixedCount st); repeat split. }
  destruct Hfields as (F1 & F2 & F3). rewrite F1, F2, F3.
  rewrite Hfx in *. 
  split; [exact Hcnt|]. split; [exact Hlen|]. split; [exact Hnames|].
  split; [exact Hsort|]. split; [exact Hcov|].
  split.
  - intros ->. cbn [length] in Hcnt. rewrite Hcnt. cbn.
    repeat split.
    apply nth_error_ext. intros k.
    destruct (nth_error events k) as [e|] eqn:E.
    + destruct (Hcov k e E) as [H|(f & [] & _)]. exact H.
    + apply nth_error_None. apply nth_error_None in E. lia.
  - intros Hne. destruct new as [|f new]; [congruence|].
    cbn [length] in Hcnt. rewrite Hcnt. cbn. split; reflexivity.
Qed.

(** X6: every entry of the fixes report is justified.  It names a record
    of the catalog by its position, that record's name and the link and id
    it had; that id resolved in the index to the raw event named as old,
    which scored below 0.7; the new id is a key of the index with another
    id, whose raw event is the one named as new and scores above 0.7, the
    score reported; and the record now holds the link built on the new
    id. *)
Theorem fixes_report_justified (events : list event) (rawEventIndex : index)
    (f : fixEntry) :
  let run := fixFacebookLinks events rawEventIndex in
  In f (resFixes run) ->
  justified rawEventIndex events (resEvents run) f.
Proof.
  intros run Hin.
  destruct (fixLoop_audit rawEventIndex events 0 (mkState 0 [] []))
    as (_ & _ & new & Hfx & _ & _ & _ & _ & Hall).
  destruct (fixFacebookLinks_fields events rawEventIndex) as (Ev & Fx & _).
  fold run in Ev, Fx. rewrite Fx, Hfx in Hin. cbn [fixes app] in Hin.
  rewrite Forall_forall in Hall.
  destruct (Hall f Hin) as (k & e & old & new0 & Hi & H).
  cbn [Nat.add] in Hi. rewrite Ev.
  exists e, old, new0. rewrite Hi.
  replace (k + 1 - 1) with k by lia. split; [lia|]. exact H.
Qed.

Lemma fixes_report_justified_witness :
  let run := fixFacebookLinks catalog corpus in
  let f := mkFix 1 (js "Chittagong City Run 10K") (js "111")
             (js "Dhaka Half Marathon 2025") (js "222")
             (js "Chittagong City Run") (19 # 19) (link "111") (link "222") in
  In f (resFixes run) /\ justified corpus catalog (resEvents run) f.
Proof.
  cbv zeta. split; [vm_compute; left; reflexivity|].
  apply (fixes_report_justified catalog corpus). vm_compute. left. reflexivity.
Defined.

(** ** Lexing: what the greedy classes and the literals consume *)

Lemma drop_while_span p s :
  exists m, s = m ++ drop_while p s /\ forallb p m = true /\
            match drop_while p s with
            | [] => True
            | c :: _ => p c = false
            end.
Proof.
  induction s as [|c s (m & E & Hm & Hh)]; cbn [drop_while].
  - exists []. repeat split.
  - destruct (p c) eqn:Hc.
    + exists (c :: m). cbn [app forallb]. rewrite Hc, Hm, <- E. repeat split.
      exact Hh.
    + exists []. repeat split. exact Hc.
Qed.

Lemma drop_while_stop p m r :
  forallb p m = true ->
  match r with [] => True | c :: _ => p c = false end ->
  drop_while p (m ++ r) = r.
Proof.
  intros Hm Hr. induction m as [|c m IH]; cbn [app drop_while].
  - destruct r as [|c r]; [reflexivity|]. cbn. now rewrite Hr.
  - cbn [forallb] in Hm. apply andb_true_iff in Hm as [Hc Hm].
    rewrite Hc. now apply IH.
Qed.

Lemma firstn_app_exact (A : Type) (g r : list A) :
  firstn (length (g ++ r) - length r) (g ++ r) = g.
Proof.
  rewrite length_app. replace (length g + length r - length r) with (length g) by lia.
  rewrite firstn_app, Nat.sub_diag, firstn_all. cbn. apply app_nil_r.
Qed.

Lemma rx_plus_span p s rest :
  rx_plus p s = Some rest <->
  exists g, s = g ++ rest /\ g <> [] /\ forallb p g = true /\
            match rest with [] => True | c :: _ => p c = false end.
Proof.
  unfold rx_plus, rx_seq, rx_class, rx_star. split.
  - destruct s as [|c s]; [discriminate|].
    destruct (p c) eqn:Hc; [|discriminate].
    intros H. injection H as <-.
    destruct (drop_while_span p s) as (m & E & Hm & Hh).
    exists (c :: m). cbn [app forallb]. rewrite Hc, Hm, <- E.
    repeat split; [discriminate|exact Hh].
  - intros (g & -> & Hg & Hp & Hr).
    destruct g as [|c g]; [congruence|].
    cbn [forallb] in Hp. apply andb_true_iff in Hp as [Hc Hp].
    cbn [app]. rewrite Hc. f_equal. now apply drop_while_stop.
Qed.

Lemma rx_lit_exact pat : forall s r, rx_lit pat s = Some r <-> s = pat ++ r.
Proof.
  induction pat as [|c pat IH]; intros s r; cbn [rx_lit app].
  - unfold rx_eps. split; congruence.
  - unfold rx_seq, rx_class. destruct s as [|d s].
    + split; discriminate.
    + destruct (N.eqb_spec c d) as [->|Hne].
      * rewrite IH. split; congruence.
      * split; [discriminate|]. intros H. congruence.
Qed.

Lemma rx_eoi_exact s r : rx_eoi s = Some r <-> s = [] /\ r = [].
Proof.
  unfold rx_eoi. destruct s; split; try discriminate.
  - intros H. injection H as <-. now split.
  - intros [_ ->]. reflexivity.
  - intros [H _]. discriminate.
Qed.

(** The group of [match_group] under a greedy class is a non-empty run of
    the class. *)
Lemma match_group_plus_class pre p s g :
  match_group pre (rx_plus p) s = Some g -> g <> [] /\ forallb p g = true.
Proof.
  induction s as [|c s IH]; cbn [match_group].
  - destruct (pre []) as [r|]; [|discriminate].
    destruct (rx_plus p r) as [rest|] eqn:E; [|discriminate].
    intros H. injection H as <-.
    apply rx_plus_span in E as (g' & -> & Hg & Hp & _).
    now rewrite firstn_app_exact.
  - destruct (pre (c :: s)) as [r|].
    + destruct (rx_plus p r) as [rest|] eqn:E; [|exact IH].
      intros H. injection H as <-.
      apply rx_plus_span in E as (g' & -> & Hg & Hp & _).
      now rewrite firstn_app_exact.
    + exact IH.
Qed.

(** ** The consistency check: the ids on both sides *)

(** [/^(\d+)\.txt$/] accepts exactly the names [<digits>.txt]. *)
Lemma rawFileId_spec f id :
  rawFileId f = Some id <->
  id <> [] /\ forallb isDigit id = true /\ f = id ++ js ".txt".
Proof.
  unfold rawFileId. split.
  - destruct (rx_plus isDigit f) as [rest|] eqn:E; [|discriminate].
    apply rx_plus_span in E as (g & -> & Hg & Hp & _).
    unfold rx_seq.
    destruct (rx_lit (js ".txt") rest) as [r|] eqn:El; [|discriminate].
    destruct (rx_eoi r) as [r'|] eqn:Ee; [|discriminate].
    apply rx_lit_exact in El. apply rx_eoi_exact in Ee as [-> ->].
    rewrite app_nil_r in El. subst rest.
    rewrite firstn_app_exact. intros H. injection H as <-. now repeat split.
  - intros (Hg & Hp & ->).
    assert (E : rx_plus isDigit (id ++ js ".txt") = Some (js ".txt")).
    { apply rx_plus_span. exists id. repeat split; assumption. }
    rewrite E. cbn [rx_seq]. now rewrite firstn_app_exact.
Qed.

Lemma readRawEventIds_fold files : forall acc,
  NoDup acc ->
  let ids := fold_left
               (fun ids f =>
                  match rawFileId f with
                  | Some id => set_add ids id
                  | None => ids
                  end) files acc in
  NoDup ids /\
  forall id, In id ids <-> In id acc \/ exists f, In f files /\ rawFileId f = Some id.
Proof.
  induction files as [|f files IH]; intros acc Hnd; cbn [fold_left].
  - split; [assumption|]. intros id. split; [now left|].
    intros [H|(f & [] & _)]. exact H.
  - cbv zeta in IH.
    destruct (rawFileId f) as [id0|] eqn:E.
    + destruct (IH (set_add acc id0)) as [H1 H2]; [now apply set_add_NoDup|].
      split; [exact H1|]. intros id. rewrite H2, set_add_In. split.
      * intros [[H| ->]|(f' & Hin & Hf)].
        -- now left.
        -- right. exists f. split; [now left|assumption].
        -- right. exists f'. split; [now right|assumption].
      * intros [H|(f' & [<-|Hin] & Hf)].
        -- left. now left.
        -- left. right. congruence.
        -- right. exists f'. now split.
    + destruct (IH acc Hnd) as [H1 H2]. split; [exact H1|].
      intros id. rewrite H2. split.
      * intros [H|(f' & Hin & Hf)]; [now left|].
        right. exists f'. split; [now right|assumption].
      * intros [H|(f' & [<-|Hin] & Hf)]; [now left|congruence|].
        right. exists f'. now split.
Qed.

(** X7: [readRawEventIds] fails exactly when the directory is missing;
    otherwise it returns, each once, the ids [d] for which the directory
    holds a file named [d.txt] with [d] a non-empty string of decimal
    digits, and nothing else. *)
Theorem readRawEventIds_spec (dir : option (list jsstring)) :
  match dir with
  | None => readRawEventIds dir = inl RawEventsDirNotFound
  | Some files =>
      exists ids,
        readRawEventIds dir = inr ids /\ NoDup ids /\
        forall id, In id ids <->
                   id <> [] /\ forallb isDigit id = true /\
                   In (id ++ js ".txt") files
  end.
Proof.
  destruct dir as [files|]; [|reflexivity].
  eexists. split; [reflexivity|].
  destruct (readRawEventIds_fold files [] (NoDup_nil _)) as [H1 H2].
  split; [exact H1|]. intros id. rewrite H2. split.
  - intros [[]|(f & Hin & Hf)]. apply rawFileId_spec in Hf as (Hg & Hp & ->).
    now repeat split.
  - intros (Hg & Hp & Hin). right. exists (id ++ js ".txt").
    split; [assumption|]. apply rawFileId_spec. now repeat split.
Qed.

(** The step of [extractIdsFromEvents] appends at most one id, a non-empty
    digit string. *)
Lemma extractStep_ids acc evt :
  fst (extractStep acc evt) = fst acc \/
  exists id, fst (extractStep acc evt) = fst acc ++ [id] /\
             id <> [] /\ forallb isDigit id = true.
Proof.
  destruct acc as [allIds occ]. unfold extractStep.
  destruct (negb (truthy evt) || negb (isObject evt)); [now left|].
  destruct (orElse _ _) as [[| | |link| |]|]; try now left.
  destruct (idOfLink link) as [id|] eqn:E; [|now left].
  right. exists id. split; [reflexivity|].
  eapply match_group_plus_class. exact E.
Qed.

Lemma extractIdsFromEvents_ids_from events : forall acc,
  exists new,
    fst (fold_left extractStep events acc) = fst acc ++ new /\
    length new <= length events /\
    Forall (fun id => id <> [] /\ forallb isDigit id = true) new.
Proof.
  induction events as [|evt events IH]; intros acc; cbn [fold_left].
  - exists []. rewrite app_nil_r. repeat split; [cbn; lia|constructor].
  - destruct (IH (extractStep acc evt)) as (new & E & Hlen & Hall).
    destruct (extractStep_ids acc evt) as [H|(id & H & Hid)].
    + exists new. rewrite E, H. repeat split; [cbn; lia|assumption].
    + exists (id :: new). rewrite E, H, <- app_assoc.
      repeat split; [cbn; lia|]. now constructor.
Qed.


Lemma jsleb_antisym a : forall b, jsleb a b = true -> jsleb b a = true -> a = b.
Proof.
  induction a as [|x a IH]; intros [|y b]; cbn [jsleb]; try congruence.
  destruct (N.ltb_spec x y) as [Hxy|Hxy];
    destruct (N.ltb_spec y x) as [Hyx|Hyx]; try discriminate; try lia.
  intros H1 H2. assert (x = y) by lia. subst. f_equal. now apply IH.
Qed.

Section InsertionSort.
Context {A : Type} (leb : A -> A -> bool).
Hypothesis leb_total : forall a b, leb a b = false -> leb b a = true.



End InsertionSort.


Lemma sort_by_length (A : Type) (leb : A -> A -> bool) (l : list A) :
  length (sort_by leb l) = length l.
Proof. apply Permutation_length, sort_by_perm. Qed.

Lemma analyze_inr JSON_parse dir file r :
  analyze JSON_parse dir file = inr r ->
  exists files events,
    dir = Some files /\
    parseEventsJson JSON_parse file = inr events /\
    exists rawIds, readRawEventIds dir = inr rawIds /\ NoDup rawIds /\
                   r = analyzeIds rawIds events.
Proof.
  unfold analyze. destruct dir as [files|]; [|discriminate].
  pose proof (readRawEventIds_fold files [] (NoDup_nil _)) as [Hnd _].
  cbn [readRawEventIds].
  destruct (parseEventsJson JSON_parse file) as [e|events]; [discriminate|].
  intros H. injection H as <-. exists files, events.
  repeat split. eexists. repeat split. exact Hnd.
Qed.


Lemma filter_split_length (A : Type) (f : A -> bool) (l : list A) :
  length (filter f l) + length (filter (fun x => negb (f x)) l) = length l.
Proof.
  induction l as [|x l IH]; cbn [filter]; [reflexivity|].
  destruct (f x); cbn [negb length]; lia.
Qed.

Lemma length_zero_nil (A : Type) (l : list A) : (0 <? length l) = false <-> l = [].
Proof.
  destruct l; cbn; split; congruence.
Qed.

Lemma analyzeIds_mismatch rawIds events :
  NoDup rawIds ->
  let eventIds := fst (extractIdsFromEvents events) in
  mismatch (reportSummary (analyzeIds rawIds events)) = false <->
  (forall id, In id rawIds <-> In id eventIds) /\ NoDup eventIds.
Proof.
  intros Hnd eventIds. subst eventIds.
  unfold analyzeIds.
  pose proof (extractIdsFromEvents_counts events) as [Hocc Hget].
  destruct (extractIdsFromEvents events) as [eventIds occ].
  cbn [fst snd] in *.
  cbn [reportSummary mismatch].
  set (eventIdSet := fold_left set_add eventIds []).
  assert (Hset : forall id, set_has eventIdSet id = true <-> In id eventIds).
  { intros id. unfold eventIdSet. rewrite set_has_In, fold_set_add_In.
    cbn. tauto. }
  assert (HsetIn : forall id, In id eventIdSet <-> In id eventIds).
  { intros id. rewrite <- set_has_In. apply Hset. }
  rewrite !sort_by_length.
  rewrite !orb_false_iff, !length_zero_nil.
  split.
  - intros [[H1 H2] H3].
    assert (Hnd' : NoDup eventIds).
    { apply (NoDup_count_occ jsstring_eq_dec). intros id.
      destruct (le_lt_dec (count_occ jsstring_eq_dec eventIds id) 1)
        as [Hle|Hgt]; [exact Hle|]. exfalso.
      specialize (Hget id).
      destruct (count_occ jsstring_eq_dec eventIds id) as [|n] eqn:Ec;
        [lia|].
      apply (map_get_In occ id (S n) Hocc) in Hget.
      assert (Hin : In (id, S n)
                       (filter (fun kv : jsstring * nat => 1 <? snd kv) occ)).
      { apply filter_In. split; [exact Hget|]. cbn [snd].
        apply Nat.ltb_lt. lia. }
      rewrite H3 in Hin. exact Hin. }
    split; [|exact Hnd'].
    intros id. split; intros Hin.
    + destruct (set_has eventIdSet id) eqn:E; [now apply Hset|].
      exfalso.
      assert (Hf : In id (filter (fun id => negb (set_has eventIdSet id)) rawIds)).
      { apply filter_In. split; [exact Hin|]. now rewrite E. }
      rewrite H1 in Hf. exact Hf.
    + destruct (set_has rawIds id) eqn:E; [now apply set_has_In|].
      exfalso.
      assert (Hf : In id (filter (fun id => negb (set_has rawIds id)) eventIdSet)).
      { apply filter_In. split; [now apply HsetIn|]. now rewrite E. }
      rewrite H2 in Hf. exact Hf.
  - intros [Hsame Hnd'].
    repeat split.
    + destruct (filter _ rawIds) as [|id l] eqn:E; [reflexivity|exfalso].
      assert (Hin : In id (filter (fun id => negb (set_has eventIdSet id)) rawIds))
        by (rewrite E; now left).
      apply filter_In in Hin as [Hin Hn]. apply negb_true_iff in Hn.
      apply Hsame, Hset in Hin. congruence.
    + destruct (filter _ eventIdSet) as [|id l] eqn:E; [reflexivity|exfalso].
      assert (Hin : In id (filter (fun id => negb (set_has rawIds id)) eventIdSet))
        by (rewrite E; now left).
      apply filter_In in Hin as [Hin Hn]. apply negb_true_iff in Hn.
      apply HsetIn, Hsame, set_has_In in Hin. congruence.
    + destruct (filter _ occ) as [|[id c] l] eqn:E; [reflexivity|exfalso].
      assert (Hin : In (id, c) (filter (fun kv : jsstring * nat => 1 <? snd kv) occ))
        by (rewrite E; now left).
      apply filter_In in Hin as [Hin Hc]. cbn [snd] in Hc.
      apply Nat.ltb_lt in Hc.
      apply (map_get_In occ id c Hocc) in Hin. rewrite Hget in Hin.
      apply (NoDup_count_occ jsstring_eq_dec) with (x := id) in Hnd'.
      destruct (count_occ jsstring_eq_dec eventIds id); [discriminate|].
      injection Hin as <-. lia.
Qed.

(** X9: the verdict of [analyze].  [mismatch] is false exactly when the raw
    files and the catalog refer to the same ids and no id is referred to
    twice; the counts of the summary are the lengths of the lists, and the
    ids present on both sides are counted the same from either side. *)
Theorem analyze_verdict (JSON_parse : jsstring -> option json)
    (dir : option (list jsstring)) (file : option jsstring)
    (rawIds : list jsstring) (events : list json) (r : report) :
  readRawEventIds dir = inr rawIds ->
  parseEventsJson JSON_parse file = inr events ->
  analyze JSON_parse dir file = inr r ->
  let eventIds := fst (extractIdsFromEvents events) in
  let s := reportSummary r in
  (mismatch s = false <->
   (forall id, In id rawIds <-> In id eventIds) /\ NoDup eventIds) /\
  totalRawFiles s = length rawIds /\
  totalEventEntriesScanned s = length eventIds /\
  totalEventEntriesScanned s <= length events /\
  uniqueEventIdsInJson s <= totalEventEntriesScanned s /\
  missingInEventsJsonCount s = length (missingInEventsJson r) /\
  missingRawFilesCount s = length (missingRawFiles r) /\
  duplicateIdCount s = length (duplicates r) /\
  totalRawFiles s - missingInEventsJsonCount s
    = uniqueEventIdsInJson s - missingRawFilesCount s.
Proof.
  intros Hraw Hparse Hr eventIds s. subst eventIds s.
  apply analyze_inr in Hr
    as (files & events' & _ & Hp' & rawIds' & Hraw' & Hnd & ->).
  assert (rawIds' = rawIds) by congruence. subst rawIds'.
  assert (events' = events) by congruence. subst events'. clear Hp' Hraw'.
  split; [exact (analyzeIds_mismatch rawIds events Hnd)|].
  unfold analyzeIds.
  destruct (extractIdsFromEvents_ids_from events ([], []))
    as (new & Enew & Hlen & _).
  fold (extractIdsFromEvents events) in Enew. cbn [fst app] in Enew.
  destruct (extractIdsFromEvents events) as [eventIds occ].
  cbn [fst snd] in *. subst new.
  cbn [reportSummary totalRawFiles totalEventEntriesScanned
       uniqueEventIdsInJson missingInEventsJsonCount missingRawFilesCount
       duplicateIdCount missingInEventsJson missingRawFiles duplicates].
  set (eventIdSet := fold_left set_add eventIds []).
  assert (HsetIn : forall id, In id eventIdSet <-> In id eventIds).
  { intros id. unfold eventIdSet. rewrite fold_set_add_In. cbn. tauto. }
  assert (HsetNd : NoDup eventIdSet).
  { apply fold_set_add_NoDup. constructor. }
  assert (HsetLen : length eventIdSet <= length eventIds).
  { apply NoDup_incl_length; [exact HsetNd|]. intros id. apply HsetIn. }
  rewrite !sort_by_length.
  repeat split; try assumption.
  pose proof (filter_split_length _ (set_has eventIdSet) rawIds) as L1.
  pose proof (filter_split_length _ (set_has rawIds) eventIdSet) as L2.
  assert (P : Permutation (filter (set_has eventIdSet) rawIds)
                          (filter (set_has rawIds) eventIdSet)).
  { apply NoDup_Permutation; try (apply NoDup_filter; assumption).
    intros id. rewrite !filter_In, !set_has_In. tauto. }
  apply Permutation_length in P. lia.
Qed.

Lemma analyze_verdict_witness :
  exists r,
    analyze Json.parse (Some [js "2.txt"; js "3.txt"; js "4.txt"])
      (Some catalog123) = inr r /\
    mismatch (reportSummary r) = true /\
    totalRawFiles (reportSummary r) - missingInEventsJsonCount (reportSummary r)
      = uniqueEventIdsInJson (reportSummary r)
        - missingRawFilesCount (reportSummary r).
Proof.
  eexists. split; [vm_compute; reflexivity|].
  split; [vm_compute; reflexivity|].
  refine (proj2 (proj2 (proj2 (proj2 (proj2 (proj2 (proj2 (proj2
    (analyze_verdict Json.parse
       (Some [js "2.txt"; js "3.txt"; js "4.txt"]) (Some catalog123)
       [js "2"; js "3"; js "4"] _ _ _ _ _))))))))).
  - vm_compute. reflexivity.
  - vm_compute. reflexivity.
  - vm_compute. reflexivity.
Defined.


(** ** The shape of a normalized name *)

Lemma replace_first_Forall (Q : N -> Prop) r repl s :
  Forall Q repl -> Forall Q s -> Forall Q (replace_first r repl s).
Proof.
  intros Hr. induction s as [|c s IH]; intros Hs; cbn [replace_first].
  - destruct (match_len r []); [|constructor].
    apply Forall_app. split; [exact Hr|]. rewrite skipn_nil. constructor.
  - destruct (match_len r (c :: s)) as [n|].
    + apply Forall_app. split; [exact Hr|].
      rewrite <- (firstn_skipn n (c :: s)) in Hs.
      now apply Forall_app in Hs.
    + inversion Hs; subst. constructor; [assumption|]. now apply IH.
Qed.

Lemma replace_all_from_Forall (Q : N -> Prop) r repl s :
  (forall m, Forall Q (repl m)) ->
  Forall Q s -> forall k, Forall Q (replace_all_from r repl k s).
Proof.
  intros Hr. induction s as [|c s IH]; intros Hs k.
  - destruct k as [|k]; cbn [replace_all_from]; [|constructor].
    destruct (match_len r []) as [[|n]|];
      try (rewrite app_nil_r; apply Hr); constructor.
  - inversion Hs as [|? ? Hc Hs']; subst.
    destruct k as [|k]; cbn [replace_all_from]; [|now apply IH].
    destruct (match_len r (c :: s)) as [[|n]|].
    + apply Forall_app. split; [apply Hr|]. constructor; [exact Hc|].
      now apply IH.
    + apply Forall_app. split; [apply Hr|]. now apply IH.
    + constructor; [exact Hc|]. now apply IH.
Qed.

Lemma trim_Forall (Q : N -> Prop) s : Forall Q s -> Forall Q (trim s).
Proof.
  intros H. destruct (trim_substring s) as (a & b & E).
  rewrite E in H. apply Forall_app in H as [_ H].
  now apply Forall_app in H as [H _].
Qed.

Lemma ws_normal_spaces s :
  ws_normal s -> Forall (fun c => isWhiteSpace c = true -> c = 32%N) s.
Proof.
  induction s as [|c s IH]; cbn [ws_normal]; [constructor|].
  intros [Hc Hs]. constructor; [|now apply IH].
  intros Hw. now destruct (Hc Hw).
Qed.

(** After the first three steps of either normalizer. *)
Lemma collapsed_plain x :
  Forall plain
    (replace_all (rx_plus isWhiteSpace) (js " ")
       (replace_all (rx_class (N.eqb 124)) [] (toLowerCase x))).
Proof.
  rewrite replace_all_class.
  set (s := filter _ _).
  assert (H1 : Forall (fun c => lowerUnit c = c /\ (124 =? c)%N = false)
                 (replace_all (rx_plus isWhiteSpace) (js " ") s)).
  { apply (collapse_Forall _ _ _ (le_n _)); [split; reflexivity|].
    apply Forall_forall. intros d Hd. subst s. apply filter_In in Hd.
    destruct Hd as [Hd Hp]. apply negb_true_iff in Hp.
    unfold toLowerCase in Hd. apply in_map_iff in Hd.
    destruct Hd as (d0 & <- & _). split; [apply lowerUnit_idem|exact Hp]. }
  pose proof (ws_normal_spaces _ (collapse_ws_normal _ s (le_n _))) as H2.
  rewrite Forall_forall in *. intros c Hc.
  destruct (H1 c Hc) as [A B]. split; [exact A|]. split; [exact B|].
  now apply H2.
Qed.

(** X10: whatever the input, the name either normalizer returns has no
    white space at its ends, and holds no pipe, no upper-case ASCII letter
    and no white-space character other than the space. *)
Theorem normalizeEventName_shape (x : jsstring) :
  (trim (FixLinks.normalizeEventName x) = FixLinks.normalizeEventName x /\
   Forall plain (FixLinks.normalizeEventName x)) /\
  (trim (VerifyLinks.normalizeEventName x) = VerifyLinks.normalizeEventName x /\
   Forall plain (VerifyLinks.normalizeEventName x)).
Proof.
  unfold FixLinks.normalizeEventName, VerifyLinks.normalizeEventName.
  destruct (falsy x); [repeat split; constructor|].
  pose proof (collapsed_plain x) as H.
  assert (Hy : Forall plain (js "2025"))
    by (repeat constructor; cbn; intros; discriminate).
  split; (split; [apply trim_idem|]); apply trim_Forall.
  - repeat (apply replace_first_Forall; [constructor|]).
    apply replace_all_from_Forall; [intros _; exact Hy|].
    repeat (apply replace_first_Forall; [constructor|]). exact H.
  - repeat (apply replace_first_Forall; [constructor|]). exact H.
Qed.

(** ** White space around the catalog *)

Lemma drop_while_prefix p a s :
  forallb p a = true -> drop_while p (a ++ s) = drop_while p s.
Proof.
  induction a as [|c a IH]; cbn [app forallb drop_while]; [reflexivity|].
  intros H. apply andb_true_iff in H as [Hc Ha]. rewrite Hc. now apply IH.
Qed.

Lemma trimEnd_suffix s b :
  forallb isWhiteSpace b = true -> trimEnd (s ++ b) = trimEnd s.
Proof.
  intros Hb. unfold trimEnd. rewrite rev_app_distr, drop_while_prefix;
    [reflexivity|].
  rewrite forallb_forall in *. intros c Hc. apply Hb. now apply in_rev.
Qed.

Lemma trim_padding a s b :
  forallb isWhiteSpace a = true -> forallb isWhiteSpace b = true ->
  trim (a ++ s ++ b) = trim s.
Proof.
  intros Ha Hb. unfold trim, trimStart. rewrite drop_while_prefix by exact Ha.
  destruct (drop_while_span isWhiteSpace s) as (m & E & Hm & Hh).
  destruct (drop_while isWhiteSpace s) as [|c t] eqn:Ed.
  - rewrite app_nil_r in E. subst m.
    rewrite drop_while_all; [reflexivity|].
    rewrite forallb_app. now rewrite Hm, Hb.
  - rewrite E at 1. rewrite <- app_assoc, drop_while_prefix by exact Hm.
    cbn [app drop_while]. rewrite Hh.
    change (c :: t ++ b) with ((c :: t) ++ b). now apply trimEnd_suffix.
Qed.

(** X12: white space around the text of the catalog file (line ends, a byte
    order mark, spaces) does not change what [parseEventsJson] returns, in
    either script. *)
Theorem parseEventsJson_ignores_padding
    (JSON_parse : jsstring -> option json) (a content b : jsstring) :
  forallb isWhiteSpace a = true -> forallb isWhiteSpace b = true ->
  FixLinks.parseEventsJson JSON_parse (Some (a ++ content ++ b))
    = FixLinks.parseEventsJson JSON_parse (Some content) /\
  CheckEvents.parseEventsJson JSON_parse (Some (a ++ content ++ b))
    = CheckEvents.parseEventsJson JSON_parse (Some content).
Proof.
  intros Ha Hb. unfold FixLinks.parseEventsJson, CheckEvents.parseEventsJson.
  cbv zeta. now rewrite (trim_padding a content b Ha Hb).
Qed.

Lemma parseEventsJson_ignores_padding_witness :
  FixLinks.parseEventsJson Json.parse
    (Some ([65279%N; 10%N] ++ js "[{}]" ++ [13%N; 10%N; 32%N]))
    = FixLinks.parseEventsJson Json.parse (Some (js "[{}]")) /\
  CheckEvents.parseEventsJson Json.parse
    (Some ([65279%N; 10%N] ++ js "[{}]" ++ [13%N; 10%N; 32%N]))
    = CheckEvents.parseEventsJson Json.parse (Some (js "[{}]")).
Proof.
  apply (parseEventsJson_ignores_padding Json.parse [65279%N; 10%N]
           (js "[{}]") [13%N; 10%N; 32%N]); reflexivity.
Defined.

(** ** The ids the check reads from the catalog *)

(** X13: the ids [extractIdsFromEvents] collects are non-empty strings of
    decimal digits, at most one per record of the catalog. *)
Theorem extractIdsFromEvents_ids (events : list json) :
  Forall (fun id => id <> [] /\ forallb isDigit id = true)
    (fst (extractIdsFromEvents events)) /\
  length (fst (extractIdsFromEvents events)) <= length events.
Proof.
  destruct (extractIdsFromEvents_ids_from events ([], []))
    as (new & E & Hlen & Hall).
  unfold extractIdsFromEvents. rewrite E. cbn [fst app]. now split.
Qed.

(** ** A reference that already matches *)

(** X14: a record whose normalized name equals the normalized name of the
    raw event it refers to is never corrected, whatever else the index
    holds -- also when both names normalize to the empty string, which
    scores 0. *)
Theorem matching_reference_is_kept (rawEventIndex : index) (i : nat)
    (e : event) (st : loopState) (cid : jsstring) (raw : rawEvent) :
  currentEventIdOf e = Some cid ->
  index_get rawEventIndex cid = Some raw ->
  normalizeEventName (name e) = normalizedName raw ->
  fst (reconcile rawEventIndex i e st) = e /\
  fixes (snd (reconcile rawEventIndex i e st)) = fixes st /\
  fixedCount (snd (reconcile rawEventIndex i e st)) = fixedCount st.
Proof.
  intros Hc Hg Hn.
  destruct (@equal_names_never_corrected rawEventIndex i e st cid raw
              Hc Hg Hn) as [H _].
  exact H.
Qed.

Lemma matching_reference_is_kept_witness :
  let e := mkEvent (js "10K") (Some (link "123")) in
  let st := mkState 0 [] [] in
  fst (reconcile sponsors 0 e st) = e /\
  fixes (snd (reconcile sponsors 0 e st)) = fixes st /\
  fixedCount (snd (reconcile sponsors 0 e st)) = fixedCount st.
Proof.
  apply (matching_reference_is_kept sponsors 0
           (mkEvent (js "10K") (Some (link "123"))) (mkState 0 [] [])
           (js "123") (snd (raw "123" "Powered by Foo Bar")));
    vm_compute; reflexivity.
Defined.

(** ** The exit code of the consistency check *)

(** X15: [main] exits with 0 exactly when the directory of raw events
    exists, the catalog parses to an array, every id [d] with a file
    [d.txt] (d a non-empty digit string) is referred to by the catalog and
    conversely, and no id is referred to twice; in every other case,
    errors included, it exits with 1. *)
Theorem main_exit_code (JSON_parse : jsstring -> option json)
    (JSON_stringify : report -> jsstring) (argv : list jsstring)
    (dir : option (list jsstring)) (file : option jsstring) :
  let code := snd (main JSON_parse JSON_stringify argv dir file) in
  (code = 0 \/ code = 1) /\
  (code = 0 <->
   exists files events,
     dir = Some files /\
     parseEventsJson JSON_parse file = inr events /\
     let eventIds := fst (extractIdsFromEvents events) in
     (forall id, In id eventIds <->
                 id <> [] /\ forallb isDigit id = true /\
                 In (id ++ js ".txt") files) /\
     NoDup eventIds).
Proof.
  cbv zeta. unfold main.
  destruct (analyze JSON_parse dir file) as [err|res] eqn:E; cbn [snd].
  - split; [now right|]. split; [discriminate|].
    intros (files & events & -> & Hp & _). unfold analyze in E.
    cbn [readRawEventIds] in E. rewrite Hp in E. discriminate.
  - apply analyze_inr in E
      as (files & events & -> & Hp & rawIds & Hraw & Hnd & ->).
    pose proof (readRawEventIds_fold files [] (NoDup_nil _)) as [_ Hids].
    cbn [readRawEventIds] in Hraw. injection Hraw as Hraw.
    rewrite Hraw in Hids.
    assert (Hids' : forall id, In id rawIds <->
              id <> [] /\ forallb isDigit id = true /\
              In (id ++ js ".txt") files).
    { intros id. rewrite Hids. split.
      - intros [[]|(f & Hin & Hf)].
        apply rawFileId_spec in Hf as (Hg & Hpd & ->). now repeat split.
      - intros (Hg & Hpd & Hin). right. exists (id ++ js ".txt").
        split; [assumption|]. apply rawFileId_spec. now repeat split. }
    pose proof (analyzeIds_mismatch rawIds events Hnd) as Hm. cbv zeta in Hm.
    destruct (mismatch (reportSummary (analyzeIds rawIds events))).
    + split; [now right|]. split; [discriminate|].
      intros (files' & events' & Hf & Hp' & Hsame & Hnd').
      injection Hf as <-. assert (events' = events) by congruence. subst.
      assert (true = false); [|discriminate]. apply Hm. split; [|exact Hnd'].
      intros id. rewrite Hids'. symmetry. apply Hsame.
    + split; [now left|]. split; [|reflexivity]. intros _.
      exists files, events. split; [reflexivity|]. split; [exact Hp|].
      destruct Hm as [Hm _]. destruct (Hm eq_refl) as [Hsame Hnd'].
      split; [|exact Hnd']. intros id. rewrite <- Hids'. symmetry.
      apply Hsame.
Qed.


(** ** Substrings *)

Lemma startsWith_app pat : forall s, startsWith (pat ++ s) pat = true.
Proof.
  induction pat as [|p pat IH]; intros s; cbn [app startsWith]; [reflexivity|].
  now rewrite N.eqb_refl, IH.
Qed.

Lemma startsWith_spec pat : forall s,
  startsWith s pat = true <-> exists r, s = pat ++ r.
Proof.
  induction pat as [|p pat IH]; intros s; cbn [startsWith app].
  - split; [eauto|reflexivity].
  - destruct s as [|c s]; [split; [discriminate|intros [r H]; discriminate]|].
    rewrite andb_true_iff, N.eqb_eq, IH. split.
    + intros [-> [r ->]]. now exists r.
    + intros [r H]. injection H as -> ->. split; [reflexivity|now exists r].
Qed.

Lemma includes_spec pat s :
  includes s pat = true <-> exists a c, s = a ++ pat ++ c.
Proof.
  induction s as [|x s IH]; cbn [includes].
  - destruct (startsWith [] pat) eqn:E.
    + split; [|reflexivity]. intros _. apply startsWith_spec in E as [r E].
      exists [], r. exact E.
    + split; [discriminate|]. intros (a & c & H).
      destruct a as [|y a]; [|discriminate]. cbn [app] in H.
      assert (startsWith [] pat = true) by (apply startsWith_spec; eauto).
      congruence.
  - destruct (startsWith (x :: s) pat) eqn:E.
    + split; [|reflexivity]. intros _. apply startsWith_spec in E as [r E].
      exists [], r. exact E.
    + rewrite IH. split.
      * intros (a & c & ->). now exists (x :: a), c.
      * intros (a & c & H). destruct a as [|y a].
        -- cbn [app] in H.
           assert (startsWith (x :: s) pat = true)
             by (apply startsWith_spec; eauto).
           congruence.
        -- injection H as -> ->. now exists a, c.
Qed.

(** ** The title of a raw file *)

Lemma scanLines_first lines name :
  scanLines lines = Some name <->
  exists i l,
    nth_error lines i = Some l /\ name = trim l /\ titleAt lines i = true /\
    forall j, j < i -> titleAt lines j = false.
Proof.
  revert name. induction lines as [|l rest IH]; intros name; cbn [scanLines].
  - split; [discriminate|]. intros (i & l & H & _). now destruct i.
  - assert (Hshift : forall i, titleAt (l :: rest) (S i) = titleAt rest i)
      by reflexivity.
    assert (H0 : titleAt (l :: rest) 0
                 = negb (isNavigation (trim l)) && mayBeTitle (trim l)
                   && existsb looksLikeLocation (map trim (firstn 3 rest)))
      by reflexivity.
    assert (Hskip : titleAt (l :: rest) 0 = false ->
              (scanLines rest = Some name <->
               exists i l0,
                 nth_error (l :: rest) i = Some l0 /\ name = trim l0 /\
                 titleAt (l :: rest) i = true /\
                 forall j, j < i -> titleAt (l :: rest) j = false)).
    { intros Hf. rewrite IH. split.
      - intros (i & l0 & H1 & H2 & H3 & H4). exists (S i), l0.
        repeat split; try assumption.
        intros [|j] Hj; [exact Hf|]. rewrite Hshift. apply H4. lia.
      - intros ([|i] & l0 & H1 & H2 & H3 & H4); [congruence|].
        exists i, l0. repeat split; try assumption.
        intros j Hj. rewrite <- Hshift. apply H4. lia. }
    destruct (isNavigation (trim l)) eqn:En.
    { apply Hskip. now rewrite H0. }
    destruct (mayBeTitle (trim l)
              && existsb looksLikeLocation (map trim (firstn 3 rest))) eqn:Et.
    + assert (Ht : titleAt (l :: rest) 0 = true)
        by (rewrite H0, <- andb_assoc, Et; reflexivity).
      split.
      * intros H. injection H as <-. exists 0, l.
        repeat split; [exact Ht|]. intros j Hj. lia.
      * intros ([|i] & l0 & H1 & H2 & H3 & H4).
        -- cbn in H1. congruence.
        -- specialize (H4 0 ltac:(lia)). congruence.
    + apply Hskip. now rewrite H0, <- andb_assoc, Et, andb_false_r.
Qed.

Lemma mayBeTitle_true line :
  mayBeTitle line = true ->
  10 < length line /\ length line < 200 /\
  Forall (fun w => includes line w = false)
    (map js ["facebook.com"; "Privacy"; "Terms"; "Advertising";
             "people responded"; "Event by"; "Public";
             "Anyone on or off Facebook"; "Invite"; "Details";
             "Duration"]%string).
Proof.
  unfold mayBeTitle. rewrite !andb_true_iff, !negb_true_iff, !Nat.ltb_lt.
  intros H. decompose [and] H. repeat split; try assumption.
  cbn [map]. repeat constructor; assumption.
Qed.

Lemma isNavigation_false line :
  isNavigation line = false ->
  Forall (fun w => includes line w = false)
    (map js ["Log in"; "Forgotten account"; "Events"; "Home";
             "Categories"]%string) /\
  allDigits line = false /\
  (includes line (js "at ") = false \/ includes line (js "+06") = false).
Proof.
  unfold isNavigation. rewrite !orb_false_iff, andb_false_iff.
  intros H. decompose [and] H. repeat split; try assumption.
  cbn [map]. repeat constructor; assumption.
Qed.

Lemma extractEventNameFromRaw_scan content name :
  extractEventNameFromRaw content = Some name ->
  includes content (js "You must log in to continue") = false /\
  includes content (js "Log in to Facebook") = false /\
  scanLines (split 10 content) = Some name.
Proof.
  unfold extractEventNameFromRaw. destruct (falsy content); [discriminate|].
  destruct (includes content (js "You must log in to continue")
            || includes content (js "Log in to Facebook")) eqn:E;
    [discriminate|].
  apply orb_false_iff in E as [E1 E2]. now repeat split.
Qed.

Lemma titleAt_title lines i l :
  nth_error lines i = Some l -> titleAt lines i = true ->
  isNavigation (trim l) = false /\ mayBeTitle (trim l) = true.
Proof.
  unfold titleAt. intros ->. rewrite !andb_true_iff, negb_true_iff. tauto.
Qed.

Lemma extractEventNameFromRaw_long content name :
  extractEventNameFromRaw content = Some name ->
  10 < length name /\ length name < 200.
Proof.
  intros H. apply extractEventNameFromRaw_scan in H as (_ & _ & H).
  apply scanLines_first in H as (i & l & Hl & -> & Ht & _).
  destruct (titleAt_title _ _ _ Hl Ht) as [_ Hm].
  apply mayBeTitle_true in Hm. tauto.
Qed.

(** X16: a title returned by [extractEventNameFromRaw] is the trimmed text
    of the first line of the content that is not skipped, may be a title
    and is followed within three lines by a location-like line; the content
    shows no login wall; the title has between 11 and 199 code units, no
    white space around it, is not a number, and holds none of the denied
    phrases. *)
Theorem extractEventNameFromRaw_sound (content name : jsstring) :
  extractEventNameFromRaw content = Some name ->
  includes content (js "You must log in to continue") = false /\
  includes content (js "Log in to Facebook") = false /\
  (exists i l,
     nth_error (split 10 content) i = Some l /\ name = trim l /\
     titleAt (split 10 content) i = true /\
     forall j, j < i -> titleAt (split 10 content) j = false) /\
  10 < length name /\ length name < 200 /\
  trim name = name /\ allDigits name = false /\
  Forall (fun w => includes name w = false) denied.
Proof.
  intros H. apply extractEventNameFromRaw_scan in H as (M1 & M2 & H).
  apply scanLines_first in H as (i & l & Hl & -> & Ht & Hfirst).
  destruct (titleAt_title _ _ _ Hl Ht) as [Hn Hm].
  apply mayBeTitle_true in Hm as (L1 & L2 & D2).
  apply isNavigation_false in Hn as (D1 & Hd & _).
  repeat split; try assumption.
  - exists i, l. now repeat split.
  - apply trim_idem.
  - unfold denied. change (map js _) with
      (map js ["Log in"; "Forgotten account"; "Events"; "Home";
               "Categories"]%string
       ++ map js ["facebook.com"; "Privacy"; "Terms"; "Advertising";
                  "people responded"; "Event by"; "Public";
                  "Anyone on or off Facebook"; "Invite"; "Details";
                  "Duration"]%string).
    apply Forall_app. now split.
Qed.

(** ** The index built from the directory *)

Lemma getAllRawEventFiles_fold files : forall acc rf,
  In rf (fold_left
           (fun eventFiles file =>
              match rawFileId file with
              | Some id => eventFiles ++ [mkRawFile id file]
              | None => eventFiles
              end) files acc)
  <-> In rf acc \/
      (In (fileName rf) files /\
       rawFileId (fileName rf) = Some (fileEventId rf)).
Proof.
  induction files as [|f files IH]; intros acc rf; cbn [fold_left].
  - cbn. tauto.
  - rewrite IH. destruct (rawFileId f) as [id|] eqn:E.
    + rewrite in_app_iff. cbn [In]. split.
      * intros [[H|[<-|[]]]|[H1 H2]]; cbn [fileName fileEventId].
        -- now left.
        -- right. split; [now left|exact E].
        -- right. split; [now right|exact H2].
      * intros [H|[[H0|H1] H2]].
        -- left. now left.
        -- left. right. left. destruct rf as [i n]. cbn in *. congruence.
        -- right. now split.
    + cbn [In]. split.
      * intros [H|[H1 H2]]; [now left|]. right. split; [now right|exact H2].
      * intros [H|[[H0|H1] H2]]; [now left|congruence|]. right. now split.
Qed.

Lemma obj_set_keys o k v :
  map fst (obj_set o k v)
  = if existsb (jseqb k) (map fst o) then map fst o else map fst o ++ [k].
Proof.
  induction o as [|[k0 v0] o IH]; cbn [obj_set map fst existsb app];
    [reflexivity|].
  destruct (jseqb k k0) eqn:E; cbn [orb map fst]; [reflexivity|].
  rewrite IH. now destruct (existsb (jseqb k) (map fst o)).
Qed.

Lemma existsb_jseqb k l : existsb (jseqb k) l = true <-> In k l.
Proof.
  rewrite existsb_exists. split.
  - intros (x & Hx & E). apply jseqb_eq in E. now subst.
  - intros H. exists k. split; [assumption|apply jseqb_refl].
Qed.

Lemma obj_set_NoDup o k v : NoDup (map fst o) -> NoDup (map fst (obj_set o k v)).
Proof.
  intros H. rewrite obj_set_keys.
  destruct (existsb (jseqb k) (map fst o)) eqn:E; [exact H|].
  apply NoDup_app; [exact H|repeat constructor; intros []|].
  intros x Hx [<-|[]]. apply existsb_jseqb in Hx. congruence.
Qed.

Lemma obj_set_In o k v k' v' :
  In (k', v') (obj_set o k v) ->
  (k' = k /\ v' = v) \/ In (k', v') o.
Proof.
  induction o as [|[k0 v0] o IH]; cbn [obj_set].
  - intros [H|[]]. left. now injection H as <- <-.
  - destruct (jseqb k k0) eqn:E.
    + apply jseqb_eq in E. subst k0. intros [H|H].
      * left. now injection H as <- <-.
      * right. now right.
    + intros [H|H]; [right; now left|].
      destruct (IH H) as [?|?]; [now left|right; now right].
Qed.

Lemma obj_set_get o k v : index_get (obj_set o k v) k = Some v.
Proof.
  induction o as [|[k0 v0] o IH]; cbn [obj_set index_get].
  - now rewrite jseqb_refl.
  - destruct (jseqb k k0) eqn:E; cbn [index_get]; rewrite E; [reflexivity|].
    exact IH.
Qed.

Lemma obj_set_get_other o k v k' :
  k' <> k -> index_get (obj_set o k v) k' = index_get o k'.
Proof.
  intros Hne. induction o as [|[k0 v0] o IH]; cbn [obj_set index_get].
  - apply jseqb_neq in Hne. now rewrite Hne.
  - destruct (jseqb k k0) eqn:E; cbn [index_get].
    + apply jseqb_eq in E. subst k0. apply jseqb_neq in Hne.
      now rewrite Hne.
    + now rewrite IH.
Qed.

Lemma index_get_Some_In idx k v : index_get idx k = Some v -> In (k, v) idx.
Proof.
  induction idx as [|[k0 v0] idx IH]; cbn [index_get]; [discriminate|].
  destruct (jseqb k k0) eqn:E.
  - apply jseqb_eq in E. subst k0. intros H. injection H as <-. now left.
  - intros H. right. now apply IH.
Qed.

Lemma filter_partition_perm (A : Type) (f : A -> bool) (l : list A) :
  Permutation (filter f l ++ filter (fun x => negb (f x)) l) l.
Proof.
  induction l as [|x l IH]; cbn [filter]; [constructor|].
  destruct (f x); cbn [negb app].
  - now constructor.
  - symmetry. apply Permutation_cons_app. now symmetry.
Qed.

Lemma ownEntries_perm o : Permutation (ownEntries o) o.
Proof.
  unfold ownEntries. rewrite sort_by_perm. apply filter_partition_perm.
Qed.

Section Build.
Variable readFileSync : jsstring -> option jsstring.

Lemma extracted_truthy content name :
  extractEventNameFromRaw content = Some name -> falsy name = false.
Proof.
  intros H. apply extractEventNameFromRaw_long in H as [H _].
  destruct name; [cbn in H; lia|reflexivity].
Qed.

(** The object after a file: it holds what [entryOf] says for the file's
    id, and what it held for the other ids. *)
Lemma indexStep_get acc rf id :
  rawFileId (fileName rf) = Some (fileEventId rf) ->
  index_get (fst (indexStep readFileSync acc rf)) id
  = if jseqb id (fileEventId rf)
    then match entryOf readFileSync id with
         | Some v => Some v
         | None => index_get (fst acc) id
         end
    else index_get (fst acc) id.
Proof.
  intros Hid. apply rawFileId_spec in Hid as (_ & _ & Hname).
  destruct acc as [o c]. unfold indexStep, entryOf. cbn [fst].
  destruct (jseqb id (fileEventId rf)) eqn:E.
  - apply jseqb_eq in E. subst id. rewrite <- Hname.
    destruct (readFileSync (fileName rf)) as [content|]; [|reflexivity].
    destruct (extractEventNameFromRaw content) as [n|] eqn:En; [|reflexivity].
    rewrite (extracted_truthy _ _ En). cbn [fst]. apply obj_set_get.
  - destruct (readFileSync (fileName rf)) as [content|]; [|reflexivity].
    destruct (extractEventNameFromRaw content) as [n|] eqn:En; [|reflexivity].
    rewrite (extracted_truthy _ _ En). cbn [fst].
    apply obj_set_get_other. intros ->. rewrite jseqb_refl in E. discriminate.
Qed.

Lemma indexStep_keys acc rf :
  NoDup (map fst (fst acc)) ->
  NoDup (map fst (fst (indexStep readFileSync acc rf))) /\
  forall k, In k (map fst (fst (indexStep readFileSync acc rf))) ->
            In k (map fst (fst acc)) \/ k = fileEventId rf.
Proof.
  destruct acc as [o c]. unfold indexStep. cbn [fst]. intros Hnd.
  destruct (readFileSync (fileName rf)) as [content|]; [|now split; auto].
  destruct (extractEventNameFromRaw content) as [n|]; [|now split; auto].
  destruct (falsy n); [now split; auto|]. cbn [fst]. split.
  - now apply obj_set_NoDup.
  - intros k. rewrite obj_set_keys.
    destruct (existsb (jseqb (fileEventId rf)) (map fst o)); [auto|].
    rewrite in_app_iff. cbn. intuition.
Qed.

Lemma index_fold rawFiles : forall acc,
  NoDup (map fst (fst acc)) ->
  (forall rf, In rf rawFiles ->
              rawFileId (fileName rf) = Some (fileEventId rf)) ->
  let r := fold_left (indexStep readFileSync) rawFiles acc in
  NoDup (map fst (fst r)) /\
  (forall k, In k (map fst (fst r)) ->
             In k (map fst (fst acc)) \/
             exists rf, In rf rawFiles /\ k = fileEventId rf) /\
  forall id,
    index_get (fst r) id
    = if existsb (fun rf => jseqb id (fileEventId rf)) rawFiles
      then match entryOf readFileSync id with
           | Some v => Some v
           | None => index_get (fst acc) id
           end
      else index_get (fst acc) id.
Proof.
  induction rawFiles as [|rf rawFiles IH]; intros acc Hnd Hids r; subst r;
    cbn [fold_left existsb].
  - repeat split; [assumption|auto].
  - destruct (indexStep_keys acc rf Hnd) as [Hnd1 Hk1].
    destruct (IH (indexStep readFileSync acc rf) Hnd1) as (Hnd2 & Hk2 & Hg2).
    { intros rf' Hin. apply Hids. now right. }
    split; [exact Hnd2|]. split.
    + intros k Hk. destruct (Hk2 k Hk) as [H|(rf' & Hin & ->)].
      * destruct (Hk1 k H) as [H'| ->]; [now left|].
        right. exists rf. split; [now left|reflexivity].
      * right. exists rf'. split; [now right|reflexivity].
    + intros id. rewrite Hg2, indexStep_get by (apply Hids; now left).
      destruct (jseqb id (fileEventId rf)); cbn [orb];
        destruct (existsb _ rawFiles); try reflexivity.
      now destruct (entryOf readFileSync id).
Qed.

End Build.

(** ** The report for the reader *)

Lemma join_In sep l x :
  In x l -> exists a c, join sep l = a ++ x ++ c.
Proof.
  induction l as [|y l IH]; [intros []|].
  intros [->|Hin].
  - destruct l as [|z l]; cbn [join].
    + exists [], []. now rewrite app_nil_r.
    + exists [], (sep ++ join sep (z :: l)). reflexivity.
  - destruct (IH Hin) as (a & c & E).
    destruct l as [|z l]; [destruct Hin|].
    change (join sep (y :: z :: l)) with (y ++ sep ++ join sep (z :: l)).
    rewrite E. exists (y ++ sep ++ a), c. now rewrite <- !app_assoc.
Qed.

Lemma join_snoc sep l x :
  l <> [] -> join sep (l ++ [x]) = join sep l ++ sep ++ x.
Proof.
  induction l as [|y l IH]; [congruence|]. intros _.
  destruct l as [|z l]; [reflexivity|].
  change (join sep ((y :: z :: l) ++ [x]))
    with (y ++ sep ++ join sep ((z :: l) ++ [x])).
  rewrite IH by discriminate.
  change (join sep (y :: z :: l)) with (y ++ sep ++ join sep (z :: l)).
  now rewrite <- !app_assoc.
Qed.

Lemma includes_join sep lines line id :
  In line lines -> includes line id = true ->
  includes (join sep lines) id = true.
Proof.
  intros Hin Hinc. apply includes_spec in Hinc as (a & c & ->).
  apply (join_In sep) in Hin as (a' & c' & E).
  apply includes_spec. exists (a' ++ a), (c ++ c').
  rewrite E. now rewrite <- !app_assoc.
Qed.

Lemma includes_middle a x c : includes (a ++ x ++ c) x = true.
Proof. apply includes_spec. now exists a, c. Qed.

Lemma includes_joined sep pre l id :
  In id l -> includes (pre ++ join sep l) id = true.
Proof.
  intros Hin. apply (join_In sep) in Hin as (a & c & E).
  apply includes_spec. exists (pre ++ a), c. rewrite E.
  now rewrite <- !app_assoc.
Qed.

Lemma length_eqb_In (A : Type) (l : list A) x :
  In x l -> (length l =? 0) = false.
Proof. destruct l; [intros []|reflexivity]. Qed.

(** X17: for every report, the last line of the text [formatHuman] returns
    is the verdict, [RESULT: OK] when the summary shows no mismatch and
    [RESULT: INCONSISTENCIES FOUND] otherwise, and the text names every id
    of the three lists. *)
Theorem formatHuman_complete (result : report) :
  (exists body,
     formatHuman result
     = body ++ [10%N]
       ++ (if mismatch (reportSummary result)
           then js "RESULT: INCONSISTENCIES FOUND" else js "RESULT: OK")) /\
  (forall id,
     In id (missingInEventsJson result) \/ In id (missingRawFiles result)
     \/ In id (map fst (duplicates result)) ->
     includes (formatHuman result) id = true).
Proof.
  unfold formatHuman. cbv zeta.
  set (verdict := if mismatch (reportSummary result)
                  then js "RESULT: INCONSISTENCIES FOUND"
                  else js "RESULT: OK").
  match goal with
  | |- context [join [10%N] (?l ++ [[]; verdict])] => set (lines := l)
  end.
  split.
  - exists (join [10%N] lines ++ [10%N]).
    change (lines ++ [[]; verdict]) with (lines ++ [[]] ++ [verdict]).
    rewrite app_assoc, join_snoc, join_snoc.
    + now rewrite <- !app_assoc.
    + subst lines. destruct (length (missingInEventsJson result) =? 0);
        destruct (length (missingRawFiles result) =? 0);
        destruct (length (duplicates result) =? 0); discriminate.
    + destruct lines; discriminate.
  - intros id Hid.
    assert (Hline : exists line, In line lines /\ includes line id = true).
    { subst lines. destruct Hid as [H|[H|H]].
      - rewrite (length_eqb_In _ _ _ H).
        exists (js "   " ++ join (js ", ") (missingInEventsJson result)).
        split; [|now apply includes_joined].
        destruct (length (missingRawFiles result) =? 0);
          destruct (length (duplicates result) =? 0);
          rewrite !in_app_iff; cbn [In]; tauto.
      - rewrite (length_eqb_In _ _ _ H).
        exists (js "   " ++ join (js ", ") (missingRawFiles result)).
        split; [|now apply includes_joined].
        destruct (length (missingInEventsJson result) =? 0);
          destruct (length (duplicates result) =? 0);
          rewrite !in_app_iff; cbn [In]; tauto.
      - apply in_map_iff in H as (d & <- & Hd).
        rewrite (length_eqb_In _ _ _ Hd).
        exists (js "   " ++ fst d ++ js " -> " ++ decimal (snd d)
                ++ js " occurrences").
        split; [|apply includes_middle].
        rewrite !in_app_iff. right. right. apply in_map_iff. now exists d. }
    destruct Hline as (line & Hin & Hinc).
    eapply includes_join; [|exact Hinc]. rewrite in_app_iff. now left.
Qed.


Lemma index_get_perm a b k :
  NoDup (map fst a) -> Permutation a b -> index_get a k = index_get b k.
Proof.
  intros Hnd P.
  assert (Hnd' : NoDup (map fst b)).
  { eapply Permutation_NoDup; [|exact Hnd]. now apply Permutation_map. }
  destruct (index_get a k) as [v|] eqn:Ea.
  - symmetry. apply index_get_In; [exact Hnd'|].
    eapply Permutation_in; [exact P|]. now apply index_get_Some_In.
  - destruct (index_get b k) as [v|] eqn:Eb; [|reflexivity].
    apply index_get_Some_In in Eb.
    apply (Permutation_in _ (Permutation_sym P)) in Eb.
    apply index_get_In in Eb; [congruence|exact Hnd].
Qed.

(** What [buildRawEventIndex] returns on a listing. *)
Lemma buildRawEventIndex_inv readFileSync files idx console :
  buildRawEventIndex readFileSync (Some files) = Some (idx, console) ->
  wf_index idx /\
  forall id v,
    index_get idx id = Some v <->
    id <> [] /\ forallb isDigit id = true /\ In (id ++ js ".txt") files /\
    entryOf readFileSync id = Some v.
Proof.
  unfold buildRawEventIndex, getAllRawEventFiles.
  set (rawFiles := fold_left _ files []).
  assert (Hfiles : forall rf, In rf rawFiles <->
            In (fileName rf) files /\
            rawFileId (fileName rf) = Some (fileEventId rf)).
  { intros rf. unfold rawFiles. rewrite getAllRawEventFiles_fold. cbn. tauto. }
  destruct (index_fold readFileSync rawFiles ([], []) (NoDup_nil _))
    as (Hnd & Hkeys & Hget).
  { intros rf Hin. now apply Hfiles. }
  destruct (fold_left (indexStep readFileSync) rawFiles ([], [])) as [o c].
  cbn [fst index_get map] in *.
  intros H. injection H as <- <-.
  pose proof (ownEntries_perm o) as P.
  assert (Hex : forall id,
            existsb (fun rf => jseqb id (fileEventId rf)) rawFiles = true <->
            id <> [] /\ forallb isDigit id = true /\ In (id ++ js ".txt") files).
  { intros id. rewrite existsb_exists. split.
    - intros (rf & Hin & E). apply jseqb_eq in E. subst id.
      apply Hfiles in Hin as [Hin Hid].
      apply rawFileId_spec in Hid as (H1 & H2 & H3).
      rewrite <- H3. now repeat split.
    - intros (H1 & H2 & H3). exists (mkRawFile id (id ++ js ".txt")).
      split; [|apply jseqb_refl]. apply Hfiles. cbn [fileName fileEventId].
      split; [exact H3|]. apply rawFileId_spec. now repeat split. }
  split; [split|].
  - eapply Permutation_NoDup; [|exact Hnd].
    apply Permutation_map. now symmetry.
  - intros k v Hin. apply (Permutation_in _ P) in Hin.
    apply (in_map fst) in Hin. cbn [fst] in Hin.
    destruct (Hkeys k Hin) as [[]|(rf & Hrf & ->)].
    apply Hfiles in Hrf as [_ Hid].
    apply rawFileId_spec in Hid as (H1 & H2 & _). now split.
  - intros id v.
    rewrite (index_get_perm (ownEntries o) o id).
    2:{ eapply Permutation_NoDup; [|exact Hnd].
        apply Permutation_map. now symmetry. }
    2:{ exact P. }
    rewrite Hget. specialize (Hex id).
    destruct (existsb _ rawFiles).
    + destruct (entryOf readFileSync id) as [v'|].
      * split; [intros H; split; [|split; [|split]]; try apply Hex; auto|].
        intros (_ & _ & _ & H). exact H.
      * split; [discriminate|]. intros (_ & _ & _ & H). discriminate.
    + split; [discriminate|]. intros (H1 & H2 & H3 & _).
      assert (false = true) by (apply Hex; now repeat split). discriminate.
Qed.

(** X18: the index [buildRawEventIndex] returns.  Without the directory there
    is no index.  Otherwise the index holds an entry for the id [d] exactly
    when [d] is a non-empty digit string, the directory lists [d.txt], the
    file can be read and a title is extracted from it; the entry carries
    [d], that title and its normalized form.  The keys of the index are
    distinct. *)
Theorem buildRawEventIndex_spec (readFileSync : jsstring -> option jsstring)
    (dir : option (list jsstring)) :
  match dir with
  | None => buildRawEventIndex readFileSync dir = None
  | Some files =>
      exists idx console,
        buildRawEventIndex readFileSync dir = Some (idx, console) /\
        NoDup (map fst idx) /\
        (forall id v,
           index_get idx id = Some v <->
           id <> [] /\ forallb isDigit id = true /\
           In (id ++ js ".txt") files /\
           exists content eventName,
             readFileSync (id ++ js ".txt") = Some content /\
             extractEventNameFromRaw content = Some eventName /\
             v = mkRawEvent id eventName (normalizeEventName eventName)) /\
        (forall id v, In (id, v) idx <-> index_get idx id = Some v)
  end.
Proof.
  destruct dir as [files|]; [|reflexivity].
  destruct (buildRawEventIndex readFileSync (Some files))
    as [[idx console]|] eqn:E.
  2:{ unfold buildRawEventIndex in E. cbn [getAllRawEventFiles] in E.
      destruct (fold_left (indexStep readFileSync) _ _). discriminate. }
  exists idx, console. split; [reflexivity|].
  apply buildRawEventIndex_inv in E as [[Hnd Hkeys] Hget].
  split; [exact Hnd|]. split.
  - intros id v. rewrite Hget. unfold entryOf. split.
    + intros (H1 & H2 & H3 & H4). repeat split; try assumption.
      revert H4.
      destruct (readFileSync (id ++ js ".txt")) as [content|]; [|discriminate].
      destruct (extractEventNameFromRaw content) as [n|] eqn:En;
        [|discriminate].
      intros H4. exists content, n. repeat split; congruence.
    + intros (H1 & H2 & H3 & content & n & -> & Hn & ->).
      rewrite Hn. now repeat split.
  - intros id v. split; [now apply index_get_In|apply index_get_Some_In].
Qed.

(** X19: run twice on the same directory of raw events, the script corrects
    nothing the second time: no record changes, the report is empty and no
    file is written. *)
Theorem second_run_on_same_directory
    (readFileSync : jsstring -> option jsstring)
    (dir : option (list jsstring)) (events : list event)
    (rawEventIndex : index) (console : list indexLine) :
  buildRawEventIndex readFileSync dir = Some (rawEventIndex, console) ->
  let first := fixFacebookLinks events rawEventIndex in
  let second := fixFacebookLinks (resEvents first) rawEventIndex in
  resFixedCount second = 0 /\ resFixes second = [] /\
  resEvents second = resEvents first /\
  writtenCatalog second = None /\ writtenReport second = None.
Proof.
  intros Hb first second.
  destruct dir as [files|]; [|discriminate].
  apply buildRawEventIndex_inv in Hb as [Hwf _].
  destruct (fixFacebookLinks_fields events rawEventIndex) as (Ev & _).
  fold first in Ev.
  destruct (@fixLoop_stable rawEventIndex events Hwf 0 (mkState 0 [] [])
              0 (mkState 0 [] [])) as (H1 & H2 & H3).
  rewrite <- Ev in H1, H2, H3.
  subst second. unfold fixFacebookLinks.
  destruct (fixLoop rawEventIndex 0 (resEvents first) (mkState 0 [] []))
    as [ev' st']. cbn [fst snd] in H1, H2, H3.
  rewrite H3. cbn. auto.
Qed.

Lemma second_run_on_same_directory_witness :
  buildRawEventIndex disk (Some listing) = Some (corpus, diskConsole) /\
  resFixedCount (fixFacebookLinks catalog corpus) = 1 /\
  let first := fixFacebookLinks catalog corpus in
  let second := fixFacebookLinks (resEvents first) corpus in
  resFixedCount second = 0 /\ resFixes second = [] /\
  resEvents second = resEvents first /\
  writtenCatalog second = None /\ writtenReport second = None.
Proof.
  split; [vm_compute; reflexivity|]. split; [vm_compute; reflexivity|].
  apply (second_run_on_same_directory disk (Some listing) catalog corpus
           diskConsole).
  vm_compute. reflexivity.
Defined.

(** ** A link written by one script, read by the others *)

Lemma idOfLink_linkOf id :
  id <> [] -> forallb isDigit id = true -> idOfLink (linkOf id) = Some id.
Proof.
  intros Hne Hd. unfold idOfLink, linkOf.
  destruct id as [|c id]; [congruence|].
  cbn [forallb] in Hd. apply andb_true_iff in Hd. destruct Hd as [Hc Hd].
  cbn. unfold rx_plus, rx_seq, rx_class, rx_star. rewrite Hc.
  rewrite (drop_while_all _ _ Hd). cbn [length firstn].
  now rewrite firstn_all.
Qed.

(** X20: a link built by the link-fixing script for an id (a non-empty digit
    string) is read back as that id by the link-fixing script itself, by
    the consistency check and by the verification script. *)
Theorem linkOf_round_trip (n id : jsstring) :
  id <> [] -> forallb isDigit id = true ->
  currentEventIdOf (mkEvent n (Some (linkOf id))) = Some id /\
  idOfLink (linkOf id) = Some id /\
  VerifyRun.extractEventIdFromFbLink (Some (linkOf id)) = Some id.
Proof.
  intros Hne Hd. split; [now apply currentEventIdOf_linkOf|].
  split; [now apply idOfLink_linkOf|].
  unfold VerifyRun.extractEventIdFromFbLink.
  change (falsy (linkOf id)) with false. now apply idOfLink_linkOf.
Qed.

Lemma linkOf_round_trip_witness :
  currentEventIdOf (mkEvent (js "Dhaka Run") (Some (linkOf (js "1874907930090863"))))
    = Some (js "1874907930090863") /\
  idOfLink (linkOf (js "1874907930090863")) = Some (js "1874907930090863") /\
  VerifyRun.extractEventIdFromFbLink (Some (linkOf (js "1874907930090863")))
    = Some (js "1874907930090863").
Proof.
  apply (linkOf_round_trip (js "Dhaka Run") (js "1874907930090863")).
  - discriminate.
  - reflexivity.
Defined.


(** ** The scripts together *)

(** X21: with the index built from the directory, the link-fixing script
    only writes links to ids that have a raw file: the new id of every fix
    is among the ids the consistency check reads from the same directory,
    the check reads that id from the new link, and the new name reported is
    the title extracted from the file of that id. *)
Theorem fixes_point_at_raw_files
    (readFileSync : jsstring -> option jsstring) (files : list jsstring)
    (events : list event) (rawEventIndex : index) (console : list indexLine)
    (f : fixEntry) :
  buildRawEventIndex readFileSync (Some files) = Some (rawEventIndex, console) ->
  In f (resFixes (fixFacebookLinks events rawEventIndex)) ->
  (exists ids, readRawEventIds (Some files) = inr ids /\
               In (newEventId f) ids) /\
  idOfLink (newLink f) = Some (newEventId f) /\
  exists content,
    readFileSync (newEventId f ++ js ".txt") = Some content /\
    extractEventNameFromRaw content = Some (newEventName f).
Proof.
  intros Hb Hin.
  apply buildRawEventIndex_inv in Hb as [[Hnd Hkeys] Hget].
  destruct (fixLoop_audit rawEventIndex events 0 (mkState 0 [] []))
    as (_ & _ & new & Hfx & _ & _ & _ & _ & Hall).
  destruct (fixFacebookLinks_fields events rawEventIndex) as (_ & Fx & _).
  rewrite Fx, Hfx in Hin. cbn [fixes app] in Hin.
  rewrite Forall_forall in Hall.
  destruct (Hall f Hin)
    as (k & e & old & new0 & _ & _ & _ & _ & _ & _ & _ & _ & Hnew & Hname
        & _ & _ & _ & Hlink & _).
  apply index_get_In in Hnew; [|exact Hnd].
  apply Hget in Hnew as (H1 & H2 & H3 & H4).
  split; [|split].
  - eexists. split; [reflexivity|].
    destruct (readRawEventIds_fold files [] (NoDup_nil _)) as [_ Hids].
    apply Hids. right. exists (newEventId f ++ js ".txt").
    split; [exact H3|]. apply rawFileId_spec. now repeat split.
  - rewrite Hlink. now apply idOfLink_linkOf.
  - unfold entryOf in H4.
    destruct (readFileSync (newEventId f ++ js ".txt")) as [content|];
      [|discriminate].
    destruct (extractEventNameFromRaw content) as [n|] eqn:En; [|discriminate].
    injection H4 as <-. exists content. split; [reflexivity|].
    rewrite Hname. exact En.
Qed.

Lemma fixes_point_at_raw_files_witness :
  let f := mkFix 1 (js "Chittagong City Run 10K") (js "111")
             (js "Dhaka Half Marathon 2025") (js "222")
             (js "Chittagong City Run") (19 # 19) (link "111") (link "222") in
  (exists ids, readRawEventIds (Some listing) = inr ids /\
               In (newEventId f) ids) /\
  idOfLink (newLink f) = Some (newEventId f) /\
  exists content,
    disk (newEventId f ++ js ".txt") = Some content /\
    extractEventNameFromRaw content = Some (newEventName f).
Proof.
  cbv zeta.
  apply (fixes_point_at_raw_files disk listing catalog corpus diskConsole).
  - vm_compute. reflexivity.
  - vm_compute. left. reflexivity.
Defined.


Lemma extractEventNameFromRaw_sound_witness :
  let content := page "Dhaka Half Marathon 2025" "Hatirjheel, Dhaka" in
  let name := js "Dhaka Half Marathon 2025" in
  includes content (js "You must log in to continue") = false /\
  includes content (js "Log in to Facebook") = false /\
  (exists i l,
     nth_error (split 10 content) i = Some l /\ name = trim l /\
     titleAt (split 10 content) i = true /\
     forall j, j < i -> titleAt (split 10 content) j = false) /\
  10 < length name /\ length name < 200 /\
  trim name = name /\ allDigits name = false /\
  Forall (fun w => includes name w = false) denied.
Proof.
  apply (extractEventNameFromRaw_sound
           (page "Dhaka Half Marathon 2025" "Hatirjheel, Dhaka")
           (js "Dhaka Half Marathon 2025")).
  vm_compute. reflexivity.
Defined.

Import Steps.

(** ** The digit-driven steps of the normalizers *)

Lemma matches_false r s : matches r s = false <-> unmatched r s.
Proof.
  induction s as [|c s IH]; cbn [matches].
  - destruct (r []) eqn:E.
    + split; [discriminate|]. intros H. specialize (H 0). cbn in H. congruence.
    + split; [|reflexivity]. intros _ k. now destruct k.
  - destruct (r (c :: s)) eqn:E.
    + split; [discriminate|]. intros H. specialize (H 0). cbn in H. congruence.
    + rewrite IH. split.
      * intros H [|k]; [exact E|exact (H k)].
      * intros H k. exact (H (S k)).
Qed.

Lemma unmatched_seq (a b : rx) s : unmatched a s -> unmatched (rx_seq a b) s.
Proof. intros H k. unfold rx_seq. now rewrite (H k). Qed.

Lemma digit_not_space c : isDigit c = true -> isWhiteSpace c = false.
Proof.
  unfold isDigit, isWhiteSpace. intros H.
  apply andb_true_iff in H. destruct H as [H1 H2].
  apply N.leb_le in H1, H2.
  repeat match goal with
         | |- context [(?a =? ?b)%N] =>
             destruct (N.eqb_spec a b); [lia|]
         | |- context [(?a <=? ?b)%N] =>
             destruct (N.leb_spec a b)
         end; cbn; try reflexivity; lia.
Qed.

Lemma space_not_digit c : isWhiteSpace c = true -> isDigit c = false.
Proof.
  intros H. destruct (isDigit c) eqn:E; [|reflexivity].
  apply digit_not_space in E. congruence.
Qed.

(** *** The year step *)

Local Abbreviation year := (replace_all fourDigits (js "2025")).

Lemma fourDigits_spec s rest :
  fourDigits s = Some rest <->
  exists a b c d,
    s = a :: b :: c :: d :: rest /\
    isDigit a = true /\ isDigit b = true /\ isDigit c = true /\
    isDigit d = true.
Proof.
  unfold fourDigits. cbn [rx_count]. unfold rx_seq, rx_class, rx_eps. split.
  - destruct s as [|a [|b [|c [|d s]]]]; try discriminate;
      try (destruct (isDigit a); discriminate);
      try (destruct (isDigit a); [destruct (isDigit b)|]; discriminate);
      try (destruct (isDigit a); [destruct (isDigit b);
             [destruct (isDigit c)|]|]; discriminate).
    destruct (isDigit a) eqn:Ea; [|discriminate].
    destruct (isDigit b) eqn:Eb; [|discriminate].
    destruct (isDigit c) eqn:Ec; [|discriminate].
    destruct (isDigit d) eqn:Ed; [|discriminate].
    intros H. injection H as <-. exists a, b, c, d. now repeat split.
  - intros (a & b & c & d & -> & Ha & Hb & Hc & Hd).
    now rewrite Ha, Hb, Hc, Hd.
Qed.

Lemma fourDigits_head c s :
  isDigit c = false -> fourDigits (c :: s) = None.
Proof.
  intros H. unfold fourDigits. cbn [rx_count]. unfold rx_seq, rx_class.
  now rewrite H.
Qed.

Lemma fourDigits_app s rest t :
  fourDigits s = Some rest -> fourDigits (s ++ t) = Some (rest ++ t).
Proof.
  rewrite !fourDigits_spec. intros (a & b & c & d & -> & H).
  exists a, b, c, d. split; [reflexivity|exact H].
Qed.


Lemma fourDigits_short t : length t < 4 -> fourDigits t = None.
Proof.
  intros Ht. destruct (fourDigits t) as [r|] eqn:E; [|reflexivity].
  apply fourDigits_spec in E. destruct E as (? & ? & ? & ? & -> & _).
  cbn [length] in Ht. lia.
Qed.

Lemma year_nil : year [] = [].
Proof. reflexivity. Qed.

Lemma year_group s rest :
  fourDigits s = Some rest -> year s = js "2025" ++ year rest.
Proof.
  intros H. pose proof H as H'. apply fourDigits_spec in H'.
  destruct H' as (a & b & c & d & -> & _).
  unfold replace_all, replace_all_by. cbn [replace_all_from].
  unfold match_len. rewrite H.
  replace (length (a :: b :: c :: d :: rest) - length rest) with 4
    by (cbn [length]; lia).
  reflexivity.
Qed.

Lemma year_other c s :
  fourDigits (c :: s) = None -> year (c :: s) = c :: year s.
Proof.
  intros H. unfold replace_all, replace_all_by. cbn [replace_all_from].
  unfold match_len. now rewrite H.
Qed.

Lemma years_fixed s : years2025 s -> year s = s.
Proof.
  induction 1 as [|s _ IH|c s Hc _ IH].
  - reflexivity.
  - rewrite (year_group (js "2025" ++ s) s); [now rewrite IH|].
    apply fourDigits_spec. exists 50%N, 48%N, 50%N, 53%N. now repeat split.
  - now rewrite year_other, IH.
Qed.

(** A character at which no four digits start is followed, after the year
    step, by the digits that followed it before. *)
Lemma fourDigits_year c s :
  fourDigits (c :: s) = None -> fourDigits (c :: year s) = None.
Proof.
  intros H. destruct (isDigit c) eqn:Ec; [|now apply fourDigits_head].
  assert (Hno : forall rest, fourDigits (c :: s) <> Some rest)
    by (intros rest; congruence).
  assert (G : forall t, (forall a b d rest,
              t = a :: b :: d :: rest -> isDigit a = true ->
              isDigit b = true -> isDigit d = true -> False) ->
            fourDigits (c :: t) = None).
  { intros t Ht. destruct (fourDigits (c :: t)) as [r|] eqn:E; [|reflexivity].
    exfalso. apply fourDigits_spec in E.
    destruct E as (a0 & a & b & d & E & _ & Ha & Hb & Hd).
    injection E as _ ->. exact (Ht a b d r eq_refl Ha Hb Hd). }
  apply G. intros a b d rest E Ha Hb Hd.
  destruct s as [|d1 s1]; [discriminate|].
  destruct (isDigit d1) eqn:E1.
  2:{ rewrite year_other in E by now apply fourDigits_head.
      injection E as -> _. congruence. }
  destruct s1 as [|d2 s2].
  { rewrite year_other in E by (apply fourDigits_short; cbn; lia).
    discriminate. }
  destruct (isDigit d2) eqn:E2.
  2:{ assert (F1 : fourDigits (d1 :: d2 :: s2) = None).
      { destruct (fourDigits (d1 :: d2 :: s2)) as [r|] eqn:F; [|reflexivity].
        apply fourDigits_spec in F.
        destruct F as (? & ? & ? & ? & F & _ & Hx & _). injection F as _ -> _.
        congruence. }
      rewrite year_other in E by exact F1.
      rewrite year_other in E by now apply fourDigits_head.
      injection E as _ -> _. congruence. }
  destruct s2 as [|d3 s3].
  { rewrite year_other in E by (apply fourDigits_short; cbn; lia).
    rewrite year_other in E by (apply fourDigits_short; cbn; lia).
    discriminate. }
  destruct (isDigit d3) eqn:E3.
  { exfalso. apply (Hno s3). apply fourDigits_spec.
    exists c, d1, d2, d3. now repeat split. }
  assert (F1 : fourDigits (d1 :: d2 :: d3 :: s3) = None).
  { destruct (fourDigits (d1 :: d2 :: d3 :: s3)) as [r|] eqn:F; [|reflexivity].
    apply fourDigits_spec in F.
    destruct F as (? & ? & ? & ? & F & _ & _ & Hx & _).
    injection F as _ _ -> _. congruence. }
  assert (F2 : fourDigits (d2 :: d3 :: s3) = None).
  { destruct (fourDigits (d2 :: d3 :: s3)) as [r|] eqn:F; [|reflexivity].
    apply fourDigits_spec in F.
    destruct F as (? & ? & ? & ? & F & _ & Hx & _).
    injection F as _ -> _. congruence. }
  rewrite year_other in E by exact F1.
  rewrite year_other in E by exact F2.
  rewrite year_other in E by now apply fourDigits_head.
  injection E as _ _ -> _. congruence.
Qed.

Lemma years_year_bounded n : forall s, length s <= n -> years2025 (year s).
Proof.
  induction n as [|n IH]; intros s Hn.
  - destruct s; [constructor|cbn in Hn; lia].
  - destruct s as [|c s]; [constructor|].
    destruct (fourDigits (c :: s)) as [rest|] eqn:E.
    + rewrite (year_group _ _ E). constructor. apply IH.
      apply fourDigits_spec in E. destruct E as (a & b & x & d & E & _).
      rewrite E in Hn. cbn [length] in Hn. lia.
    + rewrite (year_other _ _ E). constructor.
      * now apply fourDigits_year.
      * apply IH. cbn [length] in Hn. lia.
Qed.

Lemma years_year s : years2025 (year s).
Proof. exact (years_year_bounded (length s) s (le_n _)). Qed.


Lemma years_short s :
  length s < 4 -> years2025 s.
Proof.
  induction s as [|c s IH]; intros H; [constructor|].
  constructor; [now apply fourDigits_short|]. apply IH. cbn [length] in H. lia.
Qed.

Lemma years_prefix w : years2025 w -> forall u v, w = u ++ v -> years2025 u.
Proof.
  induction 1 as [|s _ IH|c s Hc _ IH]; intros u v E.
  - symmetry in E. apply app_eq_nil in E. destruct E as [-> _]. constructor.
  - destruct u as [|u0 [|u1 [|u2 [|u3 u]]]];
      try (apply years_short; cbn [length]; lia).
    cbn [js map list_ascii_of_string app] in E.
    injection E as <- <- <- <- E.
    apply (years_group). exact (IH u v E).
  - destruct u as [|u0 u]; [constructor|].
    cbn [app] in E. injection E as <- E. constructor.
    + destruct (fourDigits (c :: u)) as [r|] eqn:F; [|reflexivity].
      apply (fourDigits_app _ _ v) in F. cbn [app] in F. rewrite <- E in F.
      congruence.
    + exact (IH u v E).
Qed.

Lemma years_drop a : forall t,
  Forall (fun c => isDigit c = false) a -> years2025 (a ++ t) -> years2025 t.
Proof.
  induction a as [|c a IH]; intros t Ha H; [exact H|].
  inversion Ha as [|? ? Hc Ha']; subst. apply IH; [exact Ha'|].
  cbn [app] in H. inversion H as [|s Hs E|c' s Hf Hs].
  - rewrite <- E in Hc. discriminate.
  - exact Hs.
Qed.



(** *** White space of a name after the collapse *)

Lemma trim_span s :
  exists a b,
    s = a ++ trim s ++ b /\
    forallb isWhiteSpace a = true /\ forallb isWhiteSpace b = true.
Proof.
  unfold trim, trimStart.
  destruct (drop_while_span isWhiteSpace s) as (a & Ea & Ha & _).
  set (t := drop_while isWhiteSpace s) in *.
  destruct (drop_while_span isWhiteSpace (rev t)) as (m & Em & Hm & _).
  exists a, (rev m). split; [|split; [exact Ha|]].
  - rewrite Ea at 1. f_equal. unfold trimEnd.
    rewrite <- rev_app_distr, <- Em. now rewrite rev_involutive.
  - rewrite forallb_forall in *. intros c Hc. apply Hm. now apply in_rev.
Qed.

Lemma spaces_no_digits a :
  forallb isWhiteSpace a = true -> Forall (fun c => isDigit c = false) a.
Proof.
  rewrite forallb_forall, Forall_forall. intros H c Hc.
  apply space_not_digit. now apply H.
Qed.

Lemma years_trim s : years2025 s -> years2025 (trim s).
Proof.
  intros H. destruct (trim_span s) as (a & b & E & Ha & Hb).
  rewrite E, app_assoc in H.
  pose proof (years_prefix _ H (a ++ trim s) b eq_refl) as H'.
  exact (years_drop a (trim s) (spaces_no_digits a Ha) H').
Qed.


Lemma years_cut pat s : years2025 s -> years2025 (cut_at pat s).
Proof.
  intros H. destruct (cut_at_prefix pat s) as [t E].
  exact (years_prefix _ H (cut_at pat s) t E).
Qed.

(** White space that is nothing but spaces, never two in a row, is
    collapsed. *)
Lemma single_spaces_normal s :
  Forall (fun c => isWhiteSpace c = true -> c = 32%N) s ->
  includes s (js "  ") = false -> ws_normal s.
Proof.
  induction 1 as [|c s Hc Hs IH]; intros H; [exact I|].
  cbn [includes] in H.
  destruct (startsWith (c :: s) (js "  ")) eqn:E; [discriminate|].
  cbn [ws_normal]. split; [|now apply IH].
  intros W. pose proof (Hc W) as ->. split; [reflexivity|].
  destruct s as [|d s]; [exact I|].
  destruct (isWhiteSpace d) eqn:Wd; [|reflexivity].
  inversion Hs as [|? ? Hd _]; subst. rewrite (Hd Wd) in E.
  discriminate.
Qed.

Lemma spaces_no_terminator s :
  Forall (fun c => isWhiteSpace c = true -> c = 32%N) s ->
  Forall (fun c => isLineTerminator c = false) s.
Proof.
  apply Forall_impl. intros c Hc.
  destruct (isLineTerminator c) eqn:E; [|reflexivity].
  assert (W : isWhiteSpace c = true).
  { unfold isLineTerminator in E. unfold isWhiteSpace.
    repeat (apply orb_true_iff in E; destruct E as [E|E]);
      apply N.eqb_eq in E; subst; reflexivity. }
  rewrite (Hc W) in E. discriminate.
Qed.

Lemma collapsed_piped_out z :
  Forall piped_out
    (replace_all (rx_plus isWhiteSpace) (js " ")
       (replace_all (rx_class (N.eqb 124)) [] z)).
Proof.
  rewrite replace_all_class.
  set (s := filter _ _).
  assert (H1 : Forall (fun c => (124 =? c)%N = false)
                 (replace_all (rx_plus isWhiteSpace) (js " ") s)).
  { apply (collapse_Forall _ _ _ (le_n _)); [reflexivity|].
    apply Forall_forall. intros d Hd. subst s. apply filter_In in Hd.
    destruct Hd as [_ Hp]. now apply negb_true_iff in Hp. }
  pose proof (ws_normal_spaces _ (collapse_ws_normal _ s (le_n _))) as H2.
  rewrite Forall_forall in *. intros c Hc. split; [now apply H1|now apply H2].
Qed.

Lemma piped_out_parts s :
  Forall piped_out s ->
  Forall (fun c => (124 =? c)%N = false) s /\
  Forall (fun c => isWhiteSpace c = true -> c = 32%N) s.
Proof.
  intros H. split; (eapply Forall_impl; [|exact H]); intros c [A B];
    assumption.
Qed.

Lemma unmatched_lit_sub pat a s b :
  pat <> [] ->
  unmatched (rx_lit_i pat) (a ++ s ++ b) -> unmatched (rx_lit_i pat) s.
Proof.
  intros Hp H. apply unmatched_suffix in H.
  now apply unmatched_lit_prefix in H.
Qed.

(** *** The normalizers after [toLowerCase] *)

Lemma fix_normalize_steps x :
  FixLinks.normalizeEventName x
  = if falsy x then [] else fixSteps (toLowerCase x).
Proof. reflexivity. Qed.

Lemma verify_normalize_steps x :
  VerifyLinks.normalizeEventName x
  = if falsy x then [] else verifySteps (toLowerCase x).
Proof. reflexivity. Qed.


Lemma phrase_powered : js "powered by" <> [].
Proof. discriminate. Qed.

Lemma phrase_sponsored : js "sponsored by" <> [].
Proof. discriminate. Qed.

(** What every result of the fix script's steps looks like. *)
Lemma fixSteps_normal z :
  Forall piped_out (fixSteps z) /\ years2025 (fixSteps z) /\
  unmatched (rx_lit_i (js "powered by")) (fixSteps z) /\
  unmatched (rx_lit_i (js "sponsored by")) (fixSteps z) /\
  trim (fixSteps z) = fixSteps z.
Proof.
  unfold fixSteps.
  set (s3 := replace_all (rx_plus isWhiteSpace) (js " ")
               (replace_all (rx_class (N.eqb 124)) [] z)).
  set (s7 := s3 |> replace_first kSuffix [] |> replace_first kmSuffix []
                |> replace_first editionNumber []
                |> replace_first seasonNumber []).
  set (s8 := replace_all fourDigits (js "2025") s7).
  assert (Q3 : Forall piped_out s3) by apply collapsed_piped_out.
  assert (Q7 : Forall piped_out s7).
  { subst s7. repeat (apply replace_first_Forall; [constructor|]). exact Q3. }
  assert (Qy : Forall piped_out (js "2025"))
    by (repeat constructor; cbn; intros; discriminate).
  assert (Q8 : Forall piped_out s8).
  { subst s8. apply replace_all_from_Forall; [intros _; exact Qy|exact Q7]. }
  assert (Y8 : years2025 s8) by apply years_year.
  assert (L8 : Forall (fun c => isLineTerminator c = false) s8)
    by (apply spaces_no_terminator, piped_out_parts, Q8).
  change (s3 |> replace_first kSuffix [] |> replace_first kmSuffix []
             |> replace_first editionNumber []
             |> replace_first seasonNumber []) with s7.
  change (s7 |> replace_all fourDigits (js "2025")) with s8.
  rewrite (replace_first_phrase (js "powered by") s8 L8).
  set (s9 := cut_at (js "powered by") s8).
  assert (Q9 : Forall piped_out s9).
  { subst s9. destruct (cut_at_prefix (js "powered by") s8) as [t E].
    rewrite E in Q8. now apply Forall_app in Q8. }
  assert (L9 : Forall (fun c => isLineTerminator c = false) s9)
    by (apply spaces_no_terminator, piped_out_parts, Q9).
  rewrite (replace_first_phrase (js "sponsored by") s9 L9).
  set (s10 := cut_at (js "sponsored by") s9).
  assert (Q10 : Forall piped_out s10).
  { subst s10. destruct (cut_at_prefix (js "sponsored by") s9) as [t E].
    rewrite E in Q9. now apply Forall_app in Q9. }
  assert (P9 : unmatched (rx_lit_i (js "powered by")) s9)
    by (apply cut_at_unmatched, phrase_powered).
  assert (P10 : unmatched (rx_lit_i (js "powered by")) s10).
  { subst s10. destruct (cut_at_prefix (js "sponsored by") s9) as [t E].
    rewrite E in P9. eapply unmatched_lit_prefix; [exact phrase_powered|].
    exact P9. }
  assert (S10 : unmatched (rx_lit_i (js "sponsored by")) s10)
    by (apply cut_at_unmatched, phrase_sponsored).
  destruct (trim_substring s10) as (a & b & E).
  split; [now apply trim_Forall|].
  split; [apply years_trim, years_cut, years_cut, Y8|].
  split; [|split; [|apply trim_idem]].
  - rewrite E in P10. exact (unmatched_lit_sub _ a _ b phrase_powered P10).
  - rewrite E in S10. exact (unmatched_lit_sub _ a _ b phrase_sponsored S10).
Qed.

Lemma verifySteps_normal z :
  Forall piped_out (verifySteps z) /\ trim (verifySteps z) = verifySteps z.
Proof.
  unfold verifySteps. split; [|apply trim_idem].
  apply trim_Forall.
  repeat (apply replace_first_Forall; [constructor|]).
  apply collapsed_piped_out.
Qed.

(** A name on which no step has anything left to do. *)
Lemma verifySteps_fixed y :
  Forall piped_out y -> trim y = y ->
  includes y (js "  ") = false ->
  matches kSuffix y = false -> matches kmSuffix y = false ->
  matches editionNumber y = false ->
  verifySteps y = y.
Proof.
  intros Q T Hsp Hk Hkm He. apply piped_out_parts in Q as [Qp Qw].
  unfold verifySteps.
  rewrite replace_all_class, (filter_pipe_fixed _ Qp).
  rewrite (collapse_fixed _ (single_spaces_normal _ Qw Hsp)).
  rewrite (replace_first_unmatched _ _ y) by now apply matches_false.
  rewrite (replace_first_unmatched _ _ y) by now apply matches_false.
  rewrite (replace_first_unmatched _ _ y) by now apply matches_false.
  exact T.
Qed.

Lemma fixSteps_fixed y :
  Forall piped_out y -> years2025 y ->
  unmatched (rx_lit_i (js "powered by")) y ->
  unmatched (rx_lit_i (js "sponsored by")) y ->
  trim y = y ->
  includes y (js "  ") = false ->
  matches kSuffix y = false -> matches kmSuffix y = false ->
  matches editionNumber y = false -> matches seasonNumber y = false ->
  fixSteps y = y.
Proof.
  intros Q Y P S T Hsp Hk Hkm He Hs. apply piped_out_parts in Q as [Qp Qw].
  unfold fixSteps.
  rewrite replace_all_class, (filter_pipe_fixed _ Qp).
  rewrite (collapse_fixed _ (single_spaces_normal _ Qw Hsp)).
  rewrite (replace_first_unmatched _ _ y) by now apply matches_false.
  rewrite (replace_first_unmatched _ _ y) by now apply matches_false.
  rewrite (replace_first_unmatched _ _ y) by now apply matches_false.
  rewrite (replace_first_unmatched _ _ y) by now apply matches_false.
  rewrite (years_fixed _ Y).
  rewrite (replace_first_unmatched _ _ y) by now apply unmatched_seq.
  rewrite (replace_first_unmatched _ _ y) by now apply unmatched_seq.
  exact T.
Qed.

(** C1 (amended): a second application of [normalizeEventName] changes
    nothing whenever the name [y] the first application returned is left
    alone by [toLowerCase], holds no two spaces in a row, does not end in
    digits followed by k or km, and holds neither "edition" nor "season"
    followed by digits. *)
Theorem normalizeEventName_idempotent (x : jsstring) :
  let y := FixLinks.normalizeEventName x in
  toLowerCase y = y ->
  includes y (js "  ") = false ->
  matches kSuffix y = false ->
  matches kmSuffix y = false ->
  matches editionNumber y = false ->
  matches seasonNumber y = false ->
  FixLinks.normalizeEventName y = y.
Proof.
  intros y HL Hsp Hk Hkm He Hs.
  rewrite (fix_normalize_steps y), HL.
  destruct (falsy y) eqn:Fy; [now destruct y|].
  assert (N : exists z, y = fixSteps z).
  { subst y. rewrite fix_normalize_steps in *.
    destruct (falsy x); [discriminate|]. now eexists. }
  destruct N as [z Ez].
  destruct (fixSteps_normal z) as (Q & Y & P & S & T). rewrite <- Ez in *.
  now apply fixSteps_fixed.
Qed.

Lemma normalizeEventName_idempotent_witness :
  let x := js "  Dhaka |  Color  RUN 2024 10K" in
  FixLinks.normalizeEventName x = js "dhaka color run 2025" /\
  FixLinks.normalizeEventName (FixLinks.normalizeEventName x)
  = FixLinks.normalizeEventName x.
Proof.
  split; [vm_compute; reflexivity|].
  apply (normalizeEventName_idempotent
           (js "  Dhaka |  Color  RUN 2024 10K"));
    vm_compute; reflexivity.
Defined.

(** X11: a second application of the verification script's
    [normalizeEventName] changes nothing whenever the name [y] the first
    application returned is left alone by [toLowerCase], holds no two
    spaces in a row, does not end in digits followed by k or km, and does
    not hold "edition" followed by digits. *)
Theorem verify_normalizeEventName_idempotent (x : jsstring) :
  let y := VerifyLinks.normalizeEventName x in
  toLowerCase y = y ->
  includes y (js "  ") = false ->
  matches kSuffix y = false ->
  matches kmSuffix y = false ->
  matches editionNumber y = false ->
  VerifyLinks.normalizeEventName y = y.
Proof.
  intros y HL Hsp Hk Hkm He.
  rewrite (verify_normalize_steps y), HL.
  destruct (falsy y) eqn:Fy; [now destruct y|].
  assert (N : exists z, y = verifySteps z).
  { subst y. rewrite verify_normalize_steps in *.
    destruct (falsy x); [discriminate|]. now eexists. }
  destruct N as [z Ez].
  destruct (verifySteps_normal z) as (Q & T). rewrite <- Ez in *.
  now apply verifySteps_fixed.
Qed.

Lemma verify_normalizeEventName_idempotent_witness :
  let x := js "  Dhaka |  City   RUN 2024 5K" in
  VerifyLinks.normalizeEventName x = js "dhaka city run 2024" /\
  VerifyLinks.normalizeEventName (VerifyLinks.normalizeEventName x)
  = VerifyLinks.normalizeEventName x.
Proof.
  split; [vm_compute; reflexivity|].
  apply (verify_normalizeEventName_idempotent
           (js "  Dhaka |  City   RUN 2024 5K"));
    vm_compute; reflexivity.
Defined.

(** *** Where the two normalizers part *)




(** Each of the conditions is needed: a name at which only that one fails,
    and which a second application changes (or on which the two scripts
    differ). *)
Lemma idempotence_needs_each_condition :
  (let y := FixLinks.normalizeEventName (js "Run Edition 5 Dhaka") in
   y = js "run  dhaka" /\ FixLinks.normalizeEventName y = js "run dhaka") /\
  (let y := FixLinks.normalizeEventName (js "Run 5km 10km") in
   y = js "run 5km" /\ FixLinks.normalizeEventName y = js "run") /\
  (let y := FixLinks.normalizeEventName (js "Edition 1 Edition 2") in
   y = js "edition 2" /\ FixLinks.normalizeEventName y = []) /\
  (let y := FixLinks.normalizeEventName (js "Season 1 Season 2") in
   y = js "season 2" /\ FixLinks.normalizeEventName y = []).
Proof. vm_compute. repeat split. Qed.

Lemma agreement_needs_each_condition :
  (FixLinks.normalizeEventName (js "Run Season 2") = js "run"
   /\ VerifyLinks.normalizeEventName (js "Run Season 2") = js "run season 2")
  /\
  (FixLinks.normalizeEventName (js "Run powered by ACME") = js "run"
   /\ VerifyLinks.normalizeEventName (js "Run powered by ACME")
      = js "run powered by acme") /\
  (FixLinks.normalizeEventName (js "Run sponsored by ACME") = js "run"
   /\ VerifyLinks.normalizeEventName (js "Run sponsored by ACME")
      = js "run sponsored by acme").
Proof. vm_compute. repeat split. Qed.

(** ** The verification run *)

Import VerifyRun VerifySpec.


Section VerifyProofs.
Variable rawFiles : jsstring -> option jsstring.
Variable toFixed2 : Q -> jsstring.

Local Abbreviation step := (verifyStep rawFiles toFixed2).
Local Abbreviation loop := (verifyLoop rawFiles toFixed2).

Lemma verify_idOfLink_nonempty l id :
  CheckEvents.idOfLink l = Some id -> falsy id = false.
Proof.
  intros H. apply match_group_plus_nonempty in H.
  destruct id; [congruence|reflexivity].
Qed.

Lemma verify_title_truthy content n :
  extractEventNameFromRaw content = Some n -> falsy n = false.
Proof.
  unfold extractEventNameFromRaw. destruct (falsy content); [discriminate|].
  generalize (split 10 content). intros lines.
  induction lines as [|l rest IH]; cbn [scanLines]; [discriminate|].
  destruct (isNavigation (trim l)); [exact IH|].
  destruct (mayBeTitle (trim l) && _) eqn:E; [|exact IH].
  intros H. injection H as <-.
  apply andb_true_iff in E as [E _]. unfold mayBeTitle in E.
  rewrite !andb_true_iff in E. decompose [and] E.
  match goal with H : (10 <? _) = true |- _ => apply Nat.ltb_lt in H end.
  destruct (trim l); [cbn in *; lia|reflexivity].
Qed.

(** One round files the record in exactly one list, under its index. *)
Lemma verifyStep_cases i e acc :
  (exists id rawName,
     resolves rawFiles e id rawName /\
     (6 # 10 <= scoreOf e rawName)%Q /\
     step i e acc
     = mkVerification (mismatches acc)
         (matches acc
          ++ [mkMatched i (name e) id (toFixed2 (scoreOf e rawName))])
         (errors acc)) \/
  (exists id rawName rawDate,
     resolves rawFiles e id rawName /\
     (scoreOf e rawName < 6 # 10)%Q /\
     step i e acc
     = mkVerification
         (mismatches acc
          ++ [mkMismatch i (name e) rawName (date e) rawDate id
                (toFixed2 (scoreOf e rawName))])
         (matches acc) (errors acc)) \/
  ((forall id rawName, ~ resolves rawFiles e id rawName) /\
   exists issue eventId link,
     step i e acc
     = mkVerification (mismatches acc) (matches acc)
         (errors acc ++ [mkError i (name e) issue eventId link])).
Proof.
  unfold verifyStep, resolves.
  destruct (extractEventIdFromFbLink (fbLink e)) as [id|] eqn:Eid.
  2:{ right. right. split; [intros id n [H _]; discriminate|]. eauto. }
  assert (Hid : falsy id = false).
  { unfold extractEventIdFromFbLink in Eid.
    destruct (fbLink e) as [l|]; [|discriminate].
    destruct (falsy l); [discriminate|].
    eapply verify_idOfLink_nonempty. exact Eid. }
  rewrite Hid. unfold readRawEventFile.
  destruct (rawFiles (id ++ js ".txt")) as [content|] eqn:Ec.
  2:{ right. right. split; [|eauto].
      intros id' n [H (c & Hc & _)]. congruence. }
  destruct (falsy content) eqn:Ef.
  { right. right. split; [|eauto].
    intros id' n [H (c & Hc & Hne & _)].
    assert (c = content) by congruence. subst c.
    destruct content; [congruence|discriminate]. }
  destruct (includes content (js "You must log in to continue")
            || includes content (js "Log in to Facebook")) eqn:El.
  { right. right. split; [|eauto].
    intros id' n [H (c & Hc & _ & H1 & H2 & _)].
    assert (c = content) by congruence. subst c.
    rewrite H1, H2 in El. discriminate. }
  apply orb_false_iff in El as [El1 El2].
  destruct (extractEventNameFromRaw content) as [rawName|] eqn:En.
  2:{ right. right. split; [|eauto].
      intros id' n [H (c & Hc & _ & _ & _ & Hn)].
      assert (c = content) by congruence. subst c. congruence. }
  rewrite (verify_title_truthy _ _ En).
  assert (Hres : Some id = Some id /\
            exists c, rawFiles (id ++ js ".txt") = Some c /\ c <> [] /\
              includes c (js "You must log in to continue") = false /\
              includes c (js "Log in to Facebook") = false /\
              extractEventNameFromRaw c = Some rawName).
  { split; [reflexivity|]. exists content. repeat split; try assumption.
    intros ->. discriminate. }
  fold (scoreOf e rawName).
  destruct (Qgtb (6 # 10) (scoreOf e rawName)) eqn:Eq.
  - right. left. exists id, rawName, (extractEventDateFromRaw content).
    split; [exact Hres|]. split; [|reflexivity].
    now apply Qgtb_true in Eq.
  - left. exists id, rawName. split; [exact Hres|]. split; [|reflexivity].
    now apply Qgtb_false in Eq.
Qed.

Lemma resolves_fun e id n id' n' :
  resolves rawFiles e id n -> resolves rawFiles e id' n' ->
  id = id' /\ n = n'.
Proof.
  intros [H1 (c & Hc & _ & _ & _ & Hn)] [H1' (c' & Hc' & _ & _ & _ & Hn')].
  assert (id = id') by congruence. subst id'.
  assert (c = c') by congruence. subst c'.
  split; congruence.
Qed.

Lemma matching_not_mismatching e : matching rawFiles e -> mismatching rawFiles e -> False.
Proof.
  intros (id & n & Hr & Hs) (id' & n' & Hr' & Hs').
  destruct (resolves_fun _ _ _ _ _ Hr Hr') as [_ <-].
  apply Qle_not_lt in Hs. contradiction.
Qed.

Lemma filed_here (P : catalogEvent -> Prop) i e rest l :
  P e -> Forall (fun k => S i <= k) l ->
  (forall k e', nth_error rest k = Some e' -> (In (S i + k) l <-> P e')) ->
  forall k e', nth_error (e :: rest) k = Some e' ->
               (In (i + k) (i :: l) <-> P e').
Proof.
  intros HP Hge Hrest [|k] e' H; cbn [nth_error] in H.
  - injection H as <-. split; [intros _; exact HP|intros _; left; lia].
  - rewrite <- (Hrest k e' H). replace (i + S k) with (S i + k) by lia.
    cbn [In]. split; [intros [E|Hin]; [lia|exact Hin]|now right].
Qed.

Lemma filed_elsewhere (P : catalogEvent -> Prop) i e rest l :
  ~ P e -> Forall (fun k => S i <= k) l ->
  (forall k e', nth_error rest k = Some e' -> (In (S i + k) l <-> P e')) ->
  forall k e', nth_error (e :: rest) k = Some e' ->
               (In (i + k) l <-> P e').
Proof.
  intros HP Hge Hrest [|k] e' H; cbn [nth_error] in H.
  - injection H as <-. rewrite Nat.add_0_r. split; [|contradiction].
    intros Hin. rewrite Forall_forall in Hge. apply Hge in Hin. lia.
  - rewrite <- (Hrest k e' H). now replace (i + S k) with (S i + k) by lia.
Qed.

Lemma verifyLoop_inv events : forall i acc,
  exists mis mat err,
    map misIndex (mismatches (loop i events acc))
      = map misIndex (mismatches acc) ++ mis /\
    map matIndex (matches (loop i events acc))
      = map matIndex (matches acc) ++ mat /\
    map errIndex (errors (loop i events acc))
      = map errIndex (errors acc) ++ err /\
    length mis + length mat + length err = length events /\
    (Forall (fun k => i <= k) mis /\ Forall (fun k => i <= k) mat /\
     Forall (fun k => i <= k) err) /\
    (StronglySorted lt mis /\ StronglySorted lt mat /\
     StronglySorted lt err) /\
    (forall k e, nth_error events k = Some e ->
                 (In (i + k) mat <-> matching rawFiles e)) /\
    (forall k e, nth_error events k = Some e ->
                 (In (i + k) mis <-> mismatching rawFiles e)) /\
    (forall k e, nth_error events k = Some e ->
                 (In (i + k) err <-> unresolved rawFiles e)).
Proof.
  induction events as [|e rest IH]; intros i acc; cbn [verifyLoop].
  - exists [], [], []. rewrite !app_nil_r.
    split; [reflexivity|]. split; [reflexivity|]. split; [reflexivity|].
    split; [reflexivity|]. split; [repeat split; constructor|].
    split; [repeat split; constructor|].
    split; [|split]; intros [|k] e0 H0; discriminate.
  - destruct (IH (S i) (step i e acc))
      as (mis & mat & err & E1 & E2 & E3 & Hlen & (G1 & G2 & G3)
          & (S1 & S2 & S3) & C1 & C2 & C3).
    assert (Hup : forall l, Forall (fun k => S i <= k) l ->
                            Forall (fun k => i <= k) l).
    { intros l H. eapply Forall_impl; [|exact H]. cbn. intros; lia. }
    assert (Hlt : forall l, Forall (fun k => S i <= k) l -> Forall (lt i) l).
    { intros l H. eapply Forall_impl; [|exact H]. cbn. intros; lia. }
    rewrite E1, E2, E3.
    destruct (verifyStep_cases i e acc)
      as [(id & n & Hr & Hs & ->)|[(id & n & d & Hr & Hs & ->)
          |(Hun & issue & eid & link & ->)]];
      cbn [mismatches matches errors].
    + assert (Hm : matching rawFiles e) by (exists id, n; now split).
      exists mis, (i :: mat), err.
      rewrite map_app, <- app_assoc. cbn [map matIndex app length].
      split; [reflexivity|]. split; [reflexivity|]. split; [reflexivity|].
      split; [lia|].
      split; [repeat split; auto; constructor; auto|].
      split; [repeat split; auto; constructor; auto|].
      split; [|split].
      * now apply filed_here.
      * apply filed_elsewhere; auto.
        intros Hb. exact (matching_not_mismatching _ Hm Hb).
      * apply filed_elsewhere; auto. intros Hc. exact (Hc _ _ Hr).
    + assert (Hm : mismatching rawFiles e) by (exists id, n; now split).
      exists (i :: mis), mat, err.
      rewrite map_app, <- app_assoc. cbn [map misIndex app length].
      split; [reflexivity|]. split; [reflexivity|]. split; [reflexivity|].
      split; [lia|].
      split; [repeat split; auto; constructor; auto|].
      split; [repeat split; auto; constructor; auto|].
      split; [|split].
      * apply filed_elsewhere; auto.
        intros Ha. exact (matching_not_mismatching _ Ha Hm).
      * now apply filed_here.
      * apply filed_elsewhere; auto. intros Hc. exact (Hc _ _ Hr).
    + exists mis, mat, (i :: err).
      rewrite map_app, <- app_assoc. cbn [map errIndex app length].
      split; [reflexivity|]. split; [reflexivity|]. split; [reflexivity|].
      split; [lia|].
      split; [repeat split; auto; constructor; auto|].
      split; [repeat split; auto; constructor; auto|].
      split; [|split].
      * apply filed_elsewhere; auto.
        intros (id & n & Hr & _). exact (Hun _ _ Hr).
      * apply filed_elsewhere; auto.
        intros (id & n & Hr & _). exact (Hun _ _ Hr).
      * now apply filed_here.
Qed.

End VerifyProofs.

(** X22: [verifyFacebookLinks] files every record of the catalog in exactly
    one of its three lists, under the record's position and in the order of
    the catalog: in [matches] when the record resolves to a raw page whose
    title scores at least 0.6 against its name, in [mismatches] when that
    score is lower, and in [errors] when there is no such title (no id in
    the link, no file or an empty one, a login wall, no title found). *)
Theorem verifyFacebookLinks_verdicts
    (rawFiles : jsstring -> option jsstring) (toFixed2 : Q -> jsstring)
    (events : list catalogEvent) :
  let v := verifyFacebookLinks rawFiles toFixed2 events in
  length (mismatches v) + length (matches v) + length (errors v)
    = length events /\
  StronglySorted lt (map matIndex (matches v)) /\
  StronglySorted lt (map misIndex (mismatches v)) /\
  StronglySorted lt (map errIndex (errors v)) /\
  forall i e, nth_error events i = Some e ->
    (In i (map matIndex (matches v)) <-> matching rawFiles e) /\
    (In i (map misIndex (mismatches v)) <-> mismatching rawFiles e) /\
    (In i (map errIndex (errors v)) <-> unresolved rawFiles e).
Proof.
  intros v. subst v. unfold verifyFacebookLinks.
  destruct (verifyLoop_inv rawFiles toFixed2 events 0 (mkVerification [] [] []))
    as (mis & mat & err & E1 & E2 & E3 & Hlen & _ & (S1 & S2 & S3)
        & C1 & C2 & C3).
  cbn [mismatches matches errors map app] in E1, E2, E3.
  assert (L1 := f_equal (@length nat) E1).
  assert (L2 := f_equal (@length nat) E2).
  assert (L3 := f_equal (@length nat) E3).
  rewrite length_map in L1, L2, L3.
  rewrite E1, E2, E3, L1, L2, L3.
  split; [exact Hlen|]. split; [exact S2|]. split; [exact S1|].
  split; [exact S3|].
  intros i e H. split; [|split].
  - exact (C1 i e H).
  - exact (C2 i e H).
  - exact (C3 i e H).
Qed.
